(** * Literature Search Builder: query compilation and matching engine

    A shallow embedding of the core of [src/App.tsx]: the BibTeX entry
    parser, the term-pattern compiler, the block evaluator, the pasted-query
    parser, the span collector of the highlighter and the term statistics,
    together with the highlighter itself, the escaping of markup, the
    export as comma-separated values and the editing of the blocks,
    followed by the properties of the specification that concern them and
    by further properties of the code.

    Conventions of the embedding.
    - A JavaScript string is the list of its UTF-16 code units ([list N]);
      [js "..."] turns an ASCII literal into such a list.
    - A JavaScript object used as a dictionary is a [gmap] over its own
      string keys; the order of its keys is not modelled.
    - Arrays are lists; [push] appends at the end.
    - The regular-expression engine of the runtime is an interface
      ([RegExpEngine]); the general results hold for every engine, and
      [JsRegExp] provides an executable backtracking engine for a subset of
      the pattern syntax, used for the literal patterns of the source and
      for concrete runs. *)

From Stdlib Require Import NArith ZArith String Ascii List Lia Bool.
From stdpp Require Import base option list gmap sorting.

Local Open Scope nat_scope.
#[local] Set Warnings "-clear-no-such-hyp".

(** ** JavaScript strings *)

Abbreviation jsstring := (list N).

Definition js (s : string) : jsstring :=
  map N_of_ascii (list_ascii_of_string s).

Definition ch (a : ascii) : N := N_of_ascii a.

(** [WhiteSpace] and [LineTerminator] code units: what [String.prototype.trim]
    strips and what [\s] matches. *)
Definition isSpace (c : N) : bool :=
  (((9 <=? c) && (c <=? 13)) || (c =? 32) || (c =? 160) || (c =? 5760)
   || ((8192 <=? c) && (c <=? 8202)) || (c =? 8232) || (c =? 8233)
   || (c =? 8239) || (c =? 8287) || (c =? 12288) || (c =? 65279))%N.

(** [\w] is [[A-Za-z0-9_]]. *)
Definition isWordChar (c : N) : bool :=
  (((65 <=? c) && (c <=? 90)) || ((97 <=? c) && (c <=? 122))
   || ((48 <=? c) && (c <=? 57)) || (c =? 95))%N.

Fixpoint trimStart (s : jsstring) : jsstring :=
  match s with
  | c :: s' => if isSpace c then trimStart s' else s
  | [] => []
  end.

Definition trimEnd (s : jsstring) : jsstring := rev (trimStart (rev s)).

Definition trim (s : jsstring) : jsstring := trimEnd (trimStart s).

(** [s.slice(0, -1)] *)
Definition dropLast (s : jsstring) : jsstring := removelast s.

Definition endsWith (c : N) (s : jsstring) : bool :=
  match rev s with
  | d :: _ => (d =? c)%N
  | [] => false
  end.

Definition eqs (a b : jsstring) : bool := bool_decide (a = b).

(** Decimal rendering of a number inside a template literal. *)
Fixpoint digitsFuel (fuel n : nat) (acc : jsstring) : jsstring :=
  match fuel with
  | 0 => acc
  | S f =>
      let acc' := (48 + N.of_nat (n mod 10))%N :: acc in
      if n / 10 =? 0 then acc' else digitsFuel f (n / 10) acc'
  end.

Definition showNat (n : nat) : jsstring := digitsFuel (S n) n [].

(** [xs.join(sep)] *)
Fixpoint join (sep : jsstring) (xs : list jsstring) : jsstring :=
  match xs with
  | [] => []
  | [x] => x
  | x :: rest => x ++ sep ++ join sep rest
  end.

(** ** Data model *)

Inductive Operator := AND | OR.

Record Block := {
  id : jsstring;
  name : jsstring;
  terms : list jsstring;
  isRegex : bool;   (* optional in the source; absent reads as false *)
  exclude : bool    (* optional in the source; absent reads as false *)
}.

Record SearchFields := {
  sf_title : bool;
  sf_abstract : bool;
  sf_keywords : bool
}.

Record QueryConfig := {
  blocks : list Block;
  operators : list Operator;
  caseInsensitive : bool;
  searchFields : SearchFields
}.

Inductive FieldName := Title | Abstract | Keywords.

(** The per-field hit lists of one block: [{title?, abstract?, keywords?}]. *)
Record FieldHits := {
  hits_title : option (list jsstring);
  hits_abstract : option (list jsstring);
  hits_keywords : option (list jsstring)
}.

Definition noFieldHits : FieldHits :=
  {| hits_title := None; hits_abstract := None; hits_keywords := None |}.

Definition setFieldHits (f : FieldName) (h : list jsstring) (p : FieldHits)
  : FieldHits :=
  match f with
  | Title => {| hits_title := Some h; hits_abstract := hits_abstract p;
                hits_keywords := hits_keywords p |}
  | Abstract => {| hits_title := hits_title p; hits_abstract := Some h;
                   hits_keywords := hits_keywords p |}
  | Keywords => {| hits_title := hits_title p; hits_abstract := hits_abstract p;
                   hits_keywords := Some h |}
  end.

(** [fields?.[f] || []] *)
Definition fieldHitsOf (f : FieldName) (p : FieldHits) : list jsstring :=
  default [] match f with
             | Title => hits_title p
             | Abstract => hits_abstract p
             | Keywords => hits_keywords p
             end.

(** ** PatternCompiler *)

(** The class [[\\.^$|()[\]?+{}]] of [hasRegexMeta]. *)
Definition metaClass (c : N) : bool :=
  existsb (N.eqb c) (js "\.^$|()[]?+{}").

(** The class [[.+?^${}()|[\]\\]] of [escExceptStar]. *)
Definition escExceptStarClass (c : N) : bool :=
  existsb (N.eqb c) (js ".+?^${}()|[]\").

(** The class [[.*+?^${}()|[\]\\]] of [safeRegExp]. *)
Definition escAllClass (c : N) : bool :=
  existsb (N.eqb c) (js ".*+?^${}()|[]\").

Definition hasRegexMeta (s : jsstring) : bool := existsb metaClass s.

(** [s.replace(/[class]/g, "\\$&")] *)
Definition escapeWith (cls : N -> bool) (s : jsstring) : jsstring :=
  flat_map (fun c => if cls c then [ch "\"; c] else [c]) s.

Definition escExceptStar (s : jsstring) : jsstring :=
  escapeWith escExceptStarClass s.

Definition escapeAll (s : jsstring) : jsstring := escapeWith escAllClass s.

Definition toSmartWordPattern (term : jsstring) (isRegex : bool) : jsstring :=
  let t := trim term in
  if isRegex && hasRegexMeta t then t
  else
    let trailingStar := endsWith (ch "*") t in
    if trailingStar then
      let stem := escExceptStar (dropLast t) in
      js "\b" ++ stem ++ js "[\w-]*"
    else js "\b" ++ escExceptStar t ++ js "\b".

(** An entry of [compiled]: a usable block, its name, its terms that are
    not blank and their patterns, of type [R]. *)
Record CompiledOf (R : Type) := {
  index : nat;
  cname : jsstring;
  block : Block;
  cterms : list jsstring;
  regexes : list R
}.

Arguments index {R} _.
Arguments cname {R} _.
Arguments block {R} _.
Arguments cterms {R} _.
Arguments regexes {R} _.

(** ** The regular-expression engine of the runtime

    [regexp_new p i] is [new RegExp(p, flags)], where [i] tells whether
    [flags] contains ["i"]; [None] stands for the [SyntaxError] it throws.
    [regexp_exec r s from] is one call of [exec] on a global copy of [r]
    whose [lastIndex] is [from]: the index and the length of [m[0]], or
    [None] for [null].  The two laws are those the source relies on: a
    fully escaped text always compiles, and [exec] never reports a match
    in front of [lastIndex]. *)
Class RegExpEngine := {
  regexp : Type;
  regexp_new : jsstring -> bool -> option regexp;
  regexp_exec : regexp -> jsstring -> nat -> option (nat * nat);
  regexp_new_escaped :
    forall (p : jsstring) (i : bool), is_Some (regexp_new (escapeAll p) i);
  regexp_exec_from :
    forall r s from idx len,
      regexp_exec r s from = Some (idx, len) -> from <= idx
}.

(** ** An executable regular-expression engine

    A backtracking matcher in continuation-passing style, after the
    pattern semantics of ECMAScript (without the [u], [m] and [y] flags),
    and a parser for the following subset of the pattern syntax:
    alternation, groups (capturing and [(?:...)]), the quantifiers
    [* + ? {n} {n,} {n,m}] and their lazy forms, the assertions
    [^ $ \b \B], the dot, character classes with ranges and negation, the
    escapes [\d \D \w \W \s \S \t \n \v \f \r] and the escape of any
    character that is neither a letter nor a digit.  Back-references,
    look-around and the remaining letter and digit escapes are outside
    the subset: [parse] answers [None] for them.  With [ignoreCase] only
    the letters a-z and A-Z are folded. *)
Module JsRegExp.

Record Flags := { ignoreCase : bool; dotAll : bool }.

Inductive ClassItem :=
| CChar (c : N)
| CRange (lo hi : N)
| CWord (neg : bool)
| CSpace (neg : bool)
| CDigit (neg : bool).

Inductive Assertion := AStart | AEnd | AWordB | ANotWordB.

Inductive re :=
| REmpty
| RSet (neg : bool) (items : list ClassItem)
| RAny
| RAssert (a : Assertion)
| RSeq (r1 r2 : re)
| RAlt (r1 r2 : re)
| RRep (r : re) (min : nat) (max : option nat) (greedy : bool)
| RGroup (n : option nat) (r : re).

(** *** Matching *)

Definition canon (c : N) : N :=
  if ((97 <=? c) && (c <=? 122))%N then (c - 32)%N else c.

Definition inRange (lo hi c : N) : bool := ((lo <=? c) && (c <=? hi))%N.

Definition isDigit (c : N) : bool := inRange 48 57 c.

Definition isLineTerminator (c : N) : bool :=
  ((c =? 10) || (c =? 13) || (c =? 8232) || (c =? 8233))%N.

Definition itemMatches (ic : bool) (c : N) (it : ClassItem) : bool :=
  match it with
  | CChar a => if ic then (canon a =? canon c)%N else (a =? c)%N
  | CRange lo hi =>
      if ic
      then inRange lo hi (canon c)
           || (inRange 65 90 (canon c) && inRange lo hi (canon c + 32)%N)
      else inRange lo hi c
  | CWord neg => xorb neg (isWordChar c)
  | CSpace neg => xorb neg (isSpace c)
  | CDigit neg => xorb neg (isDigit c)
  end.

(** A position in the input: the index, the code unit in front of it, the
    code units from it on, and the captures recorded so far. *)
Record MState := {
  pos : nat;
  prev : option N;
  rest : jsstring;
  caps : list (nat * (nat * nat))
}.

Definition advance (c : N) (x : MState) (rest' : jsstring) : MState :=
  {| pos := S (pos x); prev := Some c; rest := rest'; caps := caps x |}.

Definition setCap (n : option nat) (span : nat * nat) (x : MState) : MState :=
  match n with
  | None => x
  | Some i =>
      {| pos := pos x; prev := prev x; rest := rest x;
         caps := (i, span) :: caps x |}
  end.

Definition isWordAt (o : option N) : bool :=
  match o with
  | Some c => isWordChar c
  | None => false
  end.

Definition assertionHolds (a : Assertion) (x : MState) : bool :=
  match a with
  | AStart => pos x =? 0
  | AEnd => match rest x with [] => true | _ => false end
  | AWordB => xorb (isWordAt (prev x)) (isWordAt (head (rest x)))
  | ANotWordB => negb (xorb (isWordAt (prev x)) (isWordAt (head (rest x))))
  end.

(** [RepeatMatcher]: [m] matches one turn of the body, [k] is what follows
    the repetition.  A turn that consumes nothing once the minimum is
    reached is refused, so every turn lowers [mn] or moves forward, and
    [fuel] bounds the number of turns. *)
Fixpoint repeatMatcher
    (m : MState -> (MState -> option MState) -> option MState)
    (greedy : bool) (k : MState -> option MState)
    (fuel mn : nat) (mx : option nat) (x : MState) {struct fuel}
  : option MState :=
  match fuel with
  | 0 => None
  | S fuel' =>
      match mx with
      | Some 0 => k x
      | _ =>
          let d := fun y =>
            if (mn =? 0) && (pos y =? pos x) then None
            else repeatMatcher m greedy k fuel' (Nat.pred mn)
                               (Nat.pred <$> mx) y in
          if negb (mn =? 0) then m x d
          else if greedy then
            match m x d with
            | Some z => Some z
            | None => k x
            end
          else
            match k x with
            | Some z => Some z
            | None => m x d
            end
      end
  end.

Fixpoint rmatch (fl : Flags) (r : re) (x : MState)
    (k : MState -> option MState) {struct r} : option MState :=
  match r with
  | REmpty => k x
  | RSet neg items =>
      match rest x with
      | c :: rest' =>
          if xorb neg (existsb (itemMatches (ignoreCase fl) c) items)
          then k (advance c x rest') else None
      | [] => None
      end
  | RAny =>
      match rest x with
      | c :: rest' =>
          if dotAll fl || negb (isLineTerminator c)
          then k (advance c x rest') else None
      | [] => None
      end
  | RAssert a => if assertionHolds a x then k x else None
  | RSeq r1 r2 => rmatch fl r1 x (fun y => rmatch fl r2 y k)
  | RAlt r1 r2 =>
      match rmatch fl r1 x k with
      | Some z => Some z
      | None => rmatch fl r2 x k
      end
  | RGroup n r1 => rmatch fl r1 x (fun y => k (setCap n (pos x, pos y) y))
  | RRep r1 mn mx greedy =>
      repeatMatcher (rmatch fl r1) greedy k
                    (mn + length (rest x) + 1) mn mx x
  end.

(** The match found at the first position at or after [from], scanning
    the input from position [p] on. *)
Fixpoint searchFrom (fl : Flags) (r : re) (from : nat) (prv : option N)
    (s : jsstring) (p : nat) : option (nat * MState) :=
  let here :=
    if from <=? p
    then rmatch fl r {| pos := p; prev := prv; rest := s; caps := [] |} Some
    else None in
  match here with
  | Some z => Some (p, z)
  | None =>
      match s with
      | [] => None
      | c :: s' => searchFrom fl r from (Some c) s' (S p)
      end
  end.

Definition search (fl : Flags) (r : re) (s : jsstring) (from : nat)
  : option (nat * MState) :=
  searchFrom fl r from None s 0.

Definition exec (fl : Flags) (r : re) (s : jsstring) (from : nat)
  : option (nat * nat) :=
  match search fl r s from with
  | Some (i, z) => Some (i, pos z - i)
  | None => None
  end.

(** The text of capture group [n] of a match on [s]. *)
Definition capture (s : jsstring) (z : MState) (n : nat) : option jsstring :=
  match List.find (fun e => fst e =? n) (caps z) with
  | Some (_, (a, b)) => Some (take (b - a) (drop a s))
  | None => None
  end.

(** *** Parsing the pattern syntax *)

Definition isAlnum (c : N) : bool :=
  inRange 65 90 c || inRange 97 122 c || inRange 48 57 c.

Definition classEscape (e : N) : option ClassItem :=
  if (e =? ch "d")%N then Some (CDigit false)
  else if (e =? ch "D")%N then Some (CDigit true)
  else if (e =? ch "w")%N then Some (CWord false)
  else if (e =? ch "W")%N then Some (CWord true)
  else if (e =? ch "s")%N then Some (CSpace false)
  else if (e =? ch "S")%N then Some (CSpace true)
  else if (e =? ch "t")%N then Some (CChar 9)
  else if (e =? ch "n")%N then Some (CChar 10)
  else if (e =? ch "v")%N then Some (CChar 11)
  else if (e =? ch "f")%N then Some (CChar 12)
  else if (e =? ch "r")%N then Some (CChar 13)
  else if isAlnum e then None
  else Some (CChar e).

Definition parseClassAtom (s : jsstring) : option (ClassItem * jsstring) :=
  match s with
  | [] => None
  | c :: s' =>
      if (c =? ch "\")%N then
        match s' with
        | [] => None
        | e :: s'' =>
            if (e =? ch "b")%N then Some (CChar 8, s'')
            else match classEscape e with
                 | Some it => Some (it, s'')
                 | None => None
                 end
        end
      else Some (CChar c, s')
  end.

Fixpoint parseClassItems (fuel : nat) (s : jsstring) (acc : list ClassItem)
  : option (list ClassItem * jsstring) :=
  match fuel with
  | 0 => None
  | S f =>
      match s with
      | [] => None
      | c :: s' =>
          if (c =? ch "]")%N then Some (rev acc, s')
          else
            match parseClassAtom s with
            | None => None
            | Some (a, s1) =>
                match s1 with
                | d :: (e :: _) as s2 =>
                    if (d =? ch "-")%N && negb (e =? ch "]")%N then
                      match parseClassAtom s2 with
                      | None => None
                      | Some (b, s3) =>
                          match a, b with
                          | CChar lo, CChar hi =>
                              if (lo <=? hi)%N
                              then parseClassItems f s3 (CRange lo hi :: acc)
                              else None
                          | _, _ =>
                              parseClassItems f s3 (b :: CChar d :: a :: acc)
                          end
                      end
                    else parseClassItems f s1 (a :: acc)
                | _ => parseClassItems f s1 (a :: acc)
                end
            end
      end
  end.

Fixpoint parseDigits (s : jsstring) (acc : option nat) : option nat * jsstring :=
  match s with
  | c :: s' =>
      if isDigit c
      then parseDigits s' (Some (10 * default 0 acc + N.to_nat (c - 48)))
      else (acc, s)
  | [] => (acc, s)
  end.

(** A braced quantifier at the head of [s], after its opening brace. *)
Definition parseBraces (s : jsstring)
  : option (nat * option nat * jsstring) :=
  match parseDigits s None with
  | (Some lo, c :: s1) =>
      if (c =? ch "}")%N then Some (lo, Some lo, s1)
      else if (c =? ch ",")%N then
        match parseDigits s1 None with
        | (None, d :: s2) =>
            if (d =? ch "}")%N then Some (lo, None, s2) else None
        | (Some hi, d :: s2) =>
            if (d =? ch "}")%N then Some (lo, Some hi, s2) else None
        | _ => None
        end
      else None
  | _ => None
  end.

Inductive Quant :=
| QNone
| QBad
| QSome (min : nat) (max : option nat).

Definition parseQuantPrefix (s : jsstring) : Quant * jsstring :=
  match s with
  | c :: s' =>
      if (c =? ch "*")%N then (QSome 0 None, s')
      else if (c =? ch "+")%N then (QSome 1 None, s')
      else if (c =? ch "?")%N then (QSome 0 (Some 1), s')
      else if (c =? ch "{")%N then
        match parseBraces s' with
        | Some (lo, Some hi, s'') =>
            if lo <=? hi then (QSome lo (Some hi), s'') else (QBad, s)
        | Some (lo, None, s'') => (QSome lo None, s'')
        | None => (QNone, s)
        end
      else (QNone, s)
  | [] => (QNone, s)
  end.

(** The atom [a], with the quantifier found at the head of [s], if any. *)
Definition withQuantifier (a : re) (s : jsstring) : option (re * jsstring) :=
  match parseQuantPrefix s with
  | (QNone, s') => Some (a, s')
  | (QBad, _) => None
  | (QSome lo hi, s') =>
      match s' with
      | c :: s'' =>
          if (c =? ch "?")%N then Some (RRep a lo hi false, s'')
          else Some (RRep a lo hi true, s')
      | [] => Some (RRep a lo hi true, s')
      end
  end.

Definition finishAlt (alts : option re) (cur : re) : re :=
  match alts with
  | Some a => RAlt a cur
  | None => cur
  end.

(** One term at the head of [c :: s']; [sub] parses the body of a group. *)
Definition parseTerm
    (sub : jsstring -> nat -> option (re * jsstring * nat))
    (c : N) (s' : jsstring) (g : nat) : option (re * jsstring * nat) :=
  if (c =? ch "^")%N then Some (RAssert AStart, s', g)
  else if (c =? ch "$")%N then Some (RAssert AEnd, s', g)
  else if (c =? ch "*")%N || (c =? ch "+")%N || (c =? ch "?")%N then None
  else if (c =? ch "{")%N then
    match parseBraces s' with
    | Some _ => None
    | None =>
        match withQuantifier (RSet false [CChar c]) s' with
        | Some (t, s'') => Some (t, s'', g)
        | None => None
        end
    end
  else if (c =? ch ".")%N then
    match withQuantifier RAny s' with
    | Some (t, s'') => Some (t, s'', g)
    | None => None
    end
  else if (c =? ch "\")%N then
    match s' with
    | [] => None
    | e :: s1 =>
        if (e =? ch "b")%N then Some (RAssert AWordB, s1, g)
        else if (e =? ch "B")%N then Some (RAssert ANotWordB, s1, g)
        else
          match classEscape e with
          | None => None
          | Some it =>
              match withQuantifier (RSet false [it]) s1 with
              | Some (t, s'') => Some (t, s'', g)
              | None => None
              end
          end
    end
  else if (c =? ch "[")%N then
    let '(neg, s1) :=
      match s' with
      | d :: s1 => if (d =? ch "^")%N then (true, s1) else (false, s')
      | [] => (false, s')
      end in
    match parseClassItems (S (length s1)) s1 [] with
    | None => None
    | Some (items, s2) =>
        match withQuantifier (RSet neg items) s2 with
        | Some (t, s'') => Some (t, s'', g)
        | None => None
        end
    end
  else if (c =? ch "(")%N then
    let '(n, s1, g1) :=
      match s' with
      | q :: (d :: s1) =>
          if (q =? ch "?")%N && (d =? ch ":")%N then (None, Some s1, g)
          else if (q =? ch "?")%N then (None, None, g)
          else (Some (S g), Some s', S g)
      | _ => (Some (S g), Some s', S g)
      end in
    match s1 with
    | None => None
    | Some body =>
        match sub body g1 with
        | Some (r, d :: s2, g2) =>
            if (d =? ch ")")%N then
              match withQuantifier (RGroup n r) s2 with
              | Some (t, s'') => Some (t, s'', g2)
              | None => None
              end
            else None
        | _ => None
        end
    end
  else
    match withQuantifier (RSet false [CChar c]) s' with
    | Some (t, s'') => Some (t, s'', g)
    | None => None
    end.

(** A disjunction, up to the end of the input or an unmatched [)]. *)
Fixpoint parseDisj (fuel : nat) (s : jsstring) (g : nat) (alts : option re)
    (cur : re) {struct fuel} : option (re * jsstring * nat) :=
  match fuel with
  | 0 => None
  | S f =>
      match s with
      | [] => Some (finishAlt alts cur, [], g)
      | c :: s' =>
          if (c =? ch ")")%N then Some (finishAlt alts cur, s, g)
          else if (c =? ch "|")%N
          then parseDisj f s' g (Some (finishAlt alts cur)) REmpty
          else
            match parseTerm (fun b g' => parseDisj f b g' None REmpty) c s' g
            with
            | Some (t, s'', g') => parseDisj f s'' g' alts (RSeq cur t)
            | None => None
            end
      end
  end.

Definition parse (p : jsstring) : option re :=
  match parseDisj (S (length p)) p 0 None REmpty with
  | Some (r, [], _) => Some r
  | _ => None
  end.

(** Compiled patterns: the syntax tree and the [i] flag. *)
Definition compile (p : jsstring) (i : bool) : option (re * bool) :=
  match parse p with
  | Some r => Some (r, i)
  | None => None
  end.

Definition execCompiled (r : re * bool) (s : jsstring) (from : nat)
  : option (nat * nat) :=
  exec {| ignoreCase := snd r; dotAll := false |} (fst r) s from.

(** *** Measures on patterns and positions, for the results on the matcher *)

Definition repBound (mn : nat) (mx : option nat) : nat :=
  match mx with
  | Some m => Nat.min mn m
  | None => mn
  end.

Fixpoint minLen (r : re) : nat :=
  match r with
  | REmpty | RAssert _ => 0
  | RSet _ _ | RAny => 1
  | RSeq r1 r2 => minLen r1 + minLen r2
  | RAlt r1 r2 => Nat.min (minLen r1) (minLen r2)
  | RRep r1 mn mx _ => repBound mn mx * minLen r1
  | RGroup _ r1 => minLen r1
  end.

(** [y] is a position of the same input at or after [x]. *)
Definition reach (x y : MState) : Prop :=
  pos x <= pos y /\ pos y + length (rest y) = pos x + length (rest x).

(** A matcher that looks at its continuation only on positions reached
    from where it starts. *)
Definition local (m : MState -> (MState -> option MState) -> option MState)
  : Prop :=
  forall x k k', (forall y, reach x y -> k y = k' y) -> m x k = m x k'.

End JsRegExp.

(** ** EntryParser *)

Definition dquote : N := 34.

(** A parsed entry is the object
    [{ entry_type, citekey, ...fields, __raw }]. *)
Abbreviation Entry := (gmap jsstring jsstring).

(** [/^@(\w+)\s*\{\s*/] *)
Definition headerRe : JsRegExp.re :=
  Eval vm_compute in
    default JsRegExp.REmpty (JsRegExp.parse (js "^@(\w+)\s*\{\s*")).

(** [/(\w+)\s*=\s*(Q(?:\\.|[^Q\\])*Q|\{(?:\\.|[^{}]|\{[^{}]*\})*\})\s*,?/gis],
    where Q stands for the double quote. *)
Definition fieldReSource : jsstring :=
  js "(\w+)\s*=\s*(" ++ [dquote] ++ js "(?:\\.|[^" ++ [dquote] ++ js "\\])*"
  ++ [dquote] ++ js "|\{(?:\\.|[^{}]|\{[^{}]*\})*\})\s*,?".

Definition fieldRe : JsRegExp.re :=
  Eval vm_compute in default JsRegExp.REmpty (JsRegExp.parse fieldReSource).

(** [/^@\w+\s*\{\s*([^,]+)\s*,/s] *)
Definition citeKeyRe : JsRegExp.re :=
  Eval vm_compute in
    default JsRegExp.REmpty (JsRegExp.parse (js "^@\w+\s*\{\s*([^,]+)\s*,")).

Definition noFlags : JsRegExp.Flags :=
  {| JsRegExp.ignoreCase := false; JsRegExp.dotAll := false |}.
Definition flags_s : JsRegExp.Flags :=
  {| JsRegExp.ignoreCase := false; JsRegExp.dotAll := true |}.
Definition flags_gis : JsRegExp.Flags :=
  {| JsRegExp.ignoreCase := true; JsRegExp.dotAll := true |}.

(** [src.indexOf(c, i)] *)
Fixpoint indexOfFrom (c : N) (s : jsstring) (p i : nat) : option nat :=
  match s with
  | [] => None
  | d :: s' =>
      if (i <=? p) && (d =? c)%N then Some p else indexOfFrom c s' (S p) i
  end.

Definition toLowerCase (s : jsstring) : jsstring :=
  map (fun c => if JsRegExp.inRange 65 90 c then (c + 32)%N else c) s.

Definition startsWith (c : N) (s : jsstring) : bool :=
  match s with
  | d :: _ => (d =? c)%N
  | [] => false
  end.

(** The inner [while (j < n)] of the parser: [todo] holds the code units
    from [j] on and [prv] is [src[j - 1]]; the result is the final [j]. *)
Fixpoint scanChunk (todo : jsstring) (prv : option N) (j depth : nat)
    (inQuote : bool) : nat :=
  match todo with
  | [] => j
  | c :: todo' =>
      if (c =? dquote)%N && negb (bool_decide (prv = Some (ch "\")))
         && (depth =? 1)
      then scanChunk todo' (Some c) (S j) depth (negb inQuote)
      else if negb inQuote then
        if (c =? ch "{")%N then scanChunk todo' (Some c) (S j) (S depth) inQuote
        else if (c =? ch "}")%N then
          if depth - 1 =? 0 then S j
          else scanChunk todo' (Some c) (S j) (depth - 1) inQuote
        else scanChunk todo' (Some c) (S j) depth inQuote
      else scanChunk todo' (Some c) (S j) depth inQuote
  end.

(** [while ((fm = fieldRe.exec(chunk)))], with the [lastIndex] of
    [fieldRe]; [None] when [fuel] turns did not reach the end. *)
Fixpoint fieldsLoop (fuel : nat) (chunk : jsstring) (lastIndex : nat)
    (fields : gmap jsstring jsstring) : option (gmap jsstring jsstring) :=
  match fuel with
  | 0 => None
  | S f =>
      if length chunk <? lastIndex then Some fields
      else
        match JsRegExp.search flags_gis fieldRe chunk lastIndex with
        | None => Some fields
        | Some (_, fm) =>
            let key := toLowerCase (default [] (JsRegExp.capture chunk fm 1)) in
            let valRaw := trim (default [] (JsRegExp.capture chunk fm 2)) in
            let val :=
              if (startsWith (ch "{") valRaw && endsWith (ch "}") valRaw)
                 || (startsWith dquote valRaw && endsWith dquote valRaw)
              then dropLast (drop 1 valRaw) else valRaw in
            fieldsLoop f chunk (JsRegExp.pos fm) (<[key := val]> fields)
        end
  end.

(** The outer [while (i < n)]; [None] when [fuel] turns did not reach the
    end. *)
Fixpoint parseLoop (fuel : nat) (src : jsstring) (i : nat)
    (entries : list Entry) : option (list Entry) :=
  match fuel with
  | 0 => None
  | S f =>
      if i <? length src then
        match indexOfFrom (ch "@") src 0 i with
        | None => Some entries
        | Some at_ =>
            let head := drop at_ src in
            match JsRegExp.search noFlags headerRe head 0 with
            | None => parseLoop f src (at_ + 1) entries
            | Some (mi, m) =>
                let type := default [] (JsRegExp.capture head m 1) in
                let j0 := at_ + (JsRegExp.pos m - mi) in
                let j := scanChunk (drop j0 src)
                                   (if j0 =? 0 then None else src !! (j0 - 1))
                                   j0 1 false in
                let chunk := trim (take (j - at_) (drop at_ src)) in
                match JsRegExp.search flags_s citeKeyRe chunk 0 with
                | None => parseLoop f src j entries
                | Some (_, citeKeyMatch) =>
                    let citekey :=
                      default [] (JsRegExp.capture chunk citeKeyMatch 1) in
                    match fieldsLoop (length chunk + 2) chunk 0 ∅ with
                    | None => None
                    | Some fields =>
                        let e : Entry :=
                          <[js "__raw" := chunk]>
                            (fields ∪ <[js "citekey" := citekey]>
                                        (<[js "entry_type" := type]> ∅)) in
                        parseLoop f src j (entries ++ [e])
                    end
                end
            end
        end
      else Some entries
  end.

Inductive ParseOutcome :=
| Returns (entries : list Entry)
| Throws              (* "No BibTeX entries found. ..." *)
| Diverges.           (* some loop of the model ran out of turns *)

Definition parseBibtexEntries (text : jsstring) : ParseOutcome :=
  let src := text in
  match parseLoop (S (length src)) src 0 [] with
  | None => Diverges
  | Some entries =>
      if (length entries =? 0) && (0 <? length (trim src)) then Throws
      else Returns entries
  end.

(** ** QueryStringParser *)

(** [s.replace(/\s+/g, " ")]: [inRun] tells whether the code unit in front
    is white space, already replaced. *)
Fixpoint collapseFrom (inRun : bool) (s : jsstring) : jsstring :=
  match s with
  | [] => []
  | c :: s' =>
      if isSpace c then
        if inRun then collapseFrom true s' else ch " " :: collapseFrom true s'
      else c :: collapseFrom false s'
  end.

Definition collapseSpaces (s : jsstring) : jsstring := collapseFrom false s.

(** [toUpperCase] on the letters a-z; the comparisons with ["AND"] and
    ["OR"] below depend on no other code unit. *)
Definition toUpperCase (s : jsstring) : jsstring := map JsRegExp.canon s.

Definition isQuote (c : N) : bool := ((c =? dquote) || (c =? ch "'"))%N.

(** The locals shared by the two splitting loops: the buffer ([buf] or
    [tb]), [depth], [inQuote], [quoteChar] and the pieces pushed so far
    ([groups] or [terms]). *)
Record SplitState := {
  buf : jsstring;
  depth : nat;
  inQuote : bool;
  quoteChar : option N;
  pieces : list jsstring
}.

(** [pushGroup] and [pushTerm] *)
Definition pushPiece (st : SplitState) : SplitState :=
  {| buf := [];
     depth := depth st; inQuote := inQuote st; quoteChar := quoteChar st;
     pieces := if 0 <? length (trim (buf st))
               then pieces st ++ [trim (buf st)] else pieces st |}.

Definition addChar (c : N) (st : SplitState) : SplitState :=
  {| buf := buf st ++ [c];
     depth := depth st; inQuote := inQuote st; quoteChar := quoteChar st;
     pieces := pieces st |}.

(** One turn of [for (let i = 0; i < s.length; i++)] at index [i], for the
    keyword [kw] (["AND"] in the first loop, ["OR"] in the second); the
    result is the state and the value of [i] at the end of the body. *)
Definition splitStep (kw s : jsstring) (i : nat) (c : N) (st : SplitState)
  : SplitState * nat :=
  if negb (inQuote st) && isQuote c then
    ({| buf := buf st ++ [c]; depth := depth st; inQuote := true;
        quoteChar := Some c; pieces := pieces st |}, i)
  else if inQuote st then
    (if bool_decide (quoteChar st = Some c)
     then {| buf := buf st ++ [c]; depth := depth st; inQuote := false;
             quoteChar := None; pieces := pieces st |}
     else addChar c st, i)
  else if (c =? ch "(")%N then
    ({| buf := buf st ++ [c]; depth := S (depth st); inQuote := inQuote st;
        quoteChar := quoteChar st; pieces := pieces st |}, i)
  else if (c =? ch ")")%N then
    ({| buf := buf st ++ [c]; depth := Nat.max 0 (depth st - 1);
        inQuote := inQuote st; quoteChar := quoteChar st;
        pieces := pieces st |}, i)
  else
    let k := length kw in
    if (depth st =? 0) && eqs (toUpperCase (take k (drop i s))) kw then
      let prev := if i =? 0 then None else s !! (i - 1) in
      let next := s !! (i + k) in
      if (bool_decide (prev = Some (ch " ")) || bool_decide (prev = Some (ch ")")))
         && (bool_decide (next = Some (ch " ")) || bool_decide (next = Some (ch "("))
             || bool_decide (next = None))
      then (pushPiece st, i + (k - 1))
      else (addChar c st, i)
    else (addChar c st, i).

Fixpoint splitLoop (kw s : jsstring) (fuel i : nat) (st : SplitState)
  : SplitState :=
  match fuel with
  | 0 => st
  | S f =>
      match s !! i with
      | None => st
      | Some c =>
          let '(st', i') := splitStep kw s i c st in
          splitLoop kw s f (S i') st'
      end
  end.

(** A whole splitting loop followed by the final push. *)
Definition splitOn (kw s : jsstring) : list jsstring :=
  pieces (pushPiece (splitLoop kw s (length s) 0
    {| buf := []; depth := 0; inQuote := false; quoteChar := None;
       pieces := [] |})).

(** [/^NOT\s+/i]: the length of the match, if any. *)
Definition matchNot (g : jsstring) : option nat :=
  if eqs (toUpperCase (take 3 g)) (js "NOT") then
    let after := drop 3 g in
    let rest := trimStart after in
    if length rest <? length after then Some (length g - length rest)
    else None
  else None.

(** The replacement of [/^[Q']|[Q']$/g] by the empty string, where Q
    stands for the double quote: one leading and one trailing quote go. *)
Definition stripQuotes (t : jsstring) : jsstring :=
  let t1 := match t with
            | c :: t' => if isQuote c then t' else t
            | [] => []
            end in
  match rev t1 with
  | c :: _ => if isQuote c then dropLast t1 else t1
  | [] => t1
  end.

Record ParsedQuery := {
  pq_blocks : list Block;
  pq_operators : list Operator
}.

Section QueryStringParser.

(** [uid()] draws a random token; [uid gi] is the one drawn for group
    [gi]. *)
Variable uid : nat -> jsstring.

Definition parseGroup (ngroups gi : nat) (group : jsstring)
  : Block * list Operator :=
  let g := trim group in
  let '(exclude, g) :=
    match matchNot g with
    | Some k => (true, trim (drop k g))
    | None => (false, g)
    end in
  let g := if startsWith (ch "(") g && endsWith (ch ")") g
           then trim (dropLast (drop 1 g)) else g in
  let terms := splitOn (js "OR") g in
  let cleanTerms :=
    List.filter (fun t => 0 <? length t)
                (map (fun t => trim (stripQuotes t)) terms) in
  ({| id := uid gi;
      name := js "Group " ++ showNat (gi + 1);
      terms := cleanTerms;
      isRegex := false;
      exclude := exclude |},
   if gi <? ngroups - 1 then [AND] else []).

Definition parseBooleanQuery (input : jsstring) : option ParsedQuery :=
  match input with
  | [] => None
  | _ =>
      let s := trim (collapseSpaces input) in
      let groups := splitOn (js "AND") s in
      let parsed := imap (parseGroup (length groups)) groups in
      Some {| pq_blocks := map fst parsed;
              pq_operators := concat (map snd parsed) |}
  end.

(** [applyPastedQuery]: the configuration after the paste. *)
Definition applyPastedQuery (cfg : QueryConfig) (queryString : jsstring)
  : QueryConfig :=
  match parseBooleanQuery queryString with
  | Some parsed =>
      {| blocks := pq_blocks parsed;
         operators := pq_operators parsed;
         caseInsensitive := caseInsensitive cfg;
         searchFields := searchFields cfg |}
  | None => cfg
  end.

End QueryStringParser.

(** ** Code that runs on the engine of the runtime *)

Section Engine.
Context `{RegExpEngine}.

(** [re.test(t)] on a pattern without the global flag. *)
Definition regexp_test (r : regexp) (t : jsstring) : bool :=
  bool_decide (is_Some (regexp_exec r t 0)).

Definition safeRegExp (pattern : jsstring) (i : bool) : regexp :=
  match regexp_new pattern i with
  | Some r => r
  | None => is_Some_proj (regexp_new_escaped pattern i)
  end.

(** ** Evaluator *)

(** A compiled block is a [CompiledOf] the patterns of the engine. *)
Definition Compiled : Type := CompiledOf regexp.

Definition blockName (b : Block) (idx : nat) : jsstring :=
  match name b with
  | [] => js "Block " ++ showNat (idx + 1)
  | n => n
  end.

Definition compileBlock (flags : bool) (idx : nat) (b : Block)
  : option Compiled :=
  let ts := List.filter (fun t => 0 <? length (trim t)) (terms b) in
  if length ts =? 0 then None
  else
    Some {| index := idx;
            cname := blockName b idx;
            block := b;
            cterms := ts;
            regexes :=
              map (fun t => safeRegExp (toSmartWordPattern t (isRegex b)) flags)
                  ts |}.

Definition compileBlocks (cfg : QueryConfig) : list Compiled :=
  omap (fun x => x) (imap (compileBlock (caseInsensitive cfg)) (blocks cfg)).

Record Fields := {
  f_title : jsstring;
  f_abstract : jsstring;
  f_keywords : jsstring
}.

Definition selectedTexts (fields : Fields) (selected : SearchFields)
  : list (FieldName * jsstring) :=
  [ (Title, if sf_title selected then f_title fields else []);
    (Abstract, if sf_abstract selected then f_abstract fields else []);
    (Keywords, if sf_keywords selected then f_keywords fields else []) ].

(** The terms of [c] whose pattern hits [t], in term order. *)
Definition termHits (c : Compiled) (t : jsstring) : list jsstring :=
  map snd (List.filter (fun rt => regexp_test (fst rt) t)
                       (combine (regexes c) (cterms c))).

(** The [forEach] over the three texts inside [blockHitAtLeastOne]. *)
Fixpoint fieldLoop (c : Compiled) (texts : list (FieldName * jsstring))
    (any : bool) (perFieldHits : FieldHits) : bool * FieldHits :=
  match texts with
  | [] => (any, perFieldHits)
  | (field, t) :: rest =>
      match t with
      | [] => fieldLoop c rest any perFieldHits
      | _ =>
          let hits := termHits c t in
          if 0 <? length hits
          then fieldLoop c rest true (setFieldHits field hits perFieldHits)
          else fieldLoop c rest any perFieldHits
      end
  end.

(** The mutable locals of [matchesByFields]. *)
Record EvalState := {
  val : bool;
  matchedBlocks : list jsstring;
  detailed : gmap jsstring FieldHits
}.

Definition blockHitAtLeastOne (texts : list (FieldName * jsstring))
    (c : Compiled) (d : gmap jsstring FieldHits)
  : bool * gmap jsstring FieldHits :=
  let '(any, perFieldHits) := fieldLoop c texts false noFieldHits in
  (any, if any && negb (exclude (block c))
        then <[cname c := perFieldHits]> d else d).

Definition applyOp (op : Operator) (v rhs : bool) : bool :=
  match op with
  | AND => v && rhs
  | OR => v || rhs
  end.

(** One turn of the [for] loop. *)
Definition evalStep (texts : list (FieldName * jsstring)) (op : Operator)
    (c : Compiled) (st : EvalState) : EvalState :=
  let '(hit, d) := blockHitAtLeastOne texts c (detailed st) in
  let rhs := if exclude (block c) then negb hit else hit in
  {| val := applyOp op (val st) rhs;
     matchedBlocks :=
       if negb (exclude (block c)) && hit
       then matchedBlocks st ++ [cname c] else matchedBlocks st;
     detailed := d |}.

(** [for (i = 0; i < ops.length && i + 1 < compiled.length; i++)]; [n]
    bounds the number of turns left. *)
Fixpoint evalLoop (texts : list (FieldName * jsstring)) (ops : list Operator)
    (compiled : list Compiled) (n i : nat) (st : EvalState) : EvalState :=
  match n with
  | 0 => st
  | S n' =>
      match ops !! i, compiled !! (i + 1) with
      | Some op, Some c =>
          evalLoop texts ops compiled n' (S i) (evalStep texts op c st)
      | _, _ => st
      end
  end.

Definition matchesByFields (cfg : QueryConfig) (compiled : list Compiled)
    (fields : Fields) (selected : SearchFields) : EvalState :=
  let texts := selectedTexts fields selected in
  match compiled with
  | [] => {| val := true; matchedBlocks := []; detailed := ∅ |}
  | c0 :: _ =>
      let '(firstHit, d) := blockHitAtLeastOne texts c0 ∅ in
      let st0 :=
        {| val := if exclude (block c0) then negb firstHit else firstHit;
           matchedBlocks :=
             if negb (exclude (block c0)) && firstHit then [cname c0] else [];
           detailed := d |} in
      evalLoop texts (operators cfg) compiled (length (operators cfg)) 0 st0
  end.

Definition evaluateQueryOnText (cfg : QueryConfig)
  : Fields -> SearchFields -> EvalState :=
  matchesByFields cfg (compileBlocks cfg).

(** ** SpanHighlighter: [collectSpans] *)

Record Span := {
  start : Z;
  end_ : Z;
  sblock : jsstring;
  text : jsstring
}.

(** [while ((m = rx.exec(text)))] on the global copy [rx], whose
    [lastIndex] is [lastIndex]; [exec] answers [null] at once when
    [lastIndex] is past the end of the text. *)
Fixpoint execLoop (fuel : nat) (rx : regexp) (blk txt : jsstring)
    (lastIndex : nat) (spans : list Span) : option (list Span) :=
  match fuel with
  | 0 => None
  | S f =>
      if length txt <? lastIndex then Some spans
      else
        match regexp_exec rx txt lastIndex with
        | None => Some spans
        | Some (idx, len) =>
            let s := {| start := Z.of_nat idx;
                        end_ := Z.of_nat idx + Z.of_nat len;
                        sblock := blk;
                        text := take len (drop idx txt) |} in
            let lastIndex' := idx + len in
            execLoop f rx blk txt
                     (if len =? 0 then S lastIndex' else lastIndex')
                     (spans ++ [s])
        end
  end.

(** [for (const { block, re } of arr)] *)
Fixpoint gatherSpans (txt : jsstring) (arr : list (jsstring * regexp))
    (spans : list Span) : option (list Span) :=
  match arr with
  | [] => Some spans
  | (blk, re) :: arr' =>
      match execLoop (length txt + 2) re blk txt 0 spans with
      | Some spans' => gatherSpans txt arr' spans'
      | None => None
      end
  end.

(** The comparator [a.start - b.start || b.end - b.start - (a.end - a.start)] *)
Definition compareSpans (a b : Span) : Z :=
  let d := (start a - start b)%Z in
  if (d =? 0)%Z then (end_ b - start b - (end_ a - start a))%Z else d.

(** [Array.prototype.sort] is a stable sort. *)
Fixpoint insertSpan (s : Span) (l : list Span) : list Span :=
  match l with
  | [] => [s]
  | t :: l' =>
      if (compareSpans s t <=? 0)%Z then s :: l else t :: insertSpan s l'
  end.

Fixpoint sortSpans (l : list Span) : list Span :=
  match l with
  | [] => []
  | s :: l' => insertSpan s (sortSpans l')
  end.

(** [for (const s of spans) if (s.start >= lastEnd) ...] *)
Fixpoint pickSpans (spans : list Span) (lastEnd : Z) (picked : list Span)
  : list Span :=
  match spans with
  | [] => picked
  | s :: spans' =>
      if (lastEnd <=? start s)%Z
      then pickSpans spans' (end_ s) (picked ++ [s])
      else pickSpans spans' lastEnd picked
  end.

(** [None] when a scanning loop of the model ran out of turns. *)
Definition collectSpans (txt : jsstring) (arr : list (jsstring * regexp))
  : option (list Span) :=
  match gatherSpans txt arr [] with
  | Some spans => Some (pickSpans (sortSpans spans) (-1) [])
  | None => None
  end.

(** ** TermStatsAggregator *)

(** A row of the result lists; the display columns (cleaned title,
    authors, year, venue, URL, detail strings) are left out. *)
Record Row := {
  CiteKey : jsstring;
  TitleRaw : jsstring;
  AbstractRaw : jsstring;
  KeywordsRaw : jsstring;
  MatchedBlocks : jsstring;
  MatchedTermsMap : gmap jsstring FieldHits
}.

Record FieldCounts := {
  n_title : nat;
  n_abstract : nat;
  n_keywords : nat
}.

Record TermStat := {
  docCount : nat;
  fields : FieldCounts
}.

Definition zeroStat : TermStat :=
  {| docCount := 0;
     fields := {| n_title := 0; n_abstract := 0; n_keywords := 0 |} |}.

Definition bumpField (f : FieldName) (c : FieldCounts) : FieldCounts :=
  match f with
  | Title => {| n_title := S (n_title c); n_abstract := n_abstract c;
                n_keywords := n_keywords c |}
  | Abstract => {| n_title := n_title c; n_abstract := S (n_abstract c);
                   n_keywords := n_keywords c |}
  | Keywords => {| n_title := n_title c; n_abstract := n_abstract c;
                   n_keywords := S (n_keywords c) |}
  end.

Record FieldMaps := {
  m_title : gmap jsstring nat;
  m_abstract : gmap jsstring nat;
  m_keywords : gmap jsstring nat
}.

Definition bumpFieldMap (f : FieldName) (term : jsstring) (m : FieldMaps)
  : FieldMaps :=
  let bump (c : gmap jsstring nat) := <[term := default 0 (c !! term) + 1]> c in
  match f with
  | Title => {| m_title := bump (m_title m); m_abstract := m_abstract m;
                m_keywords := m_keywords m |}
  | Abstract => {| m_title := m_title m; m_abstract := bump (m_abstract m);
                   m_keywords := m_keywords m |}
  | Keywords => {| m_title := m_title m; m_abstract := m_abstract m;
                   m_keywords := bump (m_keywords m) |}
  end.

(** The accumulators of [computeTermStats]; [seenOverall] and
    [seenInBlock] are renewed for every row. *)
Record StatsState := {
  overallDocCounts : gmap jsstring nat;
  overallFieldCounts : FieldMaps;
  perBlock : gmap jsstring (gmap jsstring TermStat);
  seenOverall : gset jsstring;
  seenInBlock : gmap jsstring (gset jsstring)
}.

(** The body of [for (const term of terms)]. *)
Definition statsTerm (blockName : jsstring) (f : FieldName) (st : StatsState)
    (term : jsstring) : StatsState :=
  let terms := default ∅ (perBlock st !! blockName) in
  let blk := default zeroStat (terms !! term) in
  let blk := {| docCount := docCount blk; fields := bumpField f (fields blk) |} in
  let seenBlockSet := default ∅ (seenInBlock st !! blockName) in
  let fresh := negb (bool_decide (term ∈ seenBlockSet)) in
  let blk := if fresh
             then {| docCount := S (docCount blk); fields := fields blk |}
             else blk in
  let freshOverall := negb (bool_decide (term ∈ seenOverall st)) in
  {| overallDocCounts :=
       if freshOverall
       then <[term := default 0 (overallDocCounts st !! term) + 1]>
              (overallDocCounts st)
       else overallDocCounts st;
     overallFieldCounts := bumpFieldMap f term (overallFieldCounts st);
     perBlock := <[blockName := <[term := blk]> terms]> (perBlock st);
     seenOverall := if freshOverall then {[term]} ∪ seenOverall st
                    else seenOverall st;
     seenInBlock := if fresh
                    then <[blockName := {[term]} ∪ seenBlockSet]>
                           (seenInBlock st)
                    else seenInBlock st |}.

(** The body of [for (const [blockName, fields] of Object.entries(mtm))]. *)
Definition statsBlock (st : StatsState) (entry : jsstring * FieldHits)
  : StatsState :=
  let '(blockName, fh) := entry in
  let st :=
    {| overallDocCounts := overallDocCounts st;
       overallFieldCounts := overallFieldCounts st;
       perBlock := match perBlock st !! blockName with
                   | Some _ => perBlock st
                   | None => <[blockName := ∅]> (perBlock st)
                   end;
       seenOverall := seenOverall st;
       seenInBlock := match seenInBlock st !! blockName with
                      | Some _ => seenInBlock st
                      | None => <[blockName := ∅]> (seenInBlock st)
                      end |} in
  fold_left (fun st f => fold_left (statsTerm blockName f) (fieldHitsOf f fh) st)
            [Title; Abstract; Keywords] st.

(** The body of [for (const r of rows)]. *)
Definition statsRow (st : StatsState) (r : Row) : StatsState :=
  let st :=
    {| overallDocCounts := overallDocCounts st;
       overallFieldCounts := overallFieldCounts st;
       perBlock := perBlock st;
       seenOverall := ∅;
       seenInBlock := ∅ |} in
  fold_left statsBlock (map_to_list (MatchedTermsMap r)) st.

(** The body of the inner [forEach] of [cfg.blocks.forEach]. *)
Definition declareTerm (nm : jsstring)
    (pb : gmap jsstring (gmap jsstring TermStat)) (raw : jsstring)
  : gmap jsstring (gmap jsstring TermStat) :=
  let term := trim raw in
  match term with
  | [] => pb
  | _ =>
      let terms := default ∅ (pb !! nm) in
      match terms !! term with
      | Some _ => pb
      | None => <[nm := <[term := zeroStat]> terms]> pb
      end
  end.

Definition declareBlock (pb : gmap jsstring (gmap jsstring TermStat))
    (ib : nat * Block) : gmap jsstring (gmap jsstring TermStat) :=
  let '(idx, b) := ib in
  let nm := blockName b idx in
  let pb := match pb !! nm with
            | Some _ => pb
            | None => <[nm := ∅]> pb
            end in
  fold_left (declareTerm nm) (terms b) pb.

(** The result of [computeTermStats]; [overallTop] and [topByBlock] are
    the entries of [ts_overall] and of [ts_perBlock] sorted by count. *)
Record TermStats := {
  totalMatchedStudies : nat;
  ts_overall : gmap jsstring nat;
  ts_perBlock : gmap jsstring (gmap jsstring TermStat);
  ts_overallFieldCounts : FieldMaps
}.

Definition computeTermStats (cfg : QueryConfig) (rows : list Row) : TermStats :=
  let st0 :=
    {| overallDocCounts := ∅;
       overallFieldCounts :=
         {| m_title := ∅; m_abstract := ∅; m_keywords := ∅ |};
       perBlock := ∅; seenOverall := ∅; seenInBlock := ∅ |} in
  let st := fold_left statsRow rows st0 in
  {| totalMatchedStudies := length rows;
     ts_overall := overallDocCounts st;
     ts_perBlock := fold_left declareBlock (imap pair (blocks cfg)) (perBlock st);
     ts_overallFieldCounts := overallFieldCounts st |}.

(** ** The run *)

(** [a || b] on strings *)
Definition orElse (a b : jsstring) : jsstring :=
  match a with
  | [] => b
  | _ => a
  end.

Definition prop (e : Entry) (k : string) : jsstring := default [] (e !! js k).

Definition nonEmpty {A} (s : list A) : bool := 0 <? length s.

Record Report := {
  total : nat;
  eligible : nat;
  matched : nat;
  partial : nat;
  unmatched : nat
}.

(** The locals of [run] that the loop over the entries updates. *)
Record RunState := {
  rs_eligible : nat;
  matchedRows : list Row;
  partialRows : list Row;
  unmatchedRows : list Row
}.

Record RunOutput := {
  out_matched : list Row;
  out_partial : list Row;
  out_unmatched : list Row;
  report : Report;
  termStats : TermStats
}.

Definition entryFields (e : Entry) : Fields :=
  {| f_title := prop e "title";
     f_abstract :=
       orElse (prop e "abstract") (orElse (prop e "abs") (prop e "summary"));
     f_keywords := orElse (prop e "keywords") (prop e "keyword") |}.

Definition hasAny (sf : SearchFields) (fs : Fields) : bool :=
  (sf_title sf && nonEmpty (f_title fs))
  || (sf_abstract sf && nonEmpty (f_abstract fs))
  || (sf_keywords sf && nonEmpty (f_keywords fs)).

(** The body of [for (const e of entries)]. *)
Definition runStep (cfg : QueryConfig)
    (matcher : Fields -> SearchFields -> EvalState)
    (st : RunState) (e : Entry) : RunState :=
  let fs := entryFields e in
  let any := hasAny (searchFields cfg) fs in
  let eligible := if any then S (rs_eligible st) else rs_eligible st in
  let res := matcher fs (searchFields cfg) in
  let row :=
    {| CiteKey := prop e "citekey";
       TitleRaw := f_title fs;
       AbstractRaw := f_abstract fs;
       KeywordsRaw := f_keywords fs;
       MatchedBlocks := join (js "; ") (matchedBlocks res);
       MatchedTermsMap := detailed res |} in
  if val res && any then
    {| rs_eligible := eligible;
       matchedRows := matchedRows st ++ [row];
       partialRows := partialRows st;
       unmatchedRows := unmatchedRows st |}
  else if any && (0 <? size (detailed res)) then
    {| rs_eligible := eligible;
       matchedRows := matchedRows st;
       partialRows := partialRows st ++ [row];
       unmatchedRows := unmatchedRows st |}
  else if any then
    {| rs_eligible := eligible;
       matchedRows := matchedRows st;
       partialRows := partialRows st;
       unmatchedRows := unmatchedRows st ++ [row] |}
  else
    {| rs_eligible := eligible;
       matchedRows := matchedRows st;
       partialRows := partialRows st;
       unmatchedRows := unmatchedRows st |}.

Definition runEntries (cfg : QueryConfig) (entries : list Entry) : RunOutput :=
  let matcher := evaluateQueryOnText cfg in
  let st :=
    fold_left (runStep cfg matcher) entries
      {| rs_eligible := 0; matchedRows := []; partialRows := [];
         unmatchedRows := [] |} in
  {| out_matched := matchedRows st;
     out_partial := partialRows st;
     out_unmatched := unmatchedRows st;
     report := {| total := length entries;
                  eligible := rs_eligible st;
                  matched := length (matchedRows st);
                  partial := length (partialRows st);
                  unmatched := length (unmatchedRows st) |};
     termStats := computeTermStats cfg (matchedRows st) |}.

(** [run]: [None] when the parser throws and the run is given up. *)
Definition run (cfg : QueryConfig) (bib : jsstring) : option RunOutput :=
  match parseBibtexEntries bib with
  | Returns entries => Some (runEntries cfg entries)
  | Throws | Diverges => None
  end.

End Engine.

(** ** Display helpers: [escapeHTML], [colorForBlockName] *)

(** [s.replace(/[&<>Q']/g, ch => entity[ch])], where Q stands for the
    double quote. *)
Definition escapeChar (c : N) : jsstring :=
  if (c =? ch "&")%N then js "&amp;"
  else if (c =? ch "<")%N then js "&lt;"
  else if (c =? ch ">")%N then js "&gt;"
  else if (c =? dquote)%N then js "&quot;"
  else if (c =? ch "'")%N then js "&#39;"
  else [c].

Definition escapeHTML (s : jsstring) : jsstring := flat_map escapeChar s.

Record Color := { bg : jsstring; border : jsstring }.

Definition palette : list Color :=
  [ {| bg := js "#F1F5FF"; border := js "#3B82F6" |};
    {| bg := js "#FDF2F8"; border := js "#EC4899" |};
    {| bg := js "#ECFDF5"; border := js "#10B981" |};
    {| bg := js "#FEF3C7"; border := js "#F59E0B" |};
    {| bg := js "#FEE2E2"; border := js "#EF4444" |};
    {| bg := js "#EDE9FE"; border := js "#8B5CF6" |} ].

(** [blocks.findIndex((b, i) => p(b, i))], scanning from index [i]. *)
Fixpoint findIndexFrom (p : Block -> nat -> bool) (bs : list Block) (i : nat)
  : option nat :=
  match bs with
  | [] => None
  | b :: bs' => if p b i then Some i else findIndexFrom p bs' (S i)
  end.

Definition colorForBlockName (nm : jsstring) (cfg : QueryConfig) : Color :=
  let idx :=
    match findIndexFrom (fun b i => eqs (blockName b i) nm) (blocks cfg) 0 with
    | Some i => i      (* Math.max(0, i) *)
    | None => 0        (* Math.max(0, -1) *)
    end in
  default {| bg := []; border := [] |}
          (palette !! (idx mod length palette)).

(** ** Export helpers: [csvEscape], [toCSV] *)

(** [String(s).replace(/Q/g, QQ)], where Q stands for the double quote. *)
Definition doubleQuotes (s : jsstring) : jsstring :=
  flat_map (fun c => if (c =? dquote)%N then [dquote; dquote] else [c]) s.

(** [/[Q,\n]/.test(s)] *)
Definition needsQuoting (s : jsstring) : bool :=
  existsb (fun c => (c =? dquote) || (c =? ch ",") || (c =? 10))%N s.

(** [None] stands for [null] and [undefined]. *)
Definition csvEscape (s : option jsstring) : jsstring :=
  match s with
  | None => []
  | Some s =>
      let needs := needsQuoting s in
      let t := doubleQuotes s in
      if needs then [dquote] ++ t ++ [dquote] else t
  end.

(** The eight properties of a row that [toCSV] reads. *)
Record CsvRow := {
  csv_CiteKey : option jsstring;
  csv_Title : option jsstring;
  csv_Authors : option jsstring;
  csv_Year : option jsstring;
  csv_Venue : option jsstring;
  csv_URL : option jsstring;
  csv_MatchedBlocks : option jsstring;
  csv_MatchedTermsDetail : option jsstring
}.

Definition csvCells (r : CsvRow) : list (option jsstring) :=
  [csv_CiteKey r; csv_Title r; csv_Authors r; csv_Year r; csv_Venue r;
   csv_URL r; csv_MatchedBlocks r; csv_MatchedTermsDetail r].

Definition csvHeaders : list jsstring :=
  [js "CiteKey"; js "Title"; js "Authors"; js "Year"; js "Venue";
   js "URL/DOI"; js "Matched Blocks"; js "Matched Terms (by block & field)"].

Definition toCSV (rows : list CsvRow) : jsstring :=
  let body :=
    join [10%N]
         (map (fun r => join (js ",") (map csvEscape (csvCells r))) rows) in
  join (js ",") csvHeaders ++ [10%N] ++ body.

(** ** Editing the blocks: [addBlockAt], [removeBlock] *)

(** [addBlockAt(index)]; [newId] is the token that [uid()] draws. *)
Definition addBlockAt (newId : jsstring) (index : nat) (cfg : QueryConfig)
  : QueryConfig :=
  let nb := {| id := newId;
               name := js "Block " ++ showNat (length (blocks cfg) + 1);
               terms := [[]];
               isRegex := false;
               exclude := false |} in
  let blocks' := take index (blocks cfg) ++ [nb] ++ drop index (blocks cfg) in
  let operators' :=
    if index =? 0 then AND :: operators cfg                (* unshift *)
    else take index (operators cfg) ++ [AND]
         ++ drop index (operators cfg) in                   (* splice *)
  {| blocks := blocks'; operators := operators';
     caseInsensitive := caseInsensitive cfg;
     searchFields := searchFields cfg |}.

(** [removeBlock(id, idx)] *)
Definition removeBlock (i : jsstring) (idx : nat) (cfg : QueryConfig)
  : QueryConfig :=
  let blocks' := List.filter (fun b => negb (eqs (id b) i)) (blocks cfg) in
  let operators' :=
    if 0 <? length (operators cfg) then
      if idx =? 0 then drop 1 (operators cfg)               (* shift *)
      else delete (idx - 1) (operators cfg)                 (* splice *)
    else operators cfg in
  {| blocks := blocks'; operators := operators';
     caseInsensitive := caseInsensitive cfg;
     searchFields := searchFields cfg |}.

(** ** SpanHighlighter: [compileRegexForBlockField], [highlightByBlocks] *)

(** What a call that may throw comes to; [NoFuel] when a loop of the model
    ran out of turns. *)
Inductive Result (A : Type) :=
| Value (a : A)
| Exception
| NoFuel.

Arguments Value {A} _.
Arguments Exception {A}.
Arguments NoFuel {A}.

(** [[...hits].sort((a, b) => b.length - a.length)], a stable sort. *)
Fixpoint insertByLength (h : jsstring) (l : list jsstring) : list jsstring :=
  match l with
  | [] => [h]
  | t :: l' =>
      if (Z.of_nat (length t) - Z.of_nat (length h) <=? 0)%Z
      then h :: l else t :: insertByLength h l'
  end.

Fixpoint sortByLength (l : list jsstring) : list jsstring :=
  match l with
  | [] => []
  | h :: l' => insertByLength h (sortByLength l')
  end.

(** The [source] of [compileRegexForBlockField]. *)
Definition blockFieldSource (isRegex : bool) (hits : list jsstring)
  : jsstring :=
  js "(?:"
  ++ join (js "|")
          (map (fun h => toSmartWordPattern h isRegex) (sortByLength hits))
  ++ js ")".

(** The parts of the opening tag of a mark, around the block name and the
    two colours. *)
Definition markOpen (blk : jsstring) (c : Color) : jsstring :=
  js "<mark class=" ++ [dquote] ++ js "hl" ++ [dquote]
  ++ js " data-block=" ++ [dquote] ++ escapeHTML blk ++ [dquote]
  ++ js " style=" ++ [dquote] ++ js "background:" ++ bg c
  ++ js ";border:1px solid " ++ border c
  ++ js ";border-radius:0.25rem;padding:0 0.15em;" ++ [dquote] ++ js ">".

Definition markClose : jsstring := js "</mark>".

(** [text.slice(a, b)] for indices that are not negative. *)
Definition sliceZ (txt : jsstring) (a b : Z) : jsstring :=
  take (Z.to_nat b - Z.to_nat a) (drop (Z.to_nat a) txt).

Section Highlighter.
Context `{RegExpEngine}.

(** [None] in the result stands for [null]. *)
Definition compileRegexForBlockField (blockCfg : option Block)
    (hits : list jsstring) (caseInsensitive : bool) : Result (option regexp) :=
  match blockCfg, hits with
  | None, _ | _, [] => Value None
  | Some b, _ =>
      match regexp_new (blockFieldSource (isRegex b) hits) caseInsensitive with
      | Some re => Value (Some re)
      | None => Exception
      end
  end.

(** The loop over [Object.entries(matchedTermsMap)], given as the list
    [entries]. *)
Fixpoint perBlockLoop (cfg : QueryConfig) (field : FieldName)
    (entries : list (jsstring * FieldHits))
    (perBlock : list (jsstring * regexp)) : Result (list (jsstring * regexp)) :=
  match entries with
  | [] => Value perBlock
  | (blk, fh) :: entries' =>
      let blockCfg := List.find (fun b => eqs (name b) blk) (blocks cfg) in
      let hits := fieldHitsOf field fh in
      match compileRegexForBlockField blockCfg hits (caseInsensitive cfg) with
      | Value (Some re) =>
          perBlockLoop cfg field entries' (perBlock ++ [(blk, re)])
      | Value None => perBlockLoop cfg field entries' perBlock
      | Exception => Exception
      | NoFuel => NoFuel
      end
  end.

(** The loop that paints the spans; the result is [out] and [pos]. *)
Fixpoint paintLoop (cfg : QueryConfig) (txt : jsstring) (spans : list Span)
    (out : jsstring) (pos : Z) : jsstring * Z :=
  match spans with
  | [] => (out, pos)
  | s :: spans' =>
      let c := colorForBlockName (sblock s) cfg in
      let out := out ++ escapeHTML (sliceZ txt pos (start s)) in
      let out := out ++ markOpen (sblock s) c ++ escapeHTML (text s)
                     ++ markClose in
      paintLoop cfg txt spans' out (end_ s)
  end.

(** [highlightByBlocks(text, matchedTermsMap, cfg, field)]: [entries] is
    [Object.entries(matchedTermsMap)], in the order of the runtime. *)
Definition highlightByBlocks (txt : jsstring)
    (entries : list (jsstring * FieldHits)) (cfg : QueryConfig)
    (field : FieldName) : Result jsstring :=
  match txt with
  | [] => Value []
  | _ =>
      match perBlockLoop cfg field entries [] with
      | Exception => Exception
      | NoFuel => NoFuel
      | Value [] => Value (escapeHTML txt)
      | Value perBlock =>
          match collectSpans txt perBlock with
          | None => NoFuel
          | Some [] => Value (escapeHTML txt)
          | Some spans =>
              let '(out, pos) := paintLoop cfg txt spans [] 0 in
              Value (out ++ escapeHTML (drop (Z.to_nat pos) txt))
          end
      end
  end.

End Highlighter.

(** ** The blocks that a partial row misses

    [allPosBlocks] and [missingBlocks] in the branch of [run] that builds
    a partial row; [hitBlocks] is [Object.keys(detailed)]. *)
Definition allPosBlocks (cfg : QueryConfig) : list jsstring :=
  imap (fun j b => blockName b j)
       (List.filter (fun b => negb (exclude b)) (blocks cfg)).

Definition missingBlocks (cfg : QueryConfig)
    (detailed : gmap jsstring FieldHits) : list jsstring :=
  List.filter (fun n => negb (bool_decide (is_Some (detailed !! n))))
              (allPosBlocks cfg).

(** ** Sample configurations and records

    Small inputs on which the results below are run. *)

Definition mkBlock (n : string) (ts : list jsstring) (rx ex : bool) : Block :=
  {| id := []; name := js n; terms := ts; isRegex := rx; exclude := ex |}.

Definition allFields : SearchFields :=
  {| sf_title := true; sf_abstract := true; sf_keywords := true |}.

Definition mkConfig (bs : list Block) (ops : list Operator) : QueryConfig :=
  {| blocks := bs; operators := ops; caseInsensitive := true;
     searchFields := allFields |}.

Definition titled (t : string) : Fields :=
  {| f_title := js t; f_abstract := []; f_keywords := [] |}.

(** Three blocks joined by OR then AND. *)
Definition abcConfig : QueryConfig :=
  mkConfig [mkBlock "A" [js "alpha"] false false;
            mkBlock "B" [js "beta"] false false;
            mkBlock "C" [js "gamma"] false false]
           [OR; AND].

(** Blocks whose terms are all blank. *)
Definition blankConfig : QueryConfig :=
  mkConfig [mkBlock "A" [js " "; []] false false; mkBlock "B" [] true false]
           [AND].

(** A positive block and an excluded one. *)
Definition notConfig : QueryConfig :=
  mkConfig [mkBlock "VR" [js "virtual reality"; js "vr"] false false;
            mkBlock "Survey" [js "survey"; js "review*"] false true]
           [AND].

(** Four entries: one with VR only, one with VR and a survey, one
    without any searched field, one about something else. *)
Definition sampleBib : jsstring :=
  js "@article{k1, title={A VR study}} @article{k2, title={A survey of VR}} "
  ++ js "@misc{k3, note={nothing}} @book{k4, title={Cooking}}".

(** A matched row with the given hit map. *)
Definition rowWith (k : string) (d : list (jsstring * FieldHits)) : Row :=
  {| CiteKey := js k; TitleRaw := []; AbstractRaw := []; KeywordsRaw := [];
     MatchedBlocks := []; MatchedTermsMap := list_to_map d |}.

(** Two matched rows: in the first [vr] hit the title and the abstract. *)
Definition sampleRows : list Row :=
  [ rowWith "k1" [(js "VR", {| hits_title := Some [js "vr"];
                            hits_abstract := Some [js "vr"; js "virtual reality"];
                            hits_keywords := None |})];
    rowWith "k2" [(js "VR", {| hits_title := Some [js "vr"];
                            hits_abstract := None;
                            hits_keywords := None |})] ].

(** Three blocks with their ids, joined by OR then AND. *)
Definition editConfig : QueryConfig :=
  mkConfig [ {| id := js "b1"; name := js "A"; terms := [js "alpha"];
                isRegex := false; exclude := false |};
             {| id := js "b2"; name := js "B"; terms := [js "beta"];
                isRegex := false; exclude := false |};
             {| id := js "b3"; name := js "C"; terms := [js "gamma"];
                isRegex := false; exclude := false |} ]
           [OR; AND].

(** The sample query with no field selected. *)
Definition noFieldConfig : QueryConfig :=
  {| blocks := blocks notConfig; operators := operators notConfig;
     caseInsensitive := true;
     searchFields := {| sf_title := false; sf_abstract := false;
                        sf_keywords := false |} |}.

(** A block without a name, listed in the hit map as [Block 1]. *)
Definition unnamedConfig : QueryConfig :=
  mkConfig [mkBlock "" [js "vr"] false false] [].

(** A row of the export whose title holds a comma and a quoted word. *)
Definition sampleCsvRow : CsvRow :=
  {| csv_CiteKey := Some (js "k1");
     csv_Title := Some (js "VR, a " ++ [dquote] ++ js "new" ++ [dquote]
                        ++ js " medium");
     csv_Authors := Some (js "Doe, J.");
     csv_Year := Some (js "2020");
     csv_Venue := Some [];
     csv_URL := None;
     csv_MatchedBlocks := Some (js "VR");
     csv_MatchedTermsDetail := Some (js "VR [Title: vr]") |}.

(** A regex-flagged term that is no valid pattern. *)
Definition brokenRegexConfig : QueryConfig :=
  mkConfig [mkBlock "R" [js "a("] true false] [].

(** ** Notions in which the properties are stated *)

Inductive Outcome := Matched | Partial | Unmatched.

#[export] Instance Outcome_eq_dec : EqDecision Outcome.
Proof. solve_decision. Defined.

Section Notions.
Context `{RegExpEngine}.

(** A block fires on [texts] when one of its terms hits a text that is
    selected and not empty. *)
Definition blockFired (texts : list (FieldName * jsstring)) (c : Compiled)
  : bool :=
  existsb (fun ft => nonEmpty (snd ft) && nonEmpty (termHits c (snd ft))) texts.

(** The hit lists of a block: for every text that is not empty and has a
    hit, the terms that hit it. *)
Definition blockHits (texts : list (FieldName * jsstring)) (c : Compiled)
  : FieldHits :=
  fold_left (fun p ft =>
               if nonEmpty (snd ft) && nonEmpty (termHits c (snd ft))
               then setFieldHits (fst ft) (termHits c (snd ft)) p else p)
            texts noFieldHits.

(** The truth value a block brings into the expression. *)
Definition contribution (texts : list (FieldName * jsstring)) (c : Compiled)
  : bool :=
  if exclude (block c) then negb (blockFired texts c) else blockFired texts c.

(** A block is recorded when it is not excluded and it fired. *)
Definition recorded (texts : list (FieldName * jsstring)) (c : Compiled)
  : bool :=
  negb (exclude (block c)) && blockFired texts c.

(** [v0 op1 v1 op2 v2 ...], bracketed from the left. *)
Definition foldLeftToRight (ops : list Operator) (v0 : bool) (vs : list bool)
  : bool :=
  fold_left (fun v ov => applyOp (fst ov) v (snd ov)) (combine ops vs) v0.

(** The blocks the loop reaches: the first one, and one more for every
    operator. *)
Definition visited (ops : list Operator) (cs : list Compiled) : list Compiled :=
  take (S (length ops)) cs.

(** What one visit does to [matchedBlocks] and [detailed]. *)
Definition recordBlock (texts : list (FieldName * jsstring))
    (acc : list jsstring * gmap jsstring FieldHits) (c : Compiled)
  : list jsstring * gmap jsstring FieldHits :=
  if recorded texts c
  then (fst acc ++ [cname c], <[cname c := blockHits texts c]> (snd acc))
  else acc.

(** The bucket of a record: none when no selected field of the record is
    non-empty; otherwise Matched when the boolean fold is true, else
    Partial when the hit map is not empty, else Unmatched. *)
Definition classify (cfg : QueryConfig) (e : Entry) : option Outcome :=
  let fs := entryFields e in
  let res := evaluateQueryOnText cfg fs (searchFields cfg) in
  if hasAny (searchFields cfg) fs then
    Some (if val res then Matched
          else if bool_decide (detailed res <> ∅) then Partial
          else Unmatched)
  else None.

Definition inBucket (cfg : QueryConfig) (o : Outcome) (e : Entry) : bool :=
  bool_decide (classify cfg e = Some o).

(** The row that [run] builds for a record. *)
Definition rowOf (cfg : QueryConfig) (e : Entry) : Row :=
  let fs := entryFields e in
  let res := evaluateQueryOnText cfg fs (searchFields cfg) in
  {| CiteKey := prop e "citekey";
     TitleRaw := f_title fs;
     AbstractRaw := f_abstract fs;
     KeywordsRaw := f_keywords fs;
     MatchedBlocks := join (js "; ") (matchedBlocks res);
     MatchedTermsMap := detailed res |}.

End Notions.

(** The terms of one hit-map entry, field after field. *)
Definition entryTerms (fh : FieldHits) : list jsstring :=
  fieldHitsOf Title fh ++ fieldHitsOf Abstract fh ++ fieldHitsOf Keywords fh.

(** All the terms in the hit map of a row, with repetitions. *)
Definition rowTerms (r : Row) : list jsstring :=
  flat_map (fun e => entryTerms (snd e)) (map_to_list (MatchedTermsMap r)).

(** [term] hit under the block name [n] in row [r]. *)
Definition hitsUnder (n term : jsstring) (r : Row) : Prop :=
  exists fh f, MatchedTermsMap r !! n = Some fh /\ term ∈ fieldHitsOf f fh.

(** The breakdown of block [n] has the entry [st] for [term]. *)
Definition hasStat (pb : gmap jsstring (gmap jsstring TermStat))
    (n term : jsstring) (st : TermStat) : Prop :=
  exists m, pb !! n = Some m /\ m !! term = Some st.

(** What one term does to the overall counts and to [seenOverall]. *)
Definition overallStep (acc : gmap jsstring nat * gset jsstring)
    (term : jsstring) : gmap jsstring nat * gset jsstring :=
  if bool_decide (term ∈ snd acc) then acc
  else (<[term := default 0 (fst acc !! term) + 1]> (fst acc),
        {[term]} ∪ snd acc).

Definition overallOf (st : StatsState) : gmap jsstring nat * gset jsstring :=
  (overallDocCounts st, seenOverall st).

Definition present (pb : gmap jsstring (gmap jsstring TermStat))
    (n term : jsstring) : Prop :=
  exists st, hasStat pb n term st.

(** The order of the comparator: earlier start first and, for equal
    starts, the longer span first. *)
Definition spanLe (a b : Span) : Prop :=
  (start a < start b)%Z
  \/ (start a = start b /\ (end_ b - start b <= end_ a - start a)%Z).

(** Span [a] lies in front of span [b] and does not overlap it. *)
Definition spanBefore (a b : Span) : Prop :=
  (start a <= start b)%Z /\ (end_ a <= start b)%Z.

(** The syntax characters of a pattern that stand unescaped in [s]: a
    backslash escapes the code unit after it. *)
Fixpoint unescapedMeta (s : jsstring) : list N :=
  match s with
  | [] => []
  | c :: s' =>
      if (c =? ch "\")%N then
        match s' with
        | [] => [c]
        | _ :: s'' => unescapedMeta s''
        end
      else if escAllClass c then c :: unescapedMeta s'
      else unescapedMeta s'
  end.

(** What the parser extracts from a text: the entries it has pushed when
    its loop ends. *)
Definition extracted (text : jsstring) : list Entry :=
  default [] (parseLoop (S (length text)) text 0 []).

(** ** Notions for the further properties *)

Definition usableBlock (b : Block) : bool :=
  nonEmpty (List.filter (fun t => 0 <? length (trim t)) (terms b)).

Definition withBlocks (cfg : QueryConfig) (bs : list Block) : QueryConfig :=
  {| blocks := bs; operators := operators cfg;
     caseInsensitive := caseInsensitive cfg;
     searchFields := searchFields cfg |}.

Definition fieldText (f : FieldName) (fs : Fields) : jsstring :=
  match f with
  | Title => f_title fs
  | Abstract => f_abstract fs
  | Keywords => f_keywords fs
  end.

Definition fieldSelected (f : FieldName) (sel : SearchFields) : bool :=
  match f with
  | Title => sf_title sel
  | Abstract => sf_abstract sel
  | Keywords => sf_keywords sel
  end.

Definition fieldEntry (f : FieldName) (p : FieldHits)
  : option (list jsstring) :=
  match f with
  | Title => hits_title p
  | Abstract => hits_abstract p
  | Keywords => hits_keywords p
  end.

Section EvaluatorNotions.
Context `{RegExpEngine}.

(** Two compiled blocks that differ at most in their position and name. *)
Definition samePatterns (c c' : Compiled) : Prop :=
  block c = block c' /\ cterms c = cterms c' /\ regexes c = regexes c'.

End EvaluatorNotions.

(** The number that a decimal numeral stands for. *)
Definition readNat (s : jsstring) : nat :=
  fold_left (fun a c => 10 * a + N.to_nat (c - 48)) s 0.

(** What holds of every entry that the parser extracts from [src]. *)
Definition wellFormedEntry (src : jsstring) (e : Entry) : Prop :=
  (exists chunk pre post,
      e !! js "__raw" = Some chunk /\ head chunk = Some (ch "@")
      /\ trim chunk = chunk /\ src = pre ++ chunk ++ post)
  /\ is_Some (e !! js "entry_type") /\ is_Some (e !! js "citekey")
  /\ forall k, is_Some (e !! k) -> toLowerCase k = k.

Definition countAt (s : jsstring) : nat :=
  length (List.filter (N.eqb (ch "@")) s).

#[export] Instance FieldName_eq_dec : EqDecision FieldName.
Proof. solve_decision. Defined.

(** The hit lists of block [n] in row [r]; none when the block has no
    entry. *)
Definition blockEntry (n : jsstring) (r : Row) : FieldHits :=
  default noFieldHits (MatchedTermsMap r !! n).

(** How often [t] stands in the list [l]. *)
Definition countIn (t : jsstring) (l : list jsstring) : nat :=
  length (List.filter (eqs t) l).

(** The entry of [t] in the breakdown of block [n]; the all-zero entry
    when there is none. *)
Definition statOf (pb : gmap jsstring (gmap jsstring TermStat))
    (n t : jsstring) : TermStat :=
  default zeroStat (pb !! n ≫= (.!! t)).

Definition fieldCount (f : FieldName) (c : FieldCounts) : nat :=
  match f with
  | Title => n_title c
  | Abstract => n_abstract c
  | Keywords => n_keywords c
  end.

Definition fieldMap (f : FieldName) (m : FieldMaps) : gmap jsstring nat :=
  match f with
  | Title => m_title m
  | Abstract => m_abstract m
  | Keywords => m_keywords m
  end.

(** The entry of [t] under block [n] in the running breakdown, and whether
    [t] was seen under [n] in the current row. *)
Definition statIn (n t : jsstring) (st : StatsState) : TermStat :=
  statOf (perBlock st) n t.

Definition seenIn (n t : jsstring) (st : StatsState) : bool :=
  bool_decide (t ∈ default ∅ (seenInBlock st !! n)).

(** The hit-map entry [e] is the one of block [n] and lists [t]; how often
    it lists [t] in field [g]. *)
Definition hitsEntry (n t : jsstring) (e : jsstring * FieldHits) : bool :=
  bool_decide (fst e = n /\ t ∈ entryTerms (snd e)).

Definition countInEntry (n t : jsstring) (g : FieldName)
    (e : jsstring * FieldHits) : nat :=
  if decide (fst e = n) then countIn t (fieldHitsOf g (snd e)) else 0.

(** The running count of [t] in field [g] over all blocks. *)
Definition occurrences (t : jsstring) (g : FieldName) (st : StatsState)
  : nat :=
  default 0 (fieldMap g (overallFieldCounts st) !! t).

(** The five characters that [escapeHTML] replaces. *)
Definition htmlSpecial (c : N) : bool :=
  ((c =? ch "&") || (c =? ch "<") || (c =? ch ">") || (c =? dquote)
   || (c =? ch "'"))%N.

(** Reading the five entities back. *)
Fixpoint unescapeHTML (s : jsstring) : jsstring :=
  match s with
  | [] => []
  | c :: s1 =>
      if (c =? ch "&")%N then
        match s1 with
        | x1 :: x2 :: x3 :: s4 =>
            if ((x1 =? ch "l") && (x2 =? ch "t") && (x3 =? ch ";"))%N
            then ch "<" :: unescapeHTML s4
            else if ((x1 =? ch "g") && (x2 =? ch "t") && (x3 =? ch ";"))%N
            then ch ">" :: unescapeHTML s4
            else
              match s4 with
              | x4 :: s5 =>
                  if ((x1 =? ch "a") && (x2 =? ch "m") && (x3 =? ch "p")
                      && (x4 =? ch ";"))%N
                  then ch "&" :: unescapeHTML s5
                  else if ((x1 =? ch "#") && (x2 =? ch "3") && (x3 =? ch "9")
                           && (x4 =? ch ";"))%N
                  then ch "'" :: unescapeHTML s5
                  else
                    match s5 with
                    | x5 :: s6 =>
                        if ((x1 =? ch "q") && (x2 =? ch "u") && (x3 =? ch "o")
                            && (x4 =? ch "t") && (x5 =? ch ";"))%N
                        then dquote :: unescapeHTML s6
                        else c :: unescapeHTML s1
                    | [] => c :: unescapeHTML s1
                    end
              | [] => c :: unescapeHTML s1
              end
        | _ => c :: unescapeHTML s1
        end
      else c :: unescapeHTML s1
  end.

(** A reader of comma-separated values: [cur] is the cell being read,
    [inQuotes] tells whether a quoted cell is open, [row] holds the cells
    of the line so far and [recs] the lines so far. *)
Fixpoint csvScan (s : jsstring) (cur : jsstring) (inQuotes : bool)
    (row : list jsstring) (recs : list (list jsstring))
  : list (list jsstring) :=
  match s with
  | [] => recs ++ [row ++ [cur]]
  | c :: s' =>
      if inQuotes then
        if (c =? dquote)%N then
          match s' with
          | d :: s'' =>
              if (d =? dquote)%N then csvScan s'' (cur ++ [dquote]) true row recs
              else csvScan s' cur false row recs
          | [] => csvScan s' cur false row recs
          end
        else csvScan s' (cur ++ [c]) true row recs
      else if (c =? dquote)%N then csvScan s' cur true row recs
      else if (c =? ch ",")%N then csvScan s' [] false (row ++ [cur]) recs
      else if (c =? 10)%N then csvScan s' [] false [] (recs ++ [row ++ [cur]])
      else csvScan s' (cur ++ [c]) false row recs
  end.

Definition readCSV (s : jsstring) : list (list jsstring) :=
  csvScan s [] false [] [].

(** The text of a piece of markup: what is left when the tags are taken
    out; [inTag] tells whether a tag is open. *)
Fixpoint stripTags (s : jsstring) (inTag : bool) : jsstring :=
  match s with
  | [] => []
  | c :: s' =>
      if inTag then stripTags s' (negb (c =? ch ">")%N)
      else if (c =? ch "<")%N then stripTags s' true
      else c :: stripTags s' false
  end.

Definition visibleText (s : jsstring) : jsstring := stripTags s false.

(** The markup [out] shows the text [v], whatever follows it. *)
Definition renders (out v : jsstring) : Prop :=
  forall r, stripTags (out ++ r) false = v ++ stripTags r false.

(** A span of [txt]: its bounds are in order and its text is the slice
    between them. *)
Definition wellSpan (txt : jsstring) (s : Span) : Prop :=
  (0 <= start s <= end_ s)%Z /\ text s = sliceZ txt (start s) (end_ s).

(** * Properties *)

(** ** Evaluator: what a block contributes and records *)

Section EvaluatorFacts.
Context `{RegExpEngine}.

Lemma nonEmpty_nil_iff {A} (s : list A) : nonEmpty s = false <-> s = [].
Proof.
  unfold nonEmpty. destruct s; simpl; split; intros; try done.
Qed.

Lemma fieldLoop_spec c texts any p :
  fieldLoop c texts any p
  = (any || blockFired texts c,
     fold_left (fun p ft =>
                  if nonEmpty (snd ft) && nonEmpty (termHits c (snd ft))
                  then setFieldHits (fst ft) (termHits c (snd ft)) p else p)
               texts p).
Proof.
  revert any p. induction texts as [|[f t] texts IH]; intros any p.
  - simpl. by rewrite orb_false_r.
  - unfold blockFired. cbn [fieldLoop existsb fold_left fst snd].
    fold (blockFired texts c).
    destruct t as [|a t].
    + rewrite IH. done.
    + change (0 <? length (termHits c (a :: t)))
        with (nonEmpty (termHits c (a :: t))).
      change (nonEmpty (a :: t)) with true. cbn [andb].
      destruct (nonEmpty (termHits c (a :: t))); rewrite IH; cbn [orb].
      * by rewrite orb_true_r.
      * done.
Qed.

Lemma blockHitAtLeastOne_spec texts c d :
  blockHitAtLeastOne texts c d
  = (blockFired texts c,
     if recorded texts c then <[cname c := blockHits texts c]> d else d).
Proof.
  unfold blockHitAtLeastOne, recorded, blockHits.
  rewrite fieldLoop_spec. simpl.
  destruct (blockFired texts c), (exclude (block c)); done.
Qed.

Lemma evalStep_spec texts op c st :
  evalStep texts op c st
  = {| val := applyOp op (val st) (contribution texts c);
       matchedBlocks := fst (recordBlock texts (matchedBlocks st, detailed st) c);
       detailed := snd (recordBlock texts (matchedBlocks st, detailed st) c) |}.
Proof.
  unfold evalStep. rewrite blockHitAtLeastOne_spec.
  unfold contribution, recordBlock, recorded.
  destruct (exclude (block c)), (blockFired texts c); done.
Qed.

Lemma evalLoop_fold texts ops cs n i st :
  evalLoop texts ops cs n i st
  = fold_left (fun st oc => evalStep texts (fst oc) (snd oc) st)
              (combine (take n (drop i ops)) (drop (i + 1) cs)) st.
Proof.
  revert i st. induction n as [|n IH]; intros i st; simpl.
  - done.
  - destruct (ops !! i) as [op|] eqn:Hop.
    + destruct (cs !! (i + 1)) as [c|] eqn:Hc.
      * rewrite (drop_S _ _ _ Hop), (drop_S _ _ _ Hc). simpl.
        rewrite IH. done.
      * apply lookup_ge_None in Hc. rewrite (drop_ge cs) by done.
        by destruct (take _ _).
    + apply lookup_ge_None in Hop. rewrite (drop_ge ops) by done.
      done.
Qed.

Lemma fold_evalStep_val texts l st :
  val (fold_left (fun st oc => evalStep texts (fst oc) (snd oc) st) l st)
  = fold_left (fun v ov => applyOp (fst ov) v (snd ov))
              (map (fun oc => (fst oc, contribution texts (snd oc))) l)
              (val st).
Proof.
  revert st. induction l as [|[op c] l IH]; intros st; simpl; [done|].
  rewrite IH, evalStep_spec. done.
Qed.

Lemma fold_evalStep_record texts l st :
  let st' := fold_left (fun st oc => evalStep texts (fst oc) (snd oc) st) l st in
  (matchedBlocks st', detailed st')
  = fold_left (recordBlock texts) (map snd l) (matchedBlocks st, detailed st).
Proof.
  revert st. induction l as [|[op c] l IH]; intros st; simpl; [done|].
  rewrite IH, evalStep_spec. simpl.
  by destruct (recordBlock texts (matchedBlocks st, detailed st) c).
Qed.

Lemma map_snd_combine_take {A B} (l1 : list A) (l2 : list B) :
  map snd (combine l1 l2) = take (length l1) l2.
Proof.
  revert l2. induction l1 as [|a l1 IH]; intros [|b l2]; simpl; try done.
  by rewrite IH.
Qed.

Lemma map_contribution_combine texts (ops : list Operator) (cs : list Compiled) :
  map (fun oc => (fst oc, contribution texts (snd oc))) (combine ops cs)
  = combine ops (map (contribution texts) cs).
Proof.
  revert cs. induction ops as [|o ops IH]; intros [|c cs]; simpl; try done.
  by rewrite IH.
Qed.

(** The result of the evaluator on a compiled list that is not empty. *)
Lemma matchesByFields_cons cfg c0 cs fs sel :
  let texts := selectedTexts fs sel in
  let res := matchesByFields cfg (c0 :: cs) fs sel in
  val res = foldLeftToRight (operators cfg) (contribution texts c0)
                            (map (contribution texts) cs)
  /\ (matchedBlocks res, detailed res)
     = fold_left (recordBlock texts) (visited (operators cfg) (c0 :: cs)) ([], ∅).
Proof.
  intros texts res. subst res. unfold matchesByFields. fold texts.
  clearbody texts.
  rewrite blockHitAtLeastOne_spec, evalLoop_fold.
  rewrite drop_0, firstn_all.
  change (drop (0 + 1) (c0 :: cs)) with cs. split.
  - rewrite fold_evalStep_val. cbn [val].
    unfold foldLeftToRight. rewrite map_contribution_combine.
    done.
  - rewrite fold_evalStep_record. cbn [matchedBlocks detailed].
    rewrite map_snd_combine_take.
    unfold visited. cbn [take fold_left].
    set (init := recordBlock texts ([], ∅) c0).
    unfold recordBlock, recorded in init. subst init.
    unfold recorded.
    destruct (exclude (block c0)), (blockFired texts c0); done.
Qed.

(** The names pushed are those of the recorded blocks, in order. *)
Lemma fold_recordBlock_fst texts l acc :
  fst (fold_left (recordBlock texts) l acc)
  = fst acc ++ map cname (List.filter (recorded texts) l).
Proof.
  revert acc. induction l as [|c l IH]; intros acc; simpl.
  - by rewrite app_nil_r.
  - rewrite IH. unfold recordBlock.
    destruct (recorded texts c); simpl; [|done].
    by rewrite <- app_assoc.
Qed.

(** An entry of the hit map comes from the start or from a recorded block. *)
Lemma fold_recordBlock_lookup texts l acc n h :
  snd (fold_left (recordBlock texts) l acc) !! n = Some h ->
  snd acc !! n = Some h
  \/ exists c, c ∈ l /\ cname c = n /\ recorded texts c = true
               /\ h = blockHits texts c.
Proof.
  revert acc. induction l as [|c l IH]; intros acc Hl; simpl in *.
  - by left.
  - apply IH in Hl as [Hl|(c' & Hin & Hn & Hr & Hh)].
    + unfold recordBlock in Hl. destruct (recorded texts c) eqn:Hr; simpl in Hl.
      * destruct (decide (cname c = n)) as [<-|Hne].
        -- rewrite lookup_insert_eq in Hl. right. exists c.
           split; [left|]. naive_solver.
        -- rewrite lookup_insert_ne in Hl by done. by left.
      * by left.
    + right. exists c'. split; [by right|done].
Qed.

(** Entries are overwritten, never removed. *)
Lemma fold_recordBlock_keeps texts l acc n :
  is_Some (snd acc !! n) ->
  is_Some (snd (fold_left (recordBlock texts) l acc) !! n).
Proof.
  revert acc. induction l as [|c l IH]; intros acc Hs; simpl; [done|].
  apply IH. unfold recordBlock. destruct (recorded texts c); simpl; [|done].
  destruct (decide (cname c = n)) as [->|Hne].
  - rewrite lookup_insert_eq. eauto.
  - by rewrite lookup_insert_ne.
Qed.

(** A recorded block leaves an entry under its name. *)
Lemma fold_recordBlock_is_Some texts l acc c :
  c ∈ l -> recorded texts c = true ->
  is_Some (snd (fold_left (recordBlock texts) l acc) !! cname c).
Proof.
  revert acc. induction l as [|c' l IH]; intros acc Hin Hr.
  - by apply elem_of_nil in Hin.
  - simpl. apply elem_of_cons in Hin as [->|Hin].
    + apply fold_recordBlock_keeps.
      unfold recordBlock. rewrite Hr. simpl. rewrite lookup_insert_eq. eauto.
    + by apply IH.
Qed.

End EvaluatorFacts.

(** ** The executable engine is an engine *)

Module JsRegExpFacts.
Import JsRegExp.

Lemma searchFrom_from fl r from prv s p i z :
  searchFrom fl r from prv s p = Some (i, z) -> from <= i.
Proof.
  revert prv p. induction s as [|c s IH]; intros prv p; simpl.
  - destruct (from <=? p) eqn:Hle; [|done].
    apply Nat.leb_le in Hle.
    destruct (rmatch _ _ _ _); [|done]. intros [= <- _]. done.
  - destruct (from <=? p) eqn:Hle.
    + apply Nat.leb_le in Hle.
      destruct (rmatch _ _ _ _); [intros [= <- _]; done|]. apply IH.
    + apply IH.
Qed.

Lemma exec_from fl r s from idx len :
  exec fl r s from = Some (idx, len) -> from <= idx.
Proof.
  unfold exec, search.
  destruct (searchFrom _ _ _ _ _ _) as [[i z]|] eqn:Hs; [|done].
  intros [= <- _]. eapply searchFrom_from, Hs.
Qed.

(** Decide a comparison of a code unit that is known to lie in or out of
    a class of characters. *)
Ltac split_eqb H :=
  repeat match goal with
         | |- context [(?c =? ?k)%N] =>
             destruct (N.eqb_spec c k) as [->|?];
             [ exfalso; vm_compute in H; discriminate | ]
         end.

Lemma escAllClass_cases c :
  escAllClass c = true -> In c (js ".*+?^${}()|[]\").
Proof.
  unfold escAllClass. intros Hc. apply existsb_exists in Hc as (x & Hin & Hx).
  apply N.eqb_eq in Hx. by subst.
Qed.

(** No quantifier stands at the head of an escaped text. *)
Lemma parseQuantPrefix_escaped p :
  parseQuantPrefix (escapeAll p) = (QNone, escapeAll p).
Proof.
  destruct p as [|c p]; [done|].
  unfold escapeAll, escapeWith. cbn [flat_map].
  destruct (escAllClass c) eqn:Hc; [done|].
  cbn [app]. unfold parseQuantPrefix.
  change (ch "*") with 42%N. change (ch "+") with 43%N.
  change (ch "?") with 63%N. change (ch "{") with 123%N.
  split_eqb Hc. done.
Qed.

Lemma withQuantifier_escaped a p :
  withQuantifier a (escapeAll p) = Some (a, escapeAll p).
Proof. unfold withQuantifier. by rewrite parseQuantPrefix_escaped. Qed.

Lemma parseTerm_escaped_special sub c p g :
  escAllClass c = true ->
  parseTerm sub (ch "\") (c :: escapeAll p) g
  = Some (RSet false [CChar c], escapeAll p, g).
Proof.
  intros Hc. apply escAllClass_cases in Hc. vm_compute in Hc.
  repeat (destruct Hc as [<-|Hc];
          [match goal with
           | |- parseTerm _ _ (?e :: _) _ = _ =>
               transitivity
                 (match withQuantifier (RSet false [CChar e]) (escapeAll p) with
                  | Some (t, s'') => Some (t, s'', g)
                  | None => None
                  end);
               [reflexivity | by rewrite withQuantifier_escaped]
           end|]).
  done.
Qed.

Lemma parseTerm_escaped_plain sub c p g :
  escAllClass c = false ->
  parseTerm sub c (escapeAll p) g = Some (RSet false [CChar c], escapeAll p, g).
Proof.
  intros Hc. unfold parseTerm.
  change (ch "^") with 94%N. change (ch "$") with 36%N.
  change (ch "*") with 42%N. change (ch "+") with 43%N.
  change (ch "?") with 63%N. change (ch "{") with 123%N.
  change (ch ".") with 46%N. change (ch "\") with 92%N.
  change (ch "[") with 91%N. change (ch "(") with 40%N.
  split_eqb Hc. cbn [orb].
  by rewrite withQuantifier_escaped.
Qed.

Lemma parseDisj_escaped p fuel g alts cur :
  length (escapeAll p) < fuel ->
  exists r, parseDisj fuel (escapeAll p) g alts cur = Some (r, [], g).
Proof.
  revert fuel cur. induction p as [|c p IH]; intros fuel cur Hf.
  - destruct fuel; [simpl in Hf; lia|]. simpl. eauto.
  - destruct fuel as [|f]; [simpl in Hf; lia|].
    change (escapeAll (c :: p))
      with ((if escAllClass c then [ch "\"; c] else [c]) ++ escapeAll p) in *.
    destruct (escAllClass c) eqn:Hc.
    + cbn [app] in *. cbn [parseDisj].
      change (ch "\" =? ch ")")%N with false.
      change (ch "\" =? ch "|")%N with false. cbn iota.
      rewrite parseTerm_escaped_special by done.
      cbn [length] in Hf. apply IH. lia.
    + cbn [app] in *. cbn [parseDisj].
      change (ch ")") with 41%N. change (ch "|") with 124%N.
      split_eqb Hc.
      rewrite parseTerm_escaped_plain by done.
      cbn [length] in Hf. apply IH. lia.
Qed.

Lemma compile_escaped p i : is_Some (compile (escapeAll p) i).
Proof.
  unfold compile, parse.
  destruct (parseDisj_escaped p (S (length (escapeAll p))) 0 None REmpty)
    as [r Hr]; [lia|].
  rewrite Hr. eauto.
Qed.

(** *** Every match consumes at least [minLen] code units *)

Lemma pos_setCap n span x : pos (setCap n span x) = pos x.
Proof. by destruct n. Qed.

Lemma repeatMatcher_progress m greedy k L :
  (forall x k' z, m x k' = Some z ->
                  exists y, k' y = Some z /\ pos x + L <= pos y) ->
  forall fuel mn mx x z,
    repeatMatcher m greedy k fuel mn mx x = Some z ->
    exists y, k y = Some z /\ pos x + repBound mn mx * L <= pos y.
Proof.
  intros Hm. induction fuel as [|fuel IH]; intros mn mx x z; [done|].
  cbn [repeatMatcher].
  assert (Hzero : mx = Some 0 -> k x = Some z ->
                  exists y, k y = Some z /\ pos x + repBound mn mx * L <= pos y).
  { intros -> Hk. exists x. split; [done|]. unfold repBound.
    rewrite Nat.min_0_r. lia. }
  assert (Hstep : mx <> Some 0 ->
            (forall y, (if (mn =? 0) && (pos y =? pos x) then None
                        else repeatMatcher m greedy k fuel (Nat.pred mn)
                                           (Nat.pred <$> mx) y) = Some z ->
                       pos x + L <= pos y ->
                       exists y', k y' = Some z
                                  /\ pos x + repBound mn mx * L <= pos y')).
  { intros Hmx y Hd Hy.
    destruct ((mn =? 0) && (pos y =? pos x)); [done|].
    apply IH in Hd as (y' & Hk & Hy'). exists y'. split; [done|].
    assert (repBound mn mx <= S (repBound (Nat.pred mn) (Nat.pred <$> mx))).
    { unfold repBound. destruct mx as [[|mx']|]; simpl; [done|lia|lia]. }
    nia. }
  assert (Hbody : mx <> Some 0 ->
            (if negb (mn =? 0)
             then m x (fun y =>
                    if (mn =? 0) && (pos y =? pos x) then None
                    else repeatMatcher m greedy k fuel (Nat.pred mn)
                                       (Nat.pred <$> mx) y)
             else if greedy
                  then match m x (fun y =>
                           if (mn =? 0) && (pos y =? pos x) then None
                           else repeatMatcher m greedy k fuel (Nat.pred mn)
                                              (Nat.pred <$> mx) y) with
                       | Some z => Some z
                       | None => k x
                       end
                  else match k x with
                       | Some z => Some z
                       | None =>
                           m x (fun y =>
                             if (mn =? 0) && (pos y =? pos x) then None
                             else repeatMatcher m greedy k fuel (Nat.pred mn)
                                                (Nat.pred <$> mx) y)
                       end) = Some z ->
            exists y, k y = Some z /\ pos x + repBound mn mx * L <= pos y).
  { intros Hmx Hb.
    assert (Hkx : mn = 0 -> k x = Some z ->
              exists y, k y = Some z /\ pos x + repBound mn mx * L <= pos y).
    { intros -> Hk. exists x. split; [done|]. unfold repBound.
      destruct mx; simpl; lia. }
    destruct (Nat.eqb_spec mn 0) as [Hmn|Hmn]; cbn [negb] in Hb.
    - destruct greedy.
      + destruct (m x _) as [z'|] eqn:Hmx'.
        * injection Hb as ->. apply Hm in Hmx' as (y & Hd & Hy).
          by apply (Hstep Hmx y).
        * by apply Hkx.
      + destruct (k x) as [z'|] eqn:Hk.
        * injection Hb as ->. by apply Hkx.
        * apply Hm in Hb as (y & Hd & Hy). by apply (Hstep Hmx y).
    - apply Hm in Hb as (y & Hd & Hy). by apply (Hstep Hmx y). }
  destruct mx as [[|mx']|].
  - by apply Hzero.
  - by apply Hbody.
  - by apply Hbody.
Qed.

Lemma rmatch_progress fl r :
  forall x k z, rmatch fl r x k = Some z ->
                exists y, k y = Some z /\ pos x + minLen r <= pos y.
Proof.
  induction r as [| neg items | | a | r1 IH1 r2 IH2 | r1 IH1 r2 IH2
                  | r1 IH1 mn mx greedy | n r1 IH1];
    intros x k z; cbn [rmatch minLen].
  - intros Hk. exists x. split; [done|lia].
  - destruct (rest x) as [|c rest']; [done|].
    destruct (xorb _ _); [|done]. intros Hk.
    eexists. split; [exact Hk|]. simpl. lia.
  - destruct (rest x) as [|c rest']; [done|].
    destruct (_ || _); [|done]. intros Hk.
    eexists. split; [exact Hk|]. simpl. lia.
  - destruct (assertionHolds a x); [|done]. intros Hk.
    exists x. split; [done|lia].
  - intros Hm. apply IH1 in Hm as (y1 & Hm & Hy1).
    apply IH2 in Hm as (y & Hk & Hy). exists y. split; [done|lia].
  - destruct (rmatch fl r1 x k) as [z'|] eqn:H1.
    + intros [= ->]. apply IH1 in H1 as (y & Hk & Hy).
      exists y. split; [done|lia].
    + intros H2. apply IH2 in H2 as (y & Hk & Hy).
      exists y. split; [done|lia].
  - apply repeatMatcher_progress. exact IH1.
  - intros Hm. apply IH1 in Hm as (y & Hk & Hy).
    eexists. split; [exact Hk|]. rewrite pos_setCap. lia.
Qed.

Lemma searchFrom_progress fl r from prv s p i z :
  searchFrom fl r from prv s p = Some (i, z) -> i + minLen r <= pos z.
Proof.
  revert prv p. induction s as [|c s IH]; intros prv p; cbn [searchFrom].
  - destruct (from <=? p); [|done].
    destruct (rmatch _ _ _ _) as [z'|] eqn:Hm; [|done].
    intros [= <- <-]. apply rmatch_progress in Hm as (y & [= ->] & Hy).
    exact Hy.
  - destruct (from <=? p).
    + destruct (rmatch _ _ _ _) as [z'|] eqn:Hm; [|apply IH].
      intros [= <- <-]. apply rmatch_progress in Hm as (y & [= ->] & Hy).
      exact Hy.
    + apply IH.
Qed.

Lemma search_progress fl r s from i z :
  search fl r s from = Some (i, z) -> from <= i /\ i + minLen r <= pos z.
Proof.
  unfold search. intros Hs. split.
  - eapply searchFrom_from, Hs.
  - eapply searchFrom_progress, Hs.
Qed.

(** *** The bound on the turns of a repetition is never what stops it *)

Lemma reach_refl x : reach x x.
Proof. unfold reach. lia. Qed.

Lemma reach_trans x y z : reach x y -> reach y z -> reach x z.
Proof. unfold reach. lia. Qed.

Lemma reach_setCap n span x y : reach x y -> reach x (setCap n span y).
Proof. by destruct n. Qed.

Lemma repeatMatcher_ext m greedy :
  local m ->
  forall fuel mn mx x k k',
    (forall y, reach x y -> k y = k' y) ->
    repeatMatcher m greedy k fuel mn mx x
    = repeatMatcher m greedy k' fuel mn mx x.
Proof.
  intros Hm. induction fuel as [|fuel IH]; intros mn mx x k k' Hk; [done|].
  cbn [repeatMatcher].
  assert (Hd : m x (fun y =>
                 if (mn =? 0) && (pos y =? pos x) then None
                 else repeatMatcher m greedy k fuel (Nat.pred mn)
                                    (Nat.pred <$> mx) y)
               = m x (fun y =>
                 if (mn =? 0) && (pos y =? pos x) then None
                 else repeatMatcher m greedy k' fuel (Nat.pred mn)
                                    (Nat.pred <$> mx) y)).
  { apply Hm. intros y Hy. destruct ((mn =? 0) && (pos y =? pos x)); [done|].
    apply IH. intros y' Hy'. apply Hk. by apply (reach_trans x y y'). }
  rewrite Hd, (Hk x (reach_refl x)). done.
Qed.

Lemma rmatch_local fl r : local (rmatch fl r).
Proof.
  induction r as [| neg items | | a | r1 IH1 r2 IH2 | r1 IH1 r2 IH2
                  | r1 IH1 mn mx greedy | n r1 IH1];
    intros x k k' Hk; cbn [rmatch].
  - apply Hk, reach_refl.
  - destruct (rest x) as [|c rest'] eqn:Hr; [done|].
    destruct (xorb _ _); [|done]. apply Hk.
    unfold reach. rewrite Hr. simpl. lia.
  - destruct (rest x) as [|c rest'] eqn:Hr; [done|].
    destruct (_ || _); [|done]. apply Hk.
    unfold reach. rewrite Hr. simpl. lia.
  - destruct (assertionHolds a x); [|done]. apply Hk, reach_refl.
  - apply IH1. intros y Hy. apply IH2. intros y' Hy'.
    apply Hk. by apply (reach_trans x y y').
  - by rewrite (IH1 x k k' Hk), (IH2 x k k' Hk).
  - by apply repeatMatcher_ext.
  - apply IH1. intros y Hy. apply Hk. by apply reach_setCap.
Qed.

Lemma repeatMatcher_fuel m greedy k :
  local m ->
  forall fuel mn mx x,
    mn + length (rest x) < fuel ->
    repeatMatcher m greedy k (S fuel) mn mx x
    = repeatMatcher m greedy k fuel mn mx x.
Proof.
  intros Hm. induction fuel as [|fuel IH]; intros mn mx x Hf; [lia|].
  cbn [repeatMatcher].
  assert (Hd : m x (fun y =>
                 if (mn =? 0) && (pos y =? pos x) then None
                 else repeatMatcher m greedy k (S fuel) (Nat.pred mn)
                                    (Nat.pred <$> mx) y)
               = m x (fun y =>
                 if (mn =? 0) && (pos y =? pos x) then None
                 else repeatMatcher m greedy k fuel (Nat.pred mn)
                                    (Nat.pred <$> mx) y)).
  { apply Hm. intros y [Hy1 Hy2].
    destruct (Nat.eqb_spec mn 0) as [->|Hmn];
      destruct (Nat.eqb_spec (pos y) (pos x)) as [He|Hne]; cbn [andb];
      try done; apply IH; simpl; lia. }
  cbn [repeatMatcher] in Hd. rewrite Hd. done.
Qed.

(** With more turns than [mn + length (rest x) + 1], the bound that
    [rmatch] gives, the repetition matches the same. *)
Lemma repeatMatcher_enough_fuel fl r greedy k mn mx x extra :
  repeatMatcher (rmatch fl r) greedy k
                (mn + length (rest x) + 1 + extra) mn mx x
  = repeatMatcher (rmatch fl r) greedy k (mn + length (rest x) + 1) mn mx x.
Proof.
  induction extra as [|extra IH]; [by rewrite Nat.add_0_r|].
  rewrite Nat.add_succ_r, repeatMatcher_fuel; [exact IH| |lia].
  apply rmatch_local.
Qed.

End JsRegExpFacts.

#[export] Instance JsEngine : RegExpEngine := {|
  regexp := JsRegExp.re * bool;
  regexp_new := JsRegExp.compile;
  regexp_exec := JsRegExp.execCompiled;
  regexp_new_escaped := JsRegExpFacts.compile_escaped;
  regexp_exec_from := fun r s from idx len =>
    JsRegExpFacts.exec_from _ (fst r) s from idx len
|}.

(** ** Evaluator: the results *)

Section EvaluatorResults.
Context `{RegExpEngine}.

Lemma compileBlock_None flags idx b :
  compileBlock flags idx b = None
  <-> List.filter (fun t => 0 <? length (trim t)) (terms b) = [].
Proof.
  unfold compileBlock.
  destruct (List.filter _ (terms b)) as [|t ts]; simpl; split; done.
Qed.

Lemma omap_imap_nil {A B} (f : nat -> A -> option B) (l : list A) :
  omap (fun x => x) (imap f l) = []
  <-> forall i x, l !! i = Some x -> f i x = None.
Proof.
  revert f. induction l as [|a l IH]; intros f; simpl.
  - split; [intros _ i x Hl; by rewrite lookup_nil in Hl|done].
  - split.
    + intros Hn. destruct (f 0 a) eqn:Hf; [done|].
      pose proof (proj1 (IH (f ∘ S)) Hn) as Hn'.
      intros [|i] x Hl; simpl in Hl.
      * by injection Hl as <-.
      * by apply (Hn' i x).
    + intros Hall. rewrite (Hall 0 a) by done.
      apply (proj2 (IH (f ∘ S))). intros i x Hl. by apply (Hall (S i) x).
Qed.

(** No block is usable exactly when no block has a term that is not
    blank. *)
Lemma compileBlocks_nil cfg :
  compileBlocks cfg = []
  <-> forall b, b ∈ blocks cfg ->
        List.filter (fun t => 0 <? length (trim t)) (terms b) = [].
Proof.
  unfold compileBlocks. rewrite omap_imap_nil. split.
  - intros Hn b Hb. apply list_elem_of_lookup in Hb as [i Hi].
    by apply (compileBlock_None (caseInsensitive cfg) i), Hn.
  - intros Hall i b Hi. apply compileBlock_None, Hall.
    apply list_elem_of_lookup. eauto.
Qed.

Lemma filter_nil_iff {A} (f : A -> bool) (l : list A) :
  List.filter f l = [] <-> forall x, x ∈ l -> f x = false.
Proof.
  induction l as [|a l IH]; simpl.
  - split; [intros _ x Hx; by apply elem_of_nil in Hx|done].
  - destruct (f a) eqn:Hf; split.
    + done.
    + intros Hall. rewrite Hall in Hf; [done|left].
    + intros Hn x Hx. apply elem_of_cons in Hx as [->|Hx]; [done|].
      by apply IH.
    + intros Hall. apply IH. intros x Hx. apply Hall. by right.
Qed.

(** The three results of the evaluator, in terms of the usable blocks. *)
Lemma evaluate_results cfg fs sel :
  let texts := selectedTexts fs sel in
  let cs := compileBlocks cfg in
  let res := evaluateQueryOnText cfg fs sel in
  val res = match cs with
            | [] => true
            | c0 :: cs' =>
                foldLeftToRight (operators cfg) (contribution texts c0)
                                (map (contribution texts) cs')
            end
  /\ (matchedBlocks res, detailed res)
     = fold_left (recordBlock texts) (visited (operators cfg) cs) ([], ∅).
Proof.
  intros texts cs res. subst res. unfold evaluateQueryOnText. fold cs.
  destruct cs as [|c0 cs'].
  - done.
  - apply matchesByFields_cons.
Qed.

Lemma visited_all (ops : list Operator) (cs : list Compiled) :
  length cs <= S (length ops) -> visited ops cs = cs.
Proof. intros Hl. unfold visited. by apply take_ge. Qed.

Lemma length_omap_le {A B} (f : A -> option B) (l : list A) :
  length (omap f l) <= length l.
Proof.
  induction l as [|a l IH]; [done|].
  change (omap f (a :: l))
    with (match f a with Some y => y :: omap f l | None => omap f l end).
  destruct (f a); simpl; lia.
Qed.

Lemma length_compileBlocks cfg :
  length (compileBlocks cfg) <= length (blocks cfg).
Proof.
  unfold compileBlocks.
  pose proof (length_omap_le (fun x => x)
                (imap (compileBlock (caseInsensitive cfg)) (blocks cfg))) as Hl.
  by rewrite length_imap in Hl.
Qed.

Lemma NoDup_cname_inj (l : list Compiled) c c' :
  NoDup (map cname l) -> c ∈ l -> c' ∈ l -> cname c = cname c' -> c = c'.
Proof.
  induction l as [|a l IH]; intros Hnd Hc Hc' Hn.
  - by apply elem_of_nil in Hc.
  - simpl in Hnd. apply NoDup_cons in Hnd as [Ha Hnd].
    apply elem_of_cons in Hc as [->|Hc]; apply elem_of_cons in Hc' as [->|Hc'].
    + done.
    + exfalso. apply Ha. rewrite Hn. apply (list_elem_of_fmap_2 cname), Hc'.
    + exfalso. apply Ha. rewrite <- Hn. apply (list_elem_of_fmap_2 cname), Hc.
    + by apply IH.
Qed.

Lemma blockFired_iff texts c :
  blockFired texts c = true
  <-> exists f t re term,
        (f, t) ∈ texts /\ t <> []
        /\ (re, term) ∈ combine (regexes c) (cterms c)
        /\ regexp_test re t = true.
Proof.
  unfold blockFired. rewrite existsb_exists. split.
  - intros ([f t] & Hin & Hb). simpl in Hb.
    apply andb_true_iff in Hb as [Ht Hh].
    unfold termHits in Hh.
    destruct (List.filter _ _) as [|[re term] l] eqn:Hfl; [done|].
    assert (Hm : In (re, term)
                    (List.filter (fun rt => regexp_test (fst rt) t)
                                 (combine (regexes c) (cterms c)))).
    { rewrite Hfl. by left. }
    apply filter_In in Hm as [Hm Htest].
    exists f, t, re, term. repeat split.
    + by apply list_elem_of_In.
    + intros ->. done.
    + by apply list_elem_of_In.
    + done.
  - intros (f & t & re & term & Hin & Hne & Hrt & Htest).
    exists (f, t). split; [by apply list_elem_of_In|]. simpl.
    apply andb_true_iff. split.
    + destruct t; done.
    + unfold termHits.
      assert (Hm : In (re, term)
                      (List.filter (fun rt => regexp_test (fst rt) t)
                                   (combine (regexes c) (cterms c)))).
      { apply filter_In. split; [by apply list_elem_of_In|done]. }
      destruct (List.filter _ _); [done|done].
Qed.

End EvaluatorResults.

Section EvaluatorClaims.
Context `{RegExpEngine}.

(** C1. The boolean fold of the evaluator is strictly left-associative and
    knows no precedence: on the usable blocks [c0, c1, ..., cn] the result
    is [((v0 op1 v1) op2 v2) ... opn vn], where [vi] is what block [ci]
    contributes (whether it fired, negated for an excluded block).  For
    three blocks joined by OR then AND the result is [(A OR B) AND C], so
    the contributions (true, false, true) yield true. *)
Theorem evaluate_left_associative (cfg : QueryConfig) (fs : Fields)
    (sel : SearchFields) :
  let texts := selectedTexts fs sel in
  let res := evaluateQueryOnText cfg fs sel in
  val res = match compileBlocks cfg with
            | [] => true
            | c0 :: cs =>
                foldLeftToRight (operators cfg) (contribution texts c0)
                                (map (contribution texts) cs)
            end
  /\ (forall a b c,
        compileBlocks cfg = [a; b; c] -> operators cfg = [OR; AND] ->
        val res
        = (contribution texts a || contribution texts b)
          && contribution texts c)
  /\ (forall a b c,
        compileBlocks cfg = [a; b; c] -> operators cfg = [OR; AND] ->
        contribution texts a = true -> contribution texts b = false ->
        contribution texts c = true ->
        val res = true).
Proof.
  intros texts res.
  destruct (evaluate_results cfg fs sel) as [Hval _].
  fold texts in Hval. fold res in Hval.
  split; [exact Hval|]. split.
  - intros a b c Hcs Hops. rewrite Hval, Hcs, Hops. done.
  - intros a b c Hcs Hops Ha Hb Hc. rewrite Hval, Hcs, Hops.
    unfold foldLeftToRight. simpl. by rewrite Ha, Hb, Hc.
Qed.

(** C4. A query without a usable block matches vacuously: the list of
    compiled blocks is empty exactly when no block has a term that is not
    blank (in particular when there is no block at all), and then the
    evaluator answers [ok = true] with no matched block name and an empty
    hit map, whatever the record. *)
Theorem evaluate_no_usable_block (cfg : QueryConfig) (fs : Fields)
    (sel : SearchFields) :
  (compileBlocks cfg = []
   <-> forall b, b ∈ blocks cfg -> forall t, t ∈ terms b -> trim t = [])
  /\ (compileBlocks cfg = [] ->
      evaluateQueryOnText cfg fs sel
      = {| val := true; matchedBlocks := []; detailed := ∅ |}).
Proof.
  split.
  - rewrite compileBlocks_nil. split.
    + intros Hall b Hb t Ht.
      pose proof (proj1 (filter_nil_iff _ _) (Hall b Hb) t Ht) as Hf.
      simpl in Hf. destruct (trim t); done.
    + intros Hall b Hb. apply filter_nil_iff. intros t Ht.
      by rewrite (Hall b Hb t Ht).
  - intros Hcs. unfold evaluateQueryOnText. by rewrite Hcs.
Qed.



End EvaluatorClaims.

(** The sample query [A OR B AND C] on a title where A and C fire and B
    does not. *)
Lemma evaluate_left_associative_witness :
  val (evaluateQueryOnText abcConfig (titled "Alpha and gamma") allFields)
  = true.
Proof.
  eapply (proj2 (proj2 (evaluate_left_associative
                          abcConfig (titled "Alpha and gamma") allFields)));
    [vm_compute; reflexivity ..].
Defined.

(** Left to right, [A OR B AND C] is false when only A fires; with
    precedence for AND it would be true. *)
Example evaluate_no_precedence :
  val (evaluateQueryOnText abcConfig (titled "alpha alone") allFields) = false
  /\ (true || (false && false)) = true.
Proof. split; vm_compute; reflexivity. Qed.

Lemma evaluate_no_usable_block_witness :
  evaluateQueryOnText blankConfig (titled "anything") allFields
  = {| val := true; matchedBlocks := []; detailed := ∅ |}.
Proof.
  apply (proj2 (evaluate_no_usable_block blankConfig (titled "anything")
                                         allFields)).
  vm_compute. reflexivity.
Defined.




Example hit_map_sample :
  let res := evaluateQueryOnText notConfig (titled "A VR survey") allFields in
  val res = false
  /\ matchedBlocks res = [js "VR"]
  /\ detailed res !! js "VR"
     = Some {| hits_title := Some [js "vr"]; hits_abstract := None;
               hits_keywords := None |}.
Proof. vm_compute. done. Qed.

(** ** The run: classification of the records *)

Section RunClaims.
Context `{RegExpEngine}.

Lemma size_pos_iff (d : gmap jsstring FieldHits) :
  (0 <? size d) = bool_decide (d <> ∅).
Proof.
  destruct (decide (d = ∅)) as [->|Hne].
  - rewrite map_size_empty. rewrite bool_decide_eq_false_2; [done|]. by intros [].
  - rewrite bool_decide_eq_true_2 by done.
    apply Nat.ltb_lt. apply map_size_non_empty_iff in Hne. lia.
Qed.

Lemma runStep_spec cfg st e :
  runStep cfg (evaluateQueryOnText cfg) st e
  = {| rs_eligible := rs_eligible st
                      + (if hasAny (searchFields cfg) (entryFields e)
                         then 1 else 0);
       matchedRows := matchedRows st
                      ++ (if inBucket cfg Matched e then [rowOf cfg e] else []);
       partialRows := partialRows st
                      ++ (if inBucket cfg Partial e then [rowOf cfg e] else []);
       unmatchedRows := unmatchedRows st
                      ++ (if inBucket cfg Unmatched e then [rowOf cfg e] else [])
    |}.
Proof.
  unfold runStep, inBucket, classify, rowOf.
  rewrite size_pos_iff.
  destruct (hasAny _ _), (val _), (bool_decide (detailed _ <> ∅));
    cbn [andb]; rewrite ?app_nil_r, ?Nat.add_0_r, ?Nat.add_1_r;
    reflexivity.
Qed.

Lemma fold_runStep cfg entries st :
  let st' := fold_left (runStep cfg (evaluateQueryOnText cfg)) entries st in
  rs_eligible st'
  = rs_eligible st
    + length (List.filter (fun e => hasAny (searchFields cfg) (entryFields e))
                          entries)
  /\ matchedRows st'
     = matchedRows st
       ++ map (rowOf cfg) (List.filter (inBucket cfg Matched) entries)
  /\ partialRows st'
     = partialRows st
       ++ map (rowOf cfg) (List.filter (inBucket cfg Partial) entries)
  /\ unmatchedRows st'
     = unmatchedRows st
       ++ map (rowOf cfg) (List.filter (inBucket cfg Unmatched) entries).
Proof.
  revert st. induction entries as [|e entries IH]; intros st; simpl.
  - by rewrite !app_nil_r, Nat.add_0_r.
  - destruct (IH (runStep cfg (evaluateQueryOnText cfg) st e))
      as (He & Hm & Hp & Hu).
    rewrite He, Hm, Hp, Hu, runStep_spec. cbn [rs_eligible matchedRows
      partialRows unmatchedRows].
    repeat split.
    + destruct (hasAny _ _); simpl; lia.
    + destruct (inBucket cfg Matched e); simpl; by rewrite <- app_assoc.
    + destruct (inBucket cfg Partial e); simpl; by rewrite <- app_assoc.
    + destruct (inBucket cfg Unmatched e); simpl; by rewrite <- app_assoc.
Qed.

Lemma inBucket_cases cfg e :
  let any := hasAny (searchFields cfg) (entryFields e) in
  (any = false /\ inBucket cfg Matched e = false
   /\ inBucket cfg Partial e = false /\ inBucket cfg Unmatched e = false)
  \/ (any = true
      /\ ((inBucket cfg Matched e = true /\ inBucket cfg Partial e = false
           /\ inBucket cfg Unmatched e = false)
          \/ (inBucket cfg Matched e = false /\ inBucket cfg Partial e = true
              /\ inBucket cfg Unmatched e = false)
          \/ (inBucket cfg Matched e = false /\ inBucket cfg Partial e = false
              /\ inBucket cfg Unmatched e = true))).
Proof.
  intros any. subst any. unfold inBucket, classify.
  destruct (hasAny _ _); [right|left]; [split; [done|]|done].
  destruct (val _); [left; done|right].
  destruct (bool_decide (detailed _ <> ∅)); [left|right]; done.
Qed.

Lemma buckets_partition cfg entries :
  length (List.filter (inBucket cfg Matched) entries)
  + length (List.filter (inBucket cfg Partial) entries)
  + length (List.filter (inBucket cfg Unmatched) entries)
  = length (List.filter (fun e => hasAny (searchFields cfg) (entryFields e))
                        entries).
Proof.
  induction entries as [|e entries IH]; [done|].
  cbn [List.filter].
  destruct (inBucket_cases cfg e)
    as [(-> & -> & -> & ->)
       |(-> & [(-> & -> & ->)|[(-> & -> & ->)|(-> & -> & ->)]])];
    cbn [length]; lia.
Qed.

Lemma length_filter_le {A} (f : A -> bool) (l : list A) :
  length (List.filter f l) <= length l.
Proof. induction l as [|a l IH]; simpl; [done|]. destruct (f a); simpl; lia. Qed.


End RunClaims.


Example run_sample_report :
  (report <$> run notConfig sampleBib)
  = Some {| total := 4; eligible := 3; matched := 1; partial := 1;
            unmatched := 1 |}
  /\ (map CiteKey ∘ out_matched <$> run notConfig sampleBib) = Some [js "k1"]
  /\ (map CiteKey ∘ out_partial <$> run notConfig sampleBib) = Some [js "k2"]
  /\ (map CiteKey ∘ out_unmatched <$> run notConfig sampleBib)
     = Some [js "k4"].
Proof. vm_compute. repeat split; reflexivity. Qed.

(** ** TermStatsAggregator *)

Section TermStatsFacts.

Lemma elem_of_entryTerms term fh :
  term ∈ entryTerms fh <-> exists f, term ∈ fieldHitsOf f fh.
Proof.
  unfold entryTerms. rewrite !elem_of_app. split.
  - intros [Ht|[Ht|Ht]]; eauto.
  - intros [[] Ht]; auto.
Qed.

Lemma elem_of_rowTerms term r :
  term ∈ rowTerms r <-> exists n, hitsUnder n term r.
Proof.
  unfold rowTerms, hitsUnder. rewrite list_elem_of_In, in_flat_map. split.
  - intros ([n fh] & Hin & Ht). simpl in Ht.
    apply list_elem_of_In, elem_of_map_to_list in Hin.
    apply list_elem_of_In, elem_of_entryTerms in Ht as [f Ht].
    eauto.
  - intros (n & fh & f & Hl & Ht). exists (n, fh). split.
    + by apply list_elem_of_In, elem_of_map_to_list.
    + simpl. apply list_elem_of_In, elem_of_entryTerms. eauto.
Qed.

(** *** The overall document counts *)

Lemma statsTerm_overall n f st term :
  overallOf (statsTerm n f st term) = overallStep (overallOf st) term.
Proof.
  unfold statsTerm, overallOf, overallStep. simpl.
  by destruct (bool_decide (term ∈ seenOverall st)).
Qed.

Lemma fold_statsTerm_overall n f l st :
  overallOf (fold_left (statsTerm n f) l st)
  = fold_left overallStep l (overallOf st).
Proof.
  revert st. induction l as [|t l IH]; intros st; simpl; [done|].
  by rewrite IH, statsTerm_overall.
Qed.

Lemma statsBlock_overall st e :
  overallOf (statsBlock st e)
  = fold_left overallStep (entryTerms (snd e)) (overallOf st).
Proof.
  destruct e as [n fh]. unfold statsBlock, entryTerms.
  cbn [fold_left snd].
  rewrite !fold_left_app, !fold_statsTerm_overall. done.
Qed.

Lemma statsRow_overall st r :
  overallOf (statsRow st r)
  = fold_left overallStep (rowTerms r) (overallDocCounts st, ∅).
Proof.
  unfold statsRow, rowTerms.
  generalize (map_to_list (MatchedTermsMap r)). intros l.
  change (overallDocCounts st, ∅)
    with (overallOf {| overallDocCounts := overallDocCounts st;
                       overallFieldCounts := overallFieldCounts st;
                       perBlock := perBlock st;
                       seenOverall := ∅; seenInBlock := ∅ |}).
  generalize ({| overallDocCounts := overallDocCounts st;
                 overallFieldCounts := overallFieldCounts st;
                 perBlock := perBlock st;
                 seenOverall := ∅; seenInBlock := ∅ |}).
  induction l as [|e l IH]; intros s; simpl; [done|].
  by rewrite IH, fold_left_app, statsBlock_overall.
Qed.

Lemma fold_overallStep l acc term :
  let acc' := fold_left overallStep l acc in
  default 0 (fst acc' !! term)
  = default 0 (fst acc !! term)
    + (if bool_decide (term ∈ l /\ term ∉ snd acc) then 1 else 0)
  /\ (term ∈ snd acc' <-> term ∈ snd acc \/ term ∈ l).
Proof.
  revert acc. induction l as [|t l IH]; intros acc; simpl.
  - split; [lia|]. split; [auto|]. intros [?|Hn]; [done|].
    by apply elem_of_nil in Hn.
  - destruct (IH (overallStep acc t)) as [Hc Hs]. rewrite Hc, Hs. clear Hc Hs IH.
    unfold overallStep. case_bool_decide as Hseen; simpl.
    + rewrite (bool_decide_ext (term ∈ t :: l /\ term ∉ acc.2)
                               (term ∈ l /\ term ∉ acc.2)).
      2:{ rewrite elem_of_cons. split; [|tauto].
          intros [[->|?] ?]; tauto. }
      split; [done|]. rewrite elem_of_cons. split; [tauto|].
      intros [?|[->|?]]; tauto.
    + destruct (decide (term = t)) as [->|Hne].
      * rewrite lookup_insert_eq. simpl.
        rewrite (bool_decide_eq_false_2 (t ∈ l /\ _)).
        2:{ intros [_ Hn]. apply Hn. set_solver. }
        rewrite (bool_decide_eq_true_2 (t ∈ t :: l /\ _)).
        2:{ split; [left|done]. }
        split; [lia|]. rewrite elem_of_cons. set_solver.
      * rewrite lookup_insert_ne by done.
        rewrite (bool_decide_ext (term ∈ t :: l /\ term ∉ acc.2)
                                 (term ∈ l /\ term ∉ {[t]} ∪ acc.2)).
        2:{ rewrite elem_of_cons. set_solver. }
        split; [done|]. rewrite elem_of_cons. set_solver.
Qed.

Lemma fold_statsRow_overall rows st term :
  default 0 (overallDocCounts (fold_left statsRow rows st) !! term)
  = default 0 (overallDocCounts st !! term)
    + length (List.filter (fun r => bool_decide (term ∈ rowTerms r)) rows).
Proof.
  revert st. induction rows as [|r rows IH]; intros st; simpl; [lia|].
  rewrite IH. clear IH.
  change (overallDocCounts (statsRow st r)) with (fst (overallOf (statsRow st r))).
  rewrite statsRow_overall.
  destruct (fold_overallStep (rowTerms r) (overallDocCounts st, ∅) term)
    as [Hc _].
  rewrite Hc. simpl.
  rewrite (bool_decide_ext (term ∈ rowTerms r /\ term ∉ (∅ : gset jsstring))
                           (term ∈ rowTerms r)) by set_solver.
  destruct (bool_decide (term ∈ rowTerms r)); simpl; lia.
Qed.

(** *** The breakdown per block *)

Lemma present_insert_inner pb n m term st n' t' :
  pb !! n = Some m \/ (pb !! n = None /\ m = ∅) ->
  present (<[n := <[term := st]> m]> pb) n' t' ->
  present pb n' t' \/ (n' = n /\ t' = term).
Proof.
  intros Hm (s' & m' & Hl & Ht).
  destruct (decide (n' = n)) as [->|Hn].
  - rewrite lookup_insert_eq in Hl. injection Hl as <-.
    destruct (decide (t' = term)) as [->|Hne]; [by right|].
    rewrite lookup_insert_ne in Ht by done. left.
    destruct Hm as [Hm|[_ ->]].
    + exists s', m. done.
    + by rewrite lookup_empty in Ht.
  - rewrite lookup_insert_ne in Hl by done. left. exists s', m'. done.
Qed.

Lemma present_insert_empty pb n n' t' :
  pb !! n = None -> present (<[n := ∅]> pb) n' t' -> present pb n' t'.
Proof.
  intros Hn (s' & m' & Hl & Ht).
  destruct (decide (n' = n)) as [->|Hne].
  - rewrite lookup_insert_eq in Hl. injection Hl as <-.
    by rewrite lookup_empty in Ht.
  - rewrite lookup_insert_ne in Hl by done. exists s', m'. done.
Qed.

Lemma statsTerm_present n f st term n' t' :
  present (perBlock (statsTerm n f st term)) n' t' ->
  present (perBlock st) n' t' \/ (n' = n /\ t' = term).
Proof.
  unfold statsTerm. cbn [perBlock]. apply present_insert_inner.
  destruct (perBlock st !! n); simpl; eauto.
Qed.

Lemma fold_statsTerm_present n f l st n' t' :
  present (perBlock (fold_left (statsTerm n f) l st)) n' t' ->
  present (perBlock st) n' t' \/ (n' = n /\ t' ∈ l).
Proof.
  revert st. induction l as [|t l IH]; intros st; simpl; [by left|].
  intros Hp. apply IH in Hp as [Hp|[-> Hin]].
  - apply statsTerm_present in Hp as [Hp|[-> ->]]; [by left|].
    right. split; [done|left].
  - right. split; [done|by right].
Qed.

Lemma statsBlock_present st n fh n' t' :
  present (perBlock (statsBlock st (n, fh))) n' t' ->
  present (perBlock st) n' t' \/ (n' = n /\ exists f, t' ∈ fieldHitsOf f fh).
Proof.
  unfold statsBlock. cbn [fold_left]. intros Hp.
  apply fold_statsTerm_present in Hp as [Hp|[-> Hin]]; [|eauto].
  apply fold_statsTerm_present in Hp as [Hp|[-> Hin]]; [|eauto].
  apply fold_statsTerm_present in Hp as [Hp|[-> Hin]]; [|eauto].
  cbn [perBlock] in Hp. left.
  destruct (perBlock st !! n) eqn:Hn; [done|].
  by apply present_insert_empty in Hp.
Qed.

Lemma fold_statsBlock_present l s n t :
  present (perBlock (fold_left statsBlock l s)) n t ->
  present (perBlock s) n t
  \/ exists fh f, (n, fh) ∈ l /\ t ∈ fieldHitsOf f fh.
Proof.
  revert s. induction l as [|[n' fh] l IH]; intros s; simpl; [by left|].
  intros Hp. apply IH in Hp as [Hp|(fh' & f & Hin & Hf)].
  - apply statsBlock_present in Hp as [Hp|[-> [f Hf]]]; [by left|].
    right. exists fh, f. split; [left|done].
  - right. exists fh', f. split; [by right|done].
Qed.

Lemma statsRow_present st r n t :
  present (perBlock (statsRow st r)) n t ->
  present (perBlock st) n t \/ hitsUnder n t r.
Proof.
  unfold statsRow, hitsUnder. intros Hp.
  apply fold_statsBlock_present in Hp as [Hp|(fh & f & Hin & Hf)].
  - by left.
  - right. exists fh, f. split; [|done]. by apply elem_of_map_to_list in Hin.
Qed.

Lemma fold_statsRow_present rows st n t :
  present (perBlock (fold_left statsRow rows st)) n t ->
  present (perBlock st) n t \/ exists r, r ∈ rows /\ hitsUnder n t r.
Proof.
  revert st. induction rows as [|r rows IH]; intros st; simpl; [by left|].
  intros Hp. apply IH in Hp as [Hp|(r' & Hr' & Hh)].
  - apply statsRow_present in Hp as [Hp|Hp]; [by left|].
    right. exists r. split; [left|done].
  - right. exists r'. split; [by right|done].
Qed.

(** Declaring the configured terms keeps what is there and adds a zero
    entry for every term that is not blank. *)
Lemma declareTerm_keeps nm pb raw n t st :
  hasStat pb n t st -> hasStat (declareTerm nm pb raw) n t st.
Proof.
  intros (m & Hl & Ht). unfold declareTerm.
  destruct (trim raw) as [|c tr] eqn:Htr; [by exists m|].
  destruct (default ∅ (pb !! nm) !! (c :: tr)) eqn:Hd; [by exists m|].
  destruct (decide (n = nm)) as [->|Hne].
  - rewrite Hl in Hd |- *. simpl in Hd. simpl.
    exists (<[c :: tr := zeroStat]> m). rewrite lookup_insert_eq.
    split; [done|].
    rewrite lookup_insert_ne; [done|]. intros <-. congruence.
  - exists m. by rewrite lookup_insert_ne.
Qed.

Lemma declareTerm_adds nm pb raw :
  trim raw <> [] -> exists st, hasStat (declareTerm nm pb raw) nm (trim raw) st.
Proof.
  intros Hne. unfold declareTerm.
  destruct (trim raw) as [|c tr] eqn:Htr; [done|].
  destruct (default ∅ (pb !! nm) !! (c :: tr)) as [st|] eqn:Hd.
  - exists st. destruct (pb !! nm) as [m|] eqn:Hm; simpl in Hd.
    + by exists m.
    + by rewrite lookup_empty in Hd.
  - exists zeroStat. eexists. rewrite lookup_insert_eq. split; [done|].
    by rewrite lookup_insert_eq.
Qed.

Lemma declareTerm_origin nm pb raw n t st :
  hasStat (declareTerm nm pb raw) n t st -> hasStat pb n t st \/ st = zeroStat.
Proof.
  unfold declareTerm.
  destruct (trim raw) as [|c tr] eqn:Htr; [by left|].
  destruct (default ∅ (pb !! nm) !! (c :: tr)) eqn:Hd; [by left|].
  intros (m & Hl & Ht).
  destruct (decide (n = nm)) as [->|Hne].
  - rewrite lookup_insert_eq in Hl. injection Hl as <-.
    destruct (decide (t = c :: tr)) as [->|Hnt].
    + rewrite lookup_insert_eq in Ht. right. by injection Ht.
    + rewrite lookup_insert_ne in Ht by done. left.
      destruct (pb !! nm) as [m|] eqn:Hm; simpl in Ht.
      * by exists m.
      * by rewrite lookup_empty in Ht.
  - rewrite lookup_insert_ne in Hl by done. left. by exists m.
Qed.

Lemma fold_declareTerm_keeps nm l pb n t st :
  hasStat pb n t st -> hasStat (fold_left (declareTerm nm) l pb) n t st.
Proof.
  revert pb. induction l as [|raw l IH]; intros pb Hs; simpl; [done|].
  by apply IH, declareTerm_keeps.
Qed.

Lemma fold_declareTerm_adds nm l pb raw :
  raw ∈ l -> trim raw <> [] ->
  exists st, hasStat (fold_left (declareTerm nm) l pb) nm (trim raw) st.
Proof.
  revert pb. induction l as [|r l IH]; intros pb Hin Hne.
  - by apply elem_of_nil in Hin.
  - simpl. apply elem_of_cons in Hin as [->|Hin].
    + destruct (declareTerm_adds nm pb r Hne) as [st Hst].
      exists st. by apply fold_declareTerm_keeps.
    + by apply IH.
Qed.

Lemma fold_declareTerm_origin nm l pb n t st :
  hasStat (fold_left (declareTerm nm) l pb) n t st ->
  hasStat pb n t st \/ st = zeroStat.
Proof.
  revert pb. induction l as [|r l IH]; intros pb; simpl; [by left|].
  intros Hs. apply IH in Hs as [Hs|Hs]; [|by right].
  by apply declareTerm_origin in Hs.
Qed.

Lemma hasStat_insert_empty pb nm n t st :
  pb !! nm = None -> (hasStat (<[nm := ∅]> pb) n t st <-> hasStat pb n t st).
Proof.
  intros Hn. unfold hasStat. split; intros (m & Hl & Ht).
  - destruct (decide (n = nm)) as [->|Hne].
    + rewrite lookup_insert_eq in Hl. injection Hl as <-.
      by rewrite lookup_empty in Ht.
    + rewrite lookup_insert_ne in Hl by done. by exists m.
  - exists m. split; [|done]. rewrite lookup_insert_ne; [done|].
    intros <-. congruence.
Qed.

Lemma declareBlock_keeps pb ib n t st :
  hasStat pb n t st -> hasStat (declareBlock pb ib) n t st.
Proof.
  destruct ib as [idx b]. unfold declareBlock. intros Hs.
  apply fold_declareTerm_keeps.
  destruct (pb !! blockName b idx) eqn:Hn; [done|].
  by apply hasStat_insert_empty.
Qed.

Lemma declareBlock_adds pb idx b raw :
  raw ∈ terms b -> trim raw <> [] ->
  exists st, hasStat (declareBlock pb (idx, b)) (blockName b idx) (trim raw) st.
Proof. intros Hin Hne. by apply fold_declareTerm_adds. Qed.

Lemma declareBlock_origin pb ib n t st :
  hasStat (declareBlock pb ib) n t st -> hasStat pb n t st \/ st = zeroStat.
Proof.
  destruct ib as [idx b]. unfold declareBlock. intros Hs.
  apply fold_declareTerm_origin in Hs as [Hs|Hs]; [|by right]. left.
  destruct (pb !! blockName b idx) eqn:Hn; [done|].
  by apply hasStat_insert_empty in Hs.
Qed.

Lemma fold_declareBlock_keeps l pb n t st :
  hasStat pb n t st -> hasStat (fold_left declareBlock l pb) n t st.
Proof.
  revert pb. induction l as [|ib l IH]; intros pb Hs; simpl; [done|].
  by apply IH, declareBlock_keeps.
Qed.

Lemma fold_declareBlock_adds l pb idx b raw :
  (idx, b) ∈ l -> raw ∈ terms b -> trim raw <> [] ->
  exists st, hasStat (fold_left declareBlock l pb) (blockName b idx)
                     (trim raw) st.
Proof.
  revert pb. induction l as [|ib l IH]; intros pb Hin Hraw Hne.
  - by apply elem_of_nil in Hin.
  - simpl. apply elem_of_cons in Hin as [<-|Hin].
    + destruct (declareBlock_adds pb idx b raw Hraw Hne) as [st Hst].
      exists st. by apply fold_declareBlock_keeps.
    + by apply IH.
Qed.

Lemma fold_declareBlock_origin l pb n t st :
  hasStat (fold_left declareBlock l pb) n t st ->
  hasStat pb n t st \/ st = zeroStat.
Proof.
  revert pb. induction l as [|ib l IH]; intros pb; simpl; [by left|].
  intros Hs. apply IH in Hs as [Hs|Hs]; [|by right].
  by apply declareBlock_origin in Hs.
Qed.

End TermStatsFacts.



Example term_stats_sample :
  let ts := computeTermStats notConfig sampleRows in
  ts_overall ts !! js "vr" = Some 2
  /\ ts_overall ts !! js "virtual reality" = Some 1
  /\ (ts_perBlock ts !! js "VR" ≫= (.!! js "vr"))
     = Some {| docCount := 2;
               fields := {| n_title := 2; n_abstract := 1; n_keywords := 0 |} |}
  /\ (ts_perBlock ts !! js "Survey" ≫= (.!! js "survey")) = Some zeroStat
  /\ (ts_perBlock ts !! js "Survey" ≫= (.!! js "review*")) = Some zeroStat.
Proof. vm_compute. repeat split; reflexivity. Qed.

(** ** SpanHighlighter: the selected spans *)

Section SpanFacts.

Lemma compareSpans_le a b : (compareSpans a b <=? 0)%Z = true <-> spanLe a b.
Proof.
  unfold compareSpans, spanLe. rewrite Z.leb_le.
  destruct (Z.eqb_spec (start a - start b) 0); lia.
Qed.

Lemma spanLe_total a b : spanLe a b \/ spanLe b a.
Proof. unfold spanLe. lia. Qed.

Lemma spanLe_trans a b c : spanLe a b -> spanLe b c -> spanLe a c.
Proof. unfold spanLe. lia. Qed.

Lemma spanLe_start a b : spanLe a b -> (start a <= start b)%Z.
Proof. unfold spanLe. lia. Qed.

Lemma insertSpan_Permutation s l : insertSpan s l ≡ₚ s :: l.
Proof.
  induction l as [|t l IH]; simpl; [done|].
  destruct (compareSpans s t <=? 0)%Z; [done|].
  rewrite IH. apply perm_swap.
Qed.

Lemma sortSpans_Permutation l : sortSpans l ≡ₚ l.
Proof.
  induction l as [|s l IH]; simpl; [done|].
  by rewrite insertSpan_Permutation, IH.
Qed.

Lemma insertSpan_sorted s l :
  StronglySorted spanLe l -> StronglySorted spanLe (insertSpan s l).
Proof.
  induction l as [|t l IH]; intros Hs; simpl.
  - by repeat constructor.
  - apply StronglySorted_inv in Hs as [Hl Ht].
    destruct (compareSpans s t <=? 0)%Z eqn:Hc.
    + apply compareSpans_le in Hc. constructor.
      * by constructor.
      * constructor; [done|].
        eapply Forall_impl; [exact Ht|]. intros u Hu.
        by apply (spanLe_trans s t u).
    + assert (Hts : spanLe t s).
      { destruct (spanLe_total s t) as [Hst|Hts]; [|done].
        apply compareSpans_le in Hst. congruence. }
      constructor; [by apply IH|].
      rewrite insertSpan_Permutation. by constructor.
Qed.

Lemma sortSpans_sorted l : StronglySorted spanLe (sortSpans l).
Proof.
  induction l as [|s l IH]; simpl; [constructor|].
  by apply insertSpan_sorted.
Qed.

Lemma StronglySorted_weaken {A} (R S : A -> A -> Prop) l :
  (forall a b, R a b -> S a b) -> StronglySorted R l -> StronglySorted S l.
Proof.
  intros HRS. induction 1 as [|a l Hl IH Ha]; constructor; [done|].
  eapply Forall_impl; [exact Ha|]. intros b. apply HRS.
Qed.

(** The accumulator of [pickSpans] only grows at its end. *)
Lemma pickSpans_acc spans e picked :
  pickSpans spans e picked = picked ++ pickSpans spans e [].
Proof.
  revert e picked. induction spans as [|s spans IH]; intros e picked; simpl.
  - by rewrite app_nil_r.
  - destruct (e <=? start s)%Z; [|apply IH].
    rewrite (IH _ (picked ++ [s])), (IH _ [s]). by rewrite <- app_assoc.
Qed.

Lemma pickSpans_cons s spans e :
  pickSpans (s :: spans) e []
  = if (e <=? start s)%Z then s :: pickSpans spans (end_ s) []
    else pickSpans spans e [].
Proof.
  simpl. destruct (e <=? start s)%Z; [|done]. by rewrite pickSpans_acc.
Qed.

Lemma pickSpans_sublist spans e : pickSpans spans e [] `sublist_of` spans.
Proof.
  revert e. induction spans as [|s spans IH]; intros e.
  - constructor.
  - rewrite pickSpans_cons. destruct (e <=? start s)%Z.
    + by apply sublist_skip.
    + by apply sublist_cons.
Qed.

Lemma pickSpans_elem_of spans e k :
  k ∈ pickSpans spans e [] -> k ∈ spans.
Proof. intros Hk. eapply elem_of_sublist; [exact Hk|apply pickSpans_sublist]. Qed.

Lemma pickSpans_chain spans e :
  StronglySorted (fun a b => (start a <= start b)%Z) spans ->
  StronglySorted spanBefore (pickSpans spans e []).
Proof.
  revert e. induction spans as [|s spans IH]; intros e Hs.
  - constructor.
  - apply StronglySorted_inv in Hs as [Hl Hall].
    rewrite pickSpans_cons. destruct (e <=? start s)%Z; [|by apply IH].
    constructor; [by apply IH|].
    apply Forall_forall. intros k Hk.
    split.
    + rewrite Forall_forall in Hall. apply Hall.
      by apply pickSpans_elem_of in Hk.
    + clear IH. revert Hk. generalize (end_ s). clear Hall.
      induction spans as [|t spans IHs]; intros e' Hk.
      * by apply elem_of_nil in Hk.
      * apply StronglySorted_inv in Hl as [Hl Hall].
        rewrite pickSpans_cons in Hk.
        destruct (e' <=? start t)%Z eqn:He.
        -- apply Z.leb_le in He. apply elem_of_cons in Hk as [->|Hk]; [done|].
           apply pickSpans_elem_of in Hk.
           rewrite Forall_forall in Hall.
           apply Hall in Hk. lia.
        -- by apply IHs.
Qed.

(** A span that is dropped overlaps a span that is kept (or starts in
    front of [e]). *)
Lemma pickSpans_dropped spans e s :
  s ∈ spans ->
  s ∈ pickSpans spans e []
  \/ (exists k, k ∈ pickSpans spans e [] /\ (start s < end_ k)%Z)
  \/ (start s < e)%Z.
Proof.
  revert e. induction spans as [|t spans IH]; intros e Hin.
  - by apply elem_of_nil in Hin.
  - rewrite pickSpans_cons. destruct (e <=? start t)%Z eqn:He.
    + apply elem_of_cons in Hin as [->|Hin]; [left; left|].
      destruct (IH (end_ t) Hin) as [Hk|[(k & Hk & Hlt)|Hlt]].
      * left. by right.
      * right. left. exists k. split; [by right|done].
      * right. left. exists t. split; [left|done].
    + apply Z.leb_gt in He.
      apply elem_of_cons in Hin as [->|Hin]; [by right; right|].
      by apply IH.
Qed.

Lemma StronglySorted_lookup {A} (R : A -> A -> Prop) l i j a b :
  StronglySorted R l -> i < j -> l !! i = Some a -> l !! j = Some b -> R a b.
Proof.
  intros Hs. revert i j. induction Hs as [|x l Hl IH Hx]; intros i j Hij Ha Hb.
  - by rewrite lookup_nil in Ha.
  - destruct j as [|j]; [lia|]. simpl in Hb. destruct i as [|i]; simpl in Ha.
    + injection Ha as ->. rewrite Forall_forall in Hx.
      apply Hx, list_elem_of_lookup. eauto.
    + apply (IH i j); [lia|done|done].
Qed.

End SpanFacts.

Section SpanClaims.
Context `{RegExpEngine}.

Lemma execLoop_total fuel rx blk txt lastIndex spans :
  0 < fuel -> length txt + 2 <= fuel + lastIndex ->
  exists out, execLoop fuel rx blk txt lastIndex spans = Some out
              /\ (Forall (fun s => (0 <= start s)%Z) spans ->
                  Forall (fun s => (0 <= start s)%Z) out).
Proof.
  revert lastIndex spans.
  induction fuel as [|fuel IH]; intros lastIndex spans Hpos Hfuel; [lia|].
  simpl. destruct (length txt <? lastIndex) eqn:Hlt; [eauto|].
  apply Nat.ltb_ge in Hlt.
  destruct (regexp_exec rx txt lastIndex) as [[idx len]|] eqn:Hex; [|eauto].
  apply regexp_exec_from in Hex.
  destruct (IH (if len =? 0 then S (idx + len) else idx + len)
               (spans ++ [{| start := Z.of_nat idx;
                             end_ := Z.of_nat idx + Z.of_nat len;
                             sblock := blk;
                             text := take len (drop idx txt) |}]))
    as (out & Hout & Hall).
  - lia.
  - destruct (Nat.eqb_spec len 0); lia.
  - exists out. split; [done|]. intros Hs. apply Hall.
    apply Forall_app. split; [done|]. constructor; [simpl; lia|constructor].
Qed.

Lemma gatherSpans_total txt arr spans :
  exists out, gatherSpans txt arr spans = Some out
              /\ (Forall (fun s => (0 <= start s)%Z) spans ->
                  Forall (fun s => (0 <= start s)%Z) out).
Proof.
  revert spans. induction arr as [|[blk re] arr IH]; intros spans; simpl.
  - eauto.
  - destruct (execLoop_total (length txt + 2) re blk txt 0 spans)
      as (out1 & -> & H1); [lia|lia|].
    destruct (IH out1) as (out & -> & H2). eauto.
Qed.

(** C6. The span list that [collectSpans] selects is ordered and free of
    overlaps.  For every text and every list of block patterns the
    function returns; the collected spans are sorted by ascending start,
    equal starts by descending length; the selection is a sublist of the
    sorted spans in which every span starts at or after the end of every
    span selected before it (so the starts ascend and no two selected
    spans overlap); and every span that is not selected starts before the
    end of a selected one. *)
Theorem collectSpans_ordered_disjoint (txt : jsstring)
    (arr : list (jsstring * regexp)) :
  exists spans out,
    gatherSpans txt arr [] = Some spans
    /\ collectSpans txt arr = Some out
    /\ sortSpans spans ≡ₚ spans
    /\ StronglySorted spanLe (sortSpans spans)
    /\ out = pickSpans (sortSpans spans) (-1) []
    /\ out `sublist_of` sortSpans spans
    /\ (forall i j a b,
          i < j -> out !! i = Some a -> out !! j = Some b ->
          (start a <= start b)%Z /\ (end_ a <= start b)%Z)
    /\ (forall i j a b,
          i <> j -> out !! i = Some a -> out !! j = Some b ->
          (end_ a <= start b)%Z \/ (end_ b <= start a)%Z)
    /\ (forall s, s ∈ spans -> s ∉ out ->
                  exists k, k ∈ out /\ (start s < end_ k)%Z).
Proof.
  destruct (gatherSpans_total txt arr []) as (spans & Hg & Hpos).
  specialize (Hpos (List.Forall_nil _)).
  exists spans, (pickSpans (sortSpans spans) (-1) []).
  assert (Hchain : StronglySorted spanBefore
                     (pickSpans (sortSpans spans) (-1) [])).
  { apply pickSpans_chain.
    eapply StronglySorted_weaken; [apply spanLe_start|apply sortSpans_sorted]. }
  split; [done|]. split; [unfold collectSpans; by rewrite Hg|].
  split; [apply sortSpans_Permutation|].
  split; [apply sortSpans_sorted|].
  split; [done|].
  split; [apply pickSpans_sublist|].
  split; [|split].
  - intros i j a b Hij Ha Hb.
    apply (StronglySorted_lookup spanBefore _ i j a b Hchain Hij Ha Hb).
  - intros i j a b Hij Ha Hb.
    destruct (Nat.lt_total i j) as [Hlt|[->|Hgt]]; [|done|].
    + left. apply (StronglySorted_lookup spanBefore _ i j a b Hchain Hlt Ha Hb).
    + right. apply (StronglySorted_lookup spanBefore _ j i b a Hchain Hgt Hb Ha).
  - intros s Hs Hout.
    assert (Hs' : s ∈ sortSpans spans) by (by rewrite sortSpans_Permutation).
    destruct (pickSpans_dropped _ (-1) s Hs') as [Hk|[Hk|Hlt]]; [done|done|].
    rewrite Forall_forall in Hpos.
    apply Hpos in Hs. lia.
Qed.

End SpanClaims.

(** Two blocks on one title: the span of [reality] lies inside the span of
    [virtual reality] and is dropped. *)
Lemma collectSpans_ordered_disjoint_witness :
  let txt := js "virtual reality study" in
  let arr :=
    [(js "A", safeRegExp (js "(?:\bvirtual reality\b|\bvirtual\b)") true);
     (js "B", safeRegExp (js "(?:\breality\b)") true)] in
  exists k, collectSpans txt arr = Some [k] /\ (8 < end_ k)%Z.
Proof.
  intros txt arr.
  destruct (collectSpans_ordered_disjoint txt arr)
    as (spans & out & Hg & Hc & _ & _ & _ & _ & _ & _ & Hdrop).
  vm_compute in Hg. injection Hg as <-.
  destruct (Hdrop {| start := 8; end_ := 15; sblock := js "B";
                     text := js "reality" |}) as (k & Hk & Hlt).
  - right. left.
  - assert (Hout : collectSpans txt arr
                   = Some [{| start := 0; end_ := 15; sblock := js "A";
                              text := js "virtual reality" |}])
      by (vm_compute; reflexivity).
    rewrite Hout in Hc. injection Hc as <-.
    intros Hin. apply list_elem_of_singleton in Hin. discriminate.
  - assert (Hout : collectSpans txt arr
                   = Some [{| start := 0; end_ := 15; sblock := js "A";
                              text := js "virtual reality" |}])
      by (vm_compute; reflexivity).
    rewrite Hout in Hc. injection Hc as <-.
    apply list_elem_of_singleton in Hk. subst k.
    eexists. split; [exact Hout|]. simpl. lia.
Defined.

(** ** PatternCompiler *)

Section PatternFacts.

Lemma escExceptStarClass_cases c :
  escExceptStarClass c = true -> In c (js ".+?^${}()|[]\").
Proof.
  unfold escExceptStarClass. intros Hc.
  apply existsb_exists in Hc as (x & Hin & Hx).
  apply N.eqb_eq in Hx. by subst.
Qed.

Lemma metaClass_escExceptStarClass c : metaClass c = escExceptStarClass c.
Proof.
  unfold metaClass, escExceptStarClass.
  change (js "\.^$|()[]?+{}")
    with [92; 46; 94; 36; 124; 40; 41; 91; 93; 63; 43; 123; 125]%N.
  change (js ".+?^${}()|[]\")
    with [46; 43; 63; 94; 36; 123; 125; 40; 41; 124; 91; 93; 92]%N.
  cbn [existsb].
  repeat match goal with
         | |- context [(c =? ?k)%N] => destruct (N.eqb_spec c k) as [->|?]
         end; reflexivity.
Qed.

(** After [escExceptStar] the stars of the text are the only syntax
    characters that stand unescaped. *)
Lemma unescapedMeta_escExceptStar s :
  unescapedMeta (escExceptStar s) = List.filter (N.eqb (ch "*")) s.
Proof.
  induction s as [|c s IH]; [done|].
  change (escExceptStar (c :: s))
    with ((if escExceptStarClass c then [ch "\"; c] else [c])
            ++ escExceptStar s).
  destruct (escExceptStarClass c) eqn:Hc.
  - cbn [app unescapedMeta]. change (ch "\" =? ch "\")%N with true. cbn iota.
    rewrite IH. cbn [List.filter].
    destruct (N.eqb_spec (ch "*") c) as [<-|?]; [|done].
    vm_compute in Hc. discriminate.
  - cbn [app unescapedMeta List.filter]. rewrite IH.
    destruct (N.eqb_spec c (ch "\")) as [->|?];
      [vm_compute in Hc; discriminate|].
    destruct (N.eqb_spec (ch "*") c) as [<-|Hstar]; [done|].
    assert (Hall : escAllClass c = false).
    { unfold escAllClass, escExceptStarClass in *.
      change (js ".*+?^${}()|[]\")
        with (46 :: 42 :: js "+?^${}()|[]\")%N.
      change (js ".+?^${}()|[]\") with (46 :: js "+?^${}()|[]\")%N in Hc.
      cbn [existsb] in *.
      apply orb_false_iff in Hc as [-> ->].
      destruct (N.eqb_spec c 42) as [->|?]; [|done].
      by destruct Hstar. }
    by rewrite Hall.
Qed.

End PatternFacts.

(** The pattern of the literal term [a*b] keeps an unescaped star: it is
    not the literal text, and it hits ["aab"], where [a*b] does not
    occur.  So the rule for a term without a trailing star does not
    leave the term free of unescaped metacharacters. *)
Lemma literal_term_keeps_star :
  toSmartWordPattern (js "a*b") false = js "\ba*b\b"
  /\ unescapedMeta (escExceptStar (js "a*b")) = [ch "*"]
  /\ @regexp_test JsEngine
       (safeRegExp (toSmartWordPattern (js "a*b") false) true) (js "aab")
     = true
  /\ ~ (forall term,
          endsWith (ch "*") (trim term) = false ->
          unescapedMeta (escExceptStar (trim term)) = []).
Proof.
  split; [reflexivity|]. split; [reflexivity|]. split; [vm_compute; done|].
  intros Hall. specialize (Hall (js "a*b") eq_refl). discriminate.
Qed.

(** C7, amended.  The rules of the pattern compiler, on the trimmed term
    [t].  A regex-flagged term that contains one of the characters
    [\ . ^ $ | ( ) [ ] ? + { }] is its own pattern.  Otherwise a term that
    ends with a star loses that star and gives [\b<stem>[\w-]*], and every
    other term gives [\b<term>\b], where the stem or term is escaped by a
    backslash in front of each of these thirteen characters.  The star is
    not among them: after the escape the stars of the text are the only
    syntax characters that stand unescaped, and none stands unescaped when
    the text has no star.  The regex-flagged term [home*] compiles to
    [\bhome[\w-]*], which hits ["homemade setup"] and ["home."]. *)
Theorem pattern_compiler_rules (term : jsstring) (isRegex : bool) :
  let t := trim term in
  (isRegex = true -> hasRegexMeta t = true -> toSmartWordPattern term isRegex = t)
  /\ (isRegex && hasRegexMeta t = false -> endsWith (ch "*") t = true ->
      toSmartWordPattern term isRegex
      = js "\b" ++ escExceptStar (dropLast t) ++ js "[\w-]*")
  /\ (isRegex && hasRegexMeta t = false -> endsWith (ch "*") t = false ->
      toSmartWordPattern term isRegex = js "\b" ++ escExceptStar t ++ js "\b")
  /\ (hasRegexMeta t = true
      <-> exists c, c ∈ t /\ c ∈ js "\.^$|()[]?+{}")
  /\ (forall s, escExceptStar s
                = flat_map (fun c => if bool_decide (c ∈ js "\.^$|()[]?+{}")
                                     then [ch "\"; c] else [c]) s)
  /\ (forall s, unescapedMeta (escExceptStar s)
                = List.filter (N.eqb (ch "*")) s)
  /\ (forall s, ch "*" ∉ s -> unescapedMeta (escExceptStar s) = [])
  /\ toSmartWordPattern (js "home*") true = js "\bhome[\w-]*"
  /\ @regexp_test JsEngine
       (safeRegExp (toSmartWordPattern (js "home*") true) true)
       (js "homemade setup") = true
  /\ @regexp_test JsEngine
       (safeRegExp (toSmartWordPattern (js "home*") true) true)
       (js "home.") = true.
Proof.
  intros t.
  assert (Hcls : forall c, metaClass c = bool_decide (c ∈ js "\.^$|()[]?+{}")).
  { intros c. unfold metaClass. apply eq_true_iff_eq.
    rewrite existsb_exists, bool_decide_eq_true. split.
    - intros (x & Hin & Hx). apply N.eqb_eq in Hx. subst.
      by apply list_elem_of_In.
    - intros Hin. exists c. split; [by apply list_elem_of_In|apply N.eqb_refl]. }
  split; [|split; [|split; [|split; [|split; [|split; [|split; [|split]]]]]]].
  - intros -> Hm. unfold toSmartWordPattern. fold t. by rewrite Hm.
  - intros Hv Hs. unfold toSmartWordPattern. fold t. by rewrite Hv, Hs.
  - intros Hv Hs. unfold toSmartWordPattern. fold t. by rewrite Hv, Hs.
  - unfold hasRegexMeta. rewrite existsb_exists. split.
    + intros (c & Hin & Hc). exists c. split; [by apply list_elem_of_In|].
      rewrite Hcls in Hc. by apply bool_decide_eq_true in Hc.
    + intros (c & Hin & Hc). exists c. split; [by apply list_elem_of_In|].
      rewrite Hcls. by apply bool_decide_eq_true.
  - intros s. unfold escExceptStar, escapeWith.
    induction s as [|c s IH]; [done|]. cbn [flat_map].
    by rewrite IH, <- metaClass_escExceptStarClass, Hcls.
  - apply unescapedMeta_escExceptStar.
  - intros s Hs. rewrite unescapedMeta_escExceptStar.
    apply filter_nil_iff. intros c Hc.
    destruct (N.eqb_spec (ch "*") c) as [<-|?]; done.
  - reflexivity.
  - split; vm_compute; reflexivity.
Qed.

(** The three rules on sample terms. *)
Lemma pattern_compiler_rules_witness :
  toSmartWordPattern (js " participant[-\s]?owned HMD ") true
  = js "participant[-\s]?owned HMD"
  /\ toSmartWordPattern (js "crowdsourc*") false = js "\bcrowdsourc[\w-]*"
  /\ toSmartWordPattern (js "C++ (lang.)") false = js "\bC\+\+ \(lang\.\)\b".
Proof.
  split; [|split].
  - apply (proj1 (pattern_compiler_rules
                    (js " participant[-\s]?owned HMD ") true));
      vm_compute; reflexivity.
  - apply (proj1 (proj2 (pattern_compiler_rules (js "crowdsourc*") false)));
      vm_compute; reflexivity.
  - apply (proj1 (proj2 (proj2 (pattern_compiler_rules
                                  (js "C++ (lang.)") false))));
      vm_compute; reflexivity.
Defined.

(** ** QueryStringParser *)

Section QueryStringFacts.
Variable uid : nat -> jsstring.

Lemma splitStep_index kw s i c st : i <= snd (splitStep kw s i c st).
Proof.
  unfold splitStep.
  repeat match goal with
         | |- context [if ?b then _ else _] => destruct b
         end; simpl; lia.
Qed.

(** The bound on the turns of a splitting loop is never what stops it. *)
Lemma splitLoop_fuel kw s fuel i st :
  length s <= fuel + i ->
  splitLoop kw s (S fuel) i st = splitLoop kw s fuel i st.
Proof.
  revert i st. induction fuel as [|fuel IH]; intros i st Hlen.
  - simpl. rewrite (proj2 (lookup_ge_None s i)); [done|lia].
  - cbn [splitLoop]. destruct (s !! i) as [c|] eqn:Hc; [|done].
    pose proof (splitStep_index kw s i c st) as Hi.
    destruct (splitStep kw s i c st) as [st' i']. simpl in Hi.
    apply IH. lia.
Qed.

Lemma collapseFrom_spaces s :
  Forall (fun c => isSpace c = true) s ->
  collapseFrom true s = []
  /\ (s <> [] -> collapseFrom false s = [ch " "]).
Proof.
  induction 1 as [|c s Hc Hs [IH1 IH2]]; [done|].
  simpl. rewrite Hc, IH1. done.
Qed.

Lemma parse_spaces input :
  input <> [] -> Forall (fun c => isSpace c = true) input ->
  parseBooleanQuery uid input = Some {| pq_blocks := []; pq_operators := [] |}.
Proof.
  intros Hne Hsp. unfold parseBooleanQuery.
  destruct input as [|c input]; [done|].
  unfold collapseSpaces.
  rewrite (proj2 (collapseFrom_spaces _ Hsp)) by done.
  reflexivity.
Qed.

End QueryStringFacts.

(** A single space is parsed into a block model without blocks, and the
    paste replaces the three blocks of the configuration by none. *)
Lemma blank_query_not_null :
  parseBooleanQuery (fun _ => []) (js " ")
  = Some {| pq_blocks := []; pq_operators := [] |}
  /\ blocks (applyPastedQuery (fun _ => []) abcConfig (js " ")) = []
  /\ applyPastedQuery (fun _ => []) abcConfig (js " ") <> abcConfig.
Proof.
  split; [reflexivity|]. split; [reflexivity|].
  intros Heq. apply (f_equal blocks) in Heq. discriminate.
Qed.

(** C8, amended.  The query-string parser is total (it never raises) and
    answers null exactly on the empty input, in which case the paste
    leaves the configuration as it is.  An input made of white space only
    is not null: it yields a block model with no block and no operator. *)
Theorem query_parser_null (uid : nat -> jsstring) (input : jsstring) :
  (parseBooleanQuery uid input = None <-> input = [])
  /\ (forall cfg, input = [] -> applyPastedQuery uid cfg input = cfg)
  /\ (input <> [] -> Forall (fun c => isSpace c = true) input ->
      parseBooleanQuery uid input
      = Some {| pq_blocks := []; pq_operators := [] |})
  /\ (forall kw s fuel st,
        length s <= fuel ->
        splitLoop kw s fuel 0 st = splitLoop kw s (length s) 0 st).
Proof.
  split; [|split; [|split]].
  - unfold parseBooleanQuery.
    destruct input; split; intros Hq;
      [done|done|discriminate Hq|discriminate Hq].
  - by intros cfg ->.
  - apply parse_spaces.
  - intros kw s fuel st Hlen.
    induction Hlen as [|fuel Hle IH]; [done|].
    rewrite splitLoop_fuel; [exact IH|lia].
Qed.

Lemma query_parser_null_witness :
  parseBooleanQuery (fun _ => []) [9; 32; 10]%N
  = Some {| pq_blocks := []; pq_operators := [] |}.
Proof.
  apply (proj1 (proj2 (proj2 (query_parser_null (fun _ => []) [9; 32; 10]%N)))).
  - discriminate.
  - repeat constructor.
Defined.

Example query_parser_sample :
  (map (fun b => (name b, terms b, exclude b)) ∘ pq_blocks
     <$> parseBooleanQuery (fun _ => [])
           (js "(machine learning OR 'deep learning') AND NOT (survey OR review)"))
  = Some [(js "Group 1", [js "machine learning"; js "deep learning"], false);
          (js "Group 2", [js "survey"; js "review"], true)].
Proof. vm_compute. reflexivity. Qed.

(** ** EntryParser *)

Section EntryParserFacts.
Import JsRegExp JsRegExpFacts.

Lemma indexOfFrom_ge c s p i a : indexOfFrom c s p i = Some a -> i <= a.
Proof.
  revert p. induction s as [|d s IH]; intros p; simpl; [done|].
  destruct ((i <=? p) && (d =? c)%N) eqn:Hc.
  - intros [= <-]. apply andb_true_iff in Hc as [Hc _]. by apply Nat.leb_le.
  - apply IH.
Qed.

Lemma indexOfFrom_notin c s p i : c ∉ s -> indexOfFrom c s p i = None.
Proof.
  revert p. induction s as [|d s IH]; intros p Hn; simpl; [done|].
  apply not_elem_of_cons in Hn as [Hne Hn].
  destruct (N.eqb_spec d c) as [->|_]; [done|].
  rewrite andb_false_r. by apply IH.
Qed.

Lemma scanChunk_ge todo prv j depth inQuote :
  j <= scanChunk todo prv j depth inQuote.
Proof.
  revert prv j depth inQuote.
  induction todo as [|c todo IH]; intros prv j depth inQuote; simpl; [done|].
  repeat match goal with
         | |- context [if ?b then _ else _] => destruct b
         end;
    try (etransitivity; [|apply IH]); lia.
Qed.

Lemma minLen_headerRe : minLen headerRe = 3.
Proof. reflexivity. Qed.

Lemma minLen_fieldRe : minLen fieldRe = 4.
Proof. reflexivity. Qed.

(** The loop over the fields of a chunk comes to its end. *)
Lemma fieldsLoop_total fuel chunk lastIndex fields :
  0 < fuel -> length chunk + 2 <= fuel + lastIndex ->
  is_Some (fieldsLoop fuel chunk lastIndex fields).
Proof.
  revert lastIndex fields.
  induction fuel as [|fuel IH]; intros lastIndex fields Hpos Hfuel; [lia|].
  cbn [fieldsLoop]. destruct (length chunk <? lastIndex) eqn:Hlt; [eauto|].
  apply Nat.ltb_ge in Hlt.
  destruct (search flags_gis fieldRe chunk lastIndex) as [[i fm]|] eqn:Hs;
    [|eauto].
  apply search_progress in Hs as [Hfrom Hprog].
  rewrite minLen_fieldRe in Hprog.
  apply IH; lia.
Qed.

(** The loop over the text comes to its end. *)
Lemma parseLoop_total fuel src i entries :
  0 < fuel -> length src + 1 <= fuel + i ->
  is_Some (parseLoop fuel src i entries).
Proof.
  revert i entries.
  induction fuel as [|fuel IH]; intros i entries Hpos Hfuel; [lia|].
  cbn [parseLoop]. destruct (i <? length src) eqn:Hlt; [|eauto].
  apply Nat.ltb_lt in Hlt.
  destruct (indexOfFrom (ch "@") src 0 i) as [at_|] eqn:Hat; [|eauto].
  apply indexOfFrom_ge in Hat.
  destruct (search noFlags headerRe (drop at_ src) 0) as [[mi m]|] eqn:Hm.
  - apply search_progress in Hm as [_ Hprog].
    rewrite minLen_headerRe in Hprog.
    set (j0 := at_ + (pos m - mi)).
    pose proof (scanChunk_ge (drop j0 src)
                  (if j0 =? 0 then None else src !! (j0 - 1)) j0 1 false) as Hj.
    set (j := scanChunk _ _ j0 1 false) in *.
    assert (Hij : i < j) by (subst j0; lia).
    destruct (search flags_s citeKeyRe _ 0) as [[ki km]|].
    + destruct (fieldsLoop_total
                  (length (trim (take (j - at_) (drop at_ src))) + 2)
                  (trim (take (j - at_) (drop at_ src))) 0 ∅) as [fs Hfs];
        [lia|lia|].
      rewrite Hfs. apply IH; lia.
    + apply IH; lia.
  - apply IH; lia.
Qed.

Lemma parseLoop_no_at fuel src i entries :
  0 < fuel -> ch "@" ∉ src -> parseLoop fuel src i entries = Some entries.
Proof.
  intros Hpos Hn. destruct fuel as [|fuel]; [lia|]. cbn [parseLoop].
  destruct (i <? length src); [|done].
  by rewrite indexOfFrom_notin.
Qed.

Lemma trimStart_nil s :
  trimStart s = [] <-> Forall (fun c => isSpace c = true) s.
Proof.
  induction s as [|c s IH]; simpl; [by split|].
  destruct (isSpace c) eqn:Hc.
  - rewrite IH. split; [by constructor|]. by intros [_ ?]%Forall_cons.
  - split; [done|]. intros [Hc' _]%Forall_cons. congruence.
Qed.

Lemma trimStart_head s c s' : trimStart s = c :: s' -> isSpace c = false.
Proof.
  induction s as [|d s IH]; simpl; [done|].
  destruct (isSpace d) eqn:Hd; [done|]. by intros [= <- _].
Qed.

(** A text is blank exactly when it consists of white space. *)
Lemma trim_nil s : trim s = [] <-> Forall (fun c => isSpace c = true) s.
Proof.
  unfold trim, trimEnd. split.
  - intros Ht. apply trimStart_nil.
    destruct (trimStart s) as [|c s'] eqn:Hs; [done|].
    apply trimStart_head in Hs.
    assert (Hr : trimStart (rev (c :: s')) = []).
    { apply (f_equal (@rev N)) in Ht. by rewrite rev_involutive in Ht. }
    apply trimStart_nil in Hr. rewrite Forall_forall in Hr.
    rewrite (Hr c) in Hs; [done|].
    apply list_elem_of_In, in_rev. rewrite rev_involutive. by left.
  - intros Hs. apply trimStart_nil in Hs. by rewrite Hs.
Qed.

Lemma spaces_no_at s : Forall (fun c => isSpace c = true) s -> ch "@" ∉ s.
Proof.
  intros Hs Hin. rewrite Forall_forall in Hs. by apply Hs in Hin.
Qed.

End EntryParserFacts.

(** A text of one space is not empty and holds no chunk, and yet the
    parser returns the empty sequence instead of raising. *)
Lemma blank_text_does_not_raise :
  js " " <> [] /\ extracted (js " ") = []
  /\ parseBibtexEntries (js " ") = Returns [].
Proof. split; [done|]. split; reflexivity. Qed.

(** C3, amended.  The entry parser is total: its loops come to an end on
    every text.  It raises exactly when it extracted nothing from a text
    that is not blank (one that holds something else than white space);
    on an empty or blank text it returns the empty sequence, and
    otherwise it returns the extracted entries.  In particular a text
    without any [@] returns the empty sequence when it is blank and
    raises when it is not.  Malformed candidates are skipped and an
    unterminated chunk still yields its entry. *)
Theorem entry_parser_total (text : jsstring) :
  parseLoop (S (length text)) text 0 [] = Some (extracted text)
  /\ parseBibtexEntries text
     = (if (length (extracted text) =? 0) && (0 <? length (trim text))
        then Throws else Returns (extracted text))
  /\ (parseBibtexEntries text = Throws
      <-> extracted text = [] /\ trim text <> [])
  /\ (text = [] -> parseBibtexEntries text = Returns [])
  /\ (trim text = [] -> parseBibtexEntries text = Returns [])
  /\ (ch "@" ∉ text -> trim text <> [] -> parseBibtexEntries text = Throws)
  /\ (extracted text <> [] ->
      parseBibtexEntries text = Returns (extracted text)).
Proof.
  assert (Hloop : parseLoop (S (length text)) text 0 []
                  = Some (extracted text)).
  { unfold extracted.
    destruct (parseLoop_total
                (S (length text)) text 0 []) as [es Hes]; [lia|lia|].
    by rewrite Hes. }
  assert (Hres : parseBibtexEntries text
                 = (if (length (extracted text) =? 0)
                       && (0 <? length (trim text))
                    then Throws else Returns (extracted text))).
  { unfold parseBibtexEntries. by rewrite Hloop. }
  assert (Hblank : trim text = [] -> parseBibtexEntries text = Returns []).
  { intros Ht. rewrite Hres, Ht.
    assert (Hex : extracted text = []).
    { unfold extracted.
      rewrite parseLoop_no_at; [done|lia|].
      by apply spaces_no_at, trim_nil. }
    by rewrite Hex. }
  split; [done|]. split; [done|]. split; [|split; [|split; [|split]]].
  - rewrite Hres.
    destruct (extracted text) as [|e es]; destruct (trim text) as [|c t];
      simpl; split; try done; by intros [? ?].
  - intros ->. by apply Hblank.
  - exact Hblank.
  - intros Hat Hne. rewrite Hres.
    assert (Hex : extracted text = []).
    { unfold extracted.
      rewrite parseLoop_no_at; [done|lia|done]. }
    rewrite Hex. destruct (trim text); done.
  - intros Hne. rewrite Hres. destruct (extracted text); done.
Qed.

Lemma entry_parser_total_witness :
  parseBibtexEntries (js "see page 12, no entries here") = Throws.
Proof.
  apply (proj1 (proj2 (proj2 (proj2 (proj2 (proj2
           (entry_parser_total (js "see page 12, no entries here")))))))).
  - apply (bool_decide_unpack _). vm_compute. exact I.
  - vm_compute. discriminate.
Defined.

(** An [@] that starts no header is noise, and a chunk that is never
    closed still yields its entry. *)
Example entry_parser_tolerant :
  (map (fun e : Entry => (e !! js "entry_type", e !! js "citekey",
                          e !! js "title"))
     (extracted (js "mail me @ home @article{k1, title={Open {VR}")))
  = [(Some (js "article"), Some (js "k1"), None)]
  /\ (map (fun e : Entry => (e !! js "citekey", e !! js "title"))
        (extracted (js "@book{b1, Title = {On {VR}}, year=2020}")))
     = [(Some (js "b1"), Some (js "On {VR}"))].
Proof. vm_compute. split; reflexivity. Qed.

(** * Further properties *)

(** ** The evaluator, further *)

Section MoreEvaluatorFacts.
Context `{RegExpEngine}.

Lemma fold_all_and (f : Compiled -> bool) ops cs v0 :
  Forall (fun o => o = AND) ops ->
  foldLeftToRight ops v0 (map f cs)
  = v0 && forallb f (take (length ops) cs).
Proof.
  unfold foldLeftToRight.
  intros Hall. revert cs v0.
  induction Hall as [|o ops -> _ IH]; intros cs v0.
  - simpl. by rewrite andb_true_r.
  - destruct cs as [|c cs]; simpl.
    + by rewrite andb_true_r.
    + rewrite IH. by rewrite andb_assoc.
Qed.

Lemma fold_all_or (f : Compiled -> bool) ops cs v0 :
  Forall (fun o => o = OR) ops ->
  foldLeftToRight ops v0 (map f cs)
  = v0 || existsb f (take (length ops) cs).
Proof.
  unfold foldLeftToRight.
  intros Hall. revert cs v0.
  induction Hall as [|o ops -> _ IH]; intros cs v0.
  - simpl. by rewrite orb_false_r.
  - destruct cs as [|c cs]; simpl.
    + by rewrite orb_false_r.
    + rewrite IH. by rewrite orb_assoc.
Qed.

Lemma combine_take_eq {A B} (l1 l1' : list A) (l2 : list B) :
  take (length l2) l1 = take (length l2) l1' -> combine l1 l2 = combine l1' l2.
Proof.
  revert l1 l1'. induction l2 as [|b l2 IH]; intros l1 l1' Ht.
  - by destruct l1, l1'.
  - destruct l1 as [|a l1], l1' as [|a' l1']; simpl in *; try done.
    injection Ht as -> Ht. by rewrite (IH l1 l1').
Qed.

Lemma termHits_sim c c' t : samePatterns c c' -> termHits c t = termHits c' t.
Proof. intros (_ & Ht & Hr). unfold termHits. by rewrite Ht, Hr. Qed.

Lemma blockFired_sim texts c c' :
  samePatterns c c' -> blockFired texts c = blockFired texts c'.
Proof.
  intros Hs. unfold blockFired. induction texts as [|ft texts IH]; [done|].
  simpl. by rewrite IH, (termHits_sim c c').
Qed.

Lemma blockHits_sim texts c c' :
  samePatterns c c' -> blockHits texts c = blockHits texts c'.
Proof.
  intros Hs. unfold blockHits. generalize noFieldHits.
  induction texts as [|ft texts IH]; intros p; [done|].
  simpl. by rewrite IH, (termHits_sim c c').
Qed.

Lemma contribution_sim texts c c' :
  samePatterns c c' -> contribution texts c = contribution texts c'.
Proof.
  intros Hs. unfold contribution.
  rewrite (blockFired_sim texts c c') by done.
  destruct Hs as (-> & _). done.
Qed.

Lemma recordBlock_sim texts acc c c' :
  samePatterns c c' -> cname c = cname c' ->
  recordBlock texts acc c = recordBlock texts acc c'.
Proof.
  intros Hs Hn. unfold recordBlock, recorded.
  rewrite (blockFired_sim texts c c'), (blockHits_sim texts c c'), Hn by done.
  destruct Hs as (-> & _). done.
Qed.

Lemma compileBlock_usable flags idx b :
  (usableBlock b = false -> compileBlock flags idx b = None)
  /\ (usableBlock b = true ->
      exists c, compileBlock flags idx b = Some c /\ index c = idx
                /\ cname c = blockName b idx /\ block c = b
                /\ cterms c
                   = List.filter (fun t => 0 <? length (trim t)) (terms b)
                /\ regexes c
                   = map (fun t => safeRegExp (toSmartWordPattern t (isRegex b))
                                              flags)
                         (cterms c)).
Proof.
  unfold usableBlock, compileBlock, nonEmpty.
  destruct (List.filter _ (terms b)) as [|t ts]; simpl; split; try done.
  intros _. eexists. split; [done|]. done.
Qed.

Lemma compile_filter (R : Compiled -> Compiled -> Prop)
    (f g : nat -> Block -> option Compiled) bs :
  (forall i b, usableBlock b = false -> f i b = None) ->
  (forall i j b, usableBlock b = true ->
                 exists c c', f i b = Some c /\ g j b = Some c' /\ R c c') ->
  Forall2 R (omap (fun x => x) (imap f bs))
            (omap (fun x => x) (imap g (List.filter usableBlock bs))).
Proof.
  revert f g. induction bs as [|b bs IH]; intros f g Hn Hs.
  - constructor.
  - cbn [List.filter imap].
    change (omap (fun x => x) (f 0 b :: imap (f ∘ S) bs))
      with (match f 0 b with
            | Some y => y :: omap (fun x => x) (imap (f ∘ S) bs)
            | None => omap (fun x => x) (imap (f ∘ S) bs)
            end).
    destruct (usableBlock b) eqn:Hu.
    + destruct (Hs 0 0 b Hu) as (c & c' & Hf & Hg & HR).
      cbn [imap].
      change (omap (fun x => x)
                   (g 0 b :: imap (g ∘ S) (List.filter usableBlock bs)))
        with (match g 0 b with
              | Some y => y :: omap (fun x => x)
                                    (imap (g ∘ S) (List.filter usableBlock bs))
              | None => omap (fun x => x)
                             (imap (g ∘ S) (List.filter usableBlock bs))
              end).
      rewrite Hf, Hg. constructor; [done|].
      apply IH.
      * intros i b'. apply Hn.
      * intros i j b'. apply Hs.
    + rewrite (Hn 0 b Hu). apply IH.
      * intros i b'. apply Hn.
      * intros i j b'. apply Hs.
Qed.

Lemma elem_of_compileBlocks cfg c :
  c ∈ compileBlocks cfg
  <-> exists i b, blocks cfg !! i = Some b
                  /\ compileBlock (caseInsensitive cfg) i b = Some c.
Proof.
  unfold compileBlocks. rewrite list_elem_of_omap. split.
  - intros (x & Hx & Hc). apply elem_of_lookup_imap in Hx as (i & b & -> & Hb).
    eauto.
  - intros (i & b & Hb & Hc). exists (Some c). split; [|done].
    apply elem_of_lookup_imap. exists i, b. done.
Qed.

Lemma termHits_subseteq c t term : term ∈ termHits c t -> term ∈ cterms c.
Proof.
  unfold termHits. intros Hin.
  apply list_elem_of_fmap in Hin as ([re tm] & -> & Hin).
  apply list_elem_of_In, filter_In in Hin as [Hin _].
  apply in_combine_r in Hin. by apply list_elem_of_In.
Qed.

Lemma detailed_origin cfg fs sel n h :
  detailed (evaluateQueryOnText cfg fs sel) !! n = Some h ->
  exists c, c ∈ compileBlocks cfg /\ cname c = n
            /\ recorded (selectedTexts fs sel) c = true
            /\ h = blockHits (selectedTexts fs sel) c.
Proof.
  intros Hl.
  destruct (evaluate_results cfg fs sel) as [_ Hrec].
  replace (detailed _) with (snd (matchedBlocks (evaluateQueryOnText cfg fs sel),
                                  detailed (evaluateQueryOnText cfg fs sel)))
    in Hl by done.
  rewrite Hrec in Hl.
  apply fold_recordBlock_lookup in Hl as [Hl|(c & Hin & Hn & Hr & Hh)].
  - simpl in Hl. by rewrite lookup_empty in Hl.
  - exists c. split; [|done]. revert Hin. apply subseteq_take.
Qed.

Lemma blockHits_fields c fs sel f :
  fieldEntry f (blockHits (selectedTexts fs sel) c)
  = if fieldSelected f sel && nonEmpty (fieldText f fs)
       && nonEmpty (termHits c (fieldText f fs))
    then Some (termHits c (fieldText f fs)) else None.
Proof.
  unfold blockHits, selectedTexts. cbn [fold_left fst snd].
  destruct f; cbn [fieldSelected fieldText];
    destruct (sf_title sel), (sf_abstract sel), (sf_keywords sel);
    cbn [andb];
    change (nonEmpty (@nil N)) with false; cbn [andb];
    repeat match goal with
           | |- context [nonEmpty ?x && nonEmpty ?y] =>
               destruct (nonEmpty x && nonEmpty y) eqn:?
           end; done.
Qed.

Lemma blockFired_fields c fs sel :
  blockFired (selectedTexts fs sel) c = true ->
  exists f, fieldSelected f sel && nonEmpty (fieldText f fs)
            && nonEmpty (termHits c (fieldText f fs)) = true.
Proof.
  unfold blockFired, selectedTexts. cbn [existsb fst snd].
  intros Hb. apply orb_true_iff in Hb as [Hb|Hb];
    [|apply orb_true_iff in Hb as [Hb|Hb];
      [|apply orb_true_iff in Hb as [Hb|Hb]; [|done]]].
  - exists Title. cbn [fieldSelected fieldText]. by destruct (sf_title sel).
  - exists Abstract. cbn [fieldSelected fieldText]. by destruct (sf_abstract sel).
  - exists Keywords. cbn [fieldSelected fieldText]. by destruct (sf_keywords sel).
Qed.

End MoreEvaluatorFacts.

Section MoreEvaluator.
Context `{RegExpEngine}.

(** X1. When every block has its operator: a query whose operators are
    all AND matches a record exactly when every usable block contributes
    true (fired, or did not fire for an excluded block), and a query with
    a usable block whose operators are all OR matches exactly when some
    usable block contributes true. *)
Theorem evaluate_all_and_all_or (cfg : QueryConfig) (fs : Fields)
    (sel : SearchFields) :
  let texts := selectedTexts fs sel in
  let cs := compileBlocks cfg in
  let res := evaluateQueryOnText cfg fs sel in
  length (blocks cfg) <= S (length (operators cfg)) ->
  (Forall (fun o => o = AND) (operators cfg) ->
   val res = forallb (contribution texts) cs)
  /\ (Forall (fun o => o = OR) (operators cfg) -> cs <> [] ->
      val res = existsb (contribution texts) cs).
Proof.
  intros texts cs res Hlen.
  destruct (evaluate_results cfg fs sel) as [Hval _].
  fold texts in Hval. fold res in Hval. fold cs in Hval.
  pose proof (length_compileBlocks cfg) as Hlc. fold cs in Hlc.
  split.
  - intros Hall. rewrite Hval. destruct cs as [|c0 cs']; [done|].
    rewrite fold_all_and by done. simpl in Hlc.
    rewrite take_ge by lia. done.
  - intros Hall Hne. rewrite Hval. destruct cs as [|c0 cs']; [done|].
    rewrite fold_all_or by done. simpl in Hlc.
    rewrite take_ge by lia. done.
Qed.

(** X2. Operators are taken by the position of the usable blocks, not by
    the position of the blocks of the configuration: the value of a query
    is the value of the query without its unusable blocks (those with no
    term that is not blank) and with the operator list untouched, so the
    operator written behind an unusable block is not the one that joins
    its neighbours.  When every block is named, the matched names and the
    hit map agree as well. *)
Theorem operators_apply_by_usable_position (cfg : QueryConfig) (fs : Fields)
    (sel : SearchFields) :
  let cfg' := withBlocks cfg (List.filter usableBlock (blocks cfg)) in
  val (evaluateQueryOnText cfg fs sel) = val (evaluateQueryOnText cfg' fs sel)
  /\ ((forall b, b ∈ blocks cfg -> name b <> []) ->
      evaluateQueryOnText cfg fs sel = evaluateQueryOnText cfg' fs sel).
Proof.
  intros cfg'.
  destruct (evaluate_results cfg fs sel) as [Hval Hrec].
  destruct (evaluate_results cfg' fs sel) as [Hval' Hrec'].
  change (operators cfg') with (operators cfg) in *.
  set (texts := selectedTexts fs sel) in *.
  assert (HF : Forall2 (fun c c' => samePatterns c c'
                          /\ (name (block c) <> [] -> cname c = cname c'))
                       (compileBlocks cfg) (compileBlocks cfg')).
  { apply compile_filter.
    - intros i b. apply compileBlock_usable.
    - intros i j b Hu.
      destruct (proj2 (compileBlock_usable (caseInsensitive cfg) i b) Hu)
        as (c & Hc & _ & Hn & Hb & Ht & Hr).
      destruct (proj2 (compileBlock_usable (caseInsensitive cfg) j b) Hu)
        as (c' & Hc' & _ & Hn' & Hb' & Ht' & Hr').
      exists c, c'. split; [done|]. split; [done|].
      split; [repeat split; congruence|].
      rewrite Hn, Hn', Hb. unfold blockName. by destruct (name b). }
  assert (Hv : val (evaluateQueryOnText cfg fs sel)
               = val (evaluateQueryOnText cfg' fs sel)).
  { rewrite Hval, Hval'.
    destruct HF as [|c c' cs cs' [Hs _] HF]; [done|].
    rewrite (contribution_sim texts c c') by done.
    f_equal. clear -HF.
    induction HF as [|a a' l l' [Ha _] _ IH]; [done|].
    simpl. by rewrite IH, (contribution_sim texts a a'). }
  split; [exact Hv|].
  intros Hnames.
  assert (Hp : (matchedBlocks (evaluateQueryOnText cfg fs sel),
                detailed (evaluateQueryOnText cfg fs sel))
               = (matchedBlocks (evaluateQueryOnText cfg' fs sel),
                  detailed (evaluateQueryOnText cfg' fs sel))).
  { rewrite Hrec, Hrec'. unfold visited.
    assert (Hin : forall c, c ∈ compileBlocks cfg -> name (block c) <> []).
    { intros c Hc. apply elem_of_compileBlocks in Hc as (i & b & Hb & Hc).
      destruct (usableBlock b) eqn:Hu.
      - destruct (proj2 (compileBlock_usable (caseInsensitive cfg) i b) Hu)
          as (c0 & Hc0 & _ & _ & Hb0 & _).
        rewrite Hc in Hc0. injection Hc0 as <-. rewrite Hb0.
        apply Hnames, list_elem_of_lookup. eauto.
      - by rewrite (proj1 (compileBlock_usable _ i b) Hu) in Hc. }
    revert Hin. generalize (S (length (operators cfg))).
    generalize (@nil jsstring, (∅ : gmap jsstring FieldHits)).
    clear -HF. induction HF as [|a a' l l' [Ha Hn] _ IH]; intros acc n Hin.
    - done.
    - destruct n as [|n]; [done|]. simpl.
      rewrite (recordBlock_sim texts acc a a');
        [|done|apply Hn, Hin; left].
      apply IH. intros c Hc. apply Hin. by right. }
  injection Hp as Hm Hd.
  destruct (evaluateQueryOnText cfg fs sel), (evaluateQueryOnText cfg' fs sel).
  simpl in *. congruence.
Qed.

(** X3. Every entry of the hit map is the entry of a usable block that
    is not excluded, under the name of that block.  For each field the
    entry holds a list exactly when the field is selected, its text is not
    empty and a term of the block hits it; the list is then the terms
    that hit, it is never empty, and every term in it is a configured term
    of the block that is not blank.  An entry always holds a list. *)
Theorem hit_lists_well_formed (cfg : QueryConfig) (fs : Fields)
    (sel : SearchFields) (n : jsstring) (h : FieldHits) :
  let res := evaluateQueryOnText cfg fs sel in
  detailed res !! n = Some h ->
  exists c,
    c ∈ compileBlocks cfg /\ cname c = n /\ exclude (block c) = false
    /\ (forall f,
          fieldEntry f h
          = if fieldSelected f sel && nonEmpty (fieldText f fs)
               && nonEmpty (termHits c (fieldText f fs))
            then Some (termHits c (fieldText f fs)) else None)
    /\ (forall f l, fieldEntry f h = Some l ->
                    l <> []
                    /\ forall t, t ∈ l -> t ∈ terms (block c) /\ trim t <> [])
    /\ (exists f l, fieldEntry f h = Some l).
Proof.
  intros res Hl. apply detailed_origin in Hl as (c & Hc & Hn & Hr & ->).
  exists c. unfold recorded in Hr. apply andb_true_iff in Hr as [Hex Hf].
  split; [done|]. split; [done|]. split; [by destruct (exclude (block c))|].
  split; [|split].
  - intros f. apply blockHits_fields.
  - intros f l. rewrite blockHits_fields.
    destruct (_ && _) eqn:Hcond; [|done]. intros [= <-].
    apply andb_true_iff in Hcond as [_ Hne].
    split; [intros Heq; by rewrite Heq in Hne|].
    intros t Ht. apply termHits_subseteq in Ht.
    apply elem_of_compileBlocks in Hc as (i & b & Hb & Hc).
    destruct (usableBlock b) eqn:Hu.
    + destruct (proj2 (compileBlock_usable (caseInsensitive cfg) i b) Hu)
        as (c0 & Hc0 & _ & _ & Hb0 & Ht0 & _).
      rewrite Hc in Hc0. injection Hc0 as <-. rewrite Ht0 in Ht.
      apply list_elem_of_In, filter_In in Ht as [Ht Hnb].
      rewrite Hb0. split; [by apply list_elem_of_In|].
      intros Heq. by rewrite Heq in Hnb.
    + by rewrite (proj1 (compileBlock_usable _ i b) Hu) in Hc.
  - apply blockFired_fields in Hf as [f Hf]. exists f.
    eexists. rewrite blockHits_fields, Hf. done.
Qed.

(** X15. Adding a block at the end of a query in which every block has
    its operator changes no result: the new block has no usable term, and
    the operator added for it is never reached. *)
Theorem addBlockAt_end_keeps_results (newId : jsstring) (cfg : QueryConfig)
    (fs : Fields) (sel : SearchFields) :
  length (blocks cfg) <= S (length (operators cfg)) ->
  evaluateQueryOnText (addBlockAt newId (length (blocks cfg)) cfg) fs sel
  = evaluateQueryOnText cfg fs sel.
Proof.
  intros Hlen. unfold evaluateQueryOnText.
  set (cfg' := addBlockAt newId (length (blocks cfg)) cfg).
  assert (Hcs : compileBlocks cfg' = compileBlocks cfg).
  { unfold compileBlocks. subst cfg'. unfold addBlockAt.
    cbn [blocks caseInsensitive].
    rewrite firstn_all, drop_all, imap_app, omap_app. simpl.
    by rewrite app_nil_r. }
  rewrite Hcs. pose proof (length_compileBlocks cfg) as Hlc.
  destruct (compileBlocks cfg) as [|c0 cs]; [done|].
  unfold matchesByFields.
  destruct (blockHitAtLeastOne _ c0 ∅) as [firstHit d].
  rewrite !evalLoop_fold, !drop_0, !firstn_all.
  f_equal. simpl in Hlc. subst cfg'. unfold addBlockAt. cbn [operators].
  destruct (length (blocks cfg)) as [|n] eqn:Hn; [lia|].
  cbn [Nat.eqb]. apply combine_take_eq.
  change (drop (0 + 1) (c0 :: cs)) with cs.
  rewrite take_app_le by (rewrite length_take; lia).
  rewrite take_take. f_equal. lia.
Qed.

End MoreEvaluator.

(** ** Editing the blocks *)

Section BlockEditing.

Lemma filter_id_delete (i : jsstring) (bs : list Block) idx b :
  NoDup (map id bs) -> bs !! idx = Some b -> id b = i ->
  List.filter (fun b => negb (eqs (id b) i)) bs = delete idx bs.
Proof.
  revert idx. induction bs as [|a bs IH]; intros idx Hnd Hl Hi; [done|].
  simpl in Hnd. apply NoDup_cons in Hnd as [Ha Hnd].
  destruct idx as [|idx]; simpl in Hl.
  - injection Hl as ->. simpl. unfold eqs at 1.
    rewrite bool_decide_eq_true_2 by done. simpl.
    clear IH. subst i.
    induction bs as [|c bs IH]; [done|]. simpl.
    apply not_elem_of_cons in Ha as [Hne Ha].
    apply NoDup_cons in Hnd as [_ Hnd].
    unfold eqs at 1. rewrite bool_decide_eq_false_2 by done. simpl.
    by rewrite IH.
  - simpl. unfold eqs at 1. rewrite bool_decide_eq_false_2.
    + simpl. by rewrite (IH idx).
    + intros Heq. apply Ha. rewrite Heq, <- Hi.
      apply list_elem_of_fmap. exists b. split; [done|].
      apply list_elem_of_lookup. eauto.
Qed.

Lemma filter_id_fresh (i : jsstring) (bs : list Block) :
  i ∉ map id bs -> List.filter (fun b => negb (eqs (id b) i)) bs = bs.
Proof.
  induction bs as [|a bs IH]; intros Hn; [done|]. simpl in *.
  apply not_elem_of_cons in Hn as [Hne Hn].
  unfold eqs at 1. rewrite bool_decide_eq_false_2 by done. simpl.
  by rewrite IH.
Qed.

(** X16. With ids that differ, removing the block at position [idx] by
    its id removes that block alone and the operator in front of it (the
    first operator for the first block); a query in which every block has
    its operator stays one, and a query of two or more blocks with exactly
    one operator between neighbours stays one. *)
Theorem removeBlock_drops_block_and_operator (i : jsstring) (idx : nat)
    (cfg : QueryConfig) (b : Block) :
  NoDup (map id (blocks cfg)) ->
  blocks cfg !! idx = Some b -> id b = i ->
  let cfg' := removeBlock i idx cfg in
  blocks cfg' = delete idx (blocks cfg)
  /\ operators cfg' = delete (idx - 1) (operators cfg)
  /\ (length (blocks cfg) <= S (length (operators cfg)) ->
      length (blocks cfg') <= S (length (operators cfg')))
  /\ (length (blocks cfg) = S (length (operators cfg)) ->
      2 <= length (blocks cfg) ->
      length (blocks cfg') = S (length (operators cfg'))).
Proof.
  intros Hnd Hl Hi cfg'.
  assert (Hb : blocks cfg' = delete idx (blocks cfg)).
  { subst cfg'. unfold removeBlock. cbn [blocks].
    by apply (filter_id_delete i _ idx b). }
  assert (Ho : operators cfg' = delete (idx - 1) (operators cfg)).
  { subst cfg'. unfold removeBlock. cbn [operators].
    destruct (operators cfg) as [|o ops]; [done|].
    cbn [length Nat.ltb Nat.leb].
    destruct idx as [|idx]; [done|]. done. }
  apply lookup_lt_Some in Hl.
  split; [done|]. split; [done|].
  rewrite Hb, Ho, !delete_take_drop, !length_app, !length_take, !length_drop.
  split; intros; lia.
Qed.

(** X17. Adding a block at a position and removing it again gives back
    the blocks, but not always the operators: when the block was added
    behind the first block and in front of the last operator slot, the
    operator in front of it has become AND, whatever it was. *)
Theorem addBlockAt_then_removeBlock (newId : jsstring) (index : nat)
    (cfg : QueryConfig) :
  newId ∉ map id (blocks cfg) ->
  index <= length (blocks cfg) ->
  length (blocks cfg) = S (length (operators cfg)) ->
  let cfg' := removeBlock newId index (addBlockAt newId index cfg) in
  blocks cfg' = blocks cfg
  /\ operators cfg'
     = (if (0 <? index) && (index <=? length (operators cfg))
        then <[index - 1 := AND]> (operators cfg)
        else operators cfg).
Proof.
  intros Hfresh Hidx Hlen cfg'. subst cfg'.
  unfold removeBlock, addBlockAt. cbn [blocks operators]. split.
  - rewrite List.filter_app. cbn [List.filter app id].
    unfold eqs at 2. rewrite bool_decide_eq_true_2 by done. cbn [negb].
    rewrite <- List.filter_app, take_drop. by apply filter_id_fresh.
  - destruct index as [|index]; [done|].
    change (S index =? 0) with false. change (0 <? S index) with true.
    cbn [andb]. cbv iota.
    replace (S index - 1) with index by lia.
    assert (Hpos : (0 <? length (take (S index) (operators cfg) ++ [AND]
                                 ++ drop (S index) (operators cfg))) = true).
    { apply Nat.ltb_lt. rewrite !length_app. simpl. lia. }
    rewrite Hpos.
    destruct (S index <=? length (operators cfg)) eqn:Hle.
    + apply Nat.leb_le in Hle.
      destruct (lookup_lt_is_Some_2 (operators cfg) index) as [o Ho]; [lia|].
      pose proof (take_drop_middle _ _ _ Ho) as Hsplit.
      assert (Hl1 : length (take index (operators cfg)) = index)
        by (rewrite length_take; lia).
      revert Hsplit Hl1.
      generalize (take index (operators cfg)) (drop (S index) (operators cfg)).
      intros l1 l2 <- <-.
      replace (take (S (length l1)) (l1 ++ o :: l2)) with (l1 ++ [o]).
      2:{ change (l1 ++ o :: l2) with (l1 ++ [o] ++ l2).
          rewrite app_assoc. rewrite take_app_length'; [done|].
          rewrite length_app. simpl. lia. }
      replace (drop (S (length l1)) (l1 ++ o :: l2)) with l2.
      2:{ change (l1 ++ o :: l2) with (l1 ++ [o] ++ l2).
          rewrite app_assoc. rewrite drop_app_length'; [done|].
          rewrite length_app. simpl. lia. }
      rewrite <- app_assoc. cbn [app].
      rewrite delete_middle.
      rewrite insert_app_r_alt by lia.
      replace (length l1 - length l1) with 0 by lia. done.
    + apply Nat.leb_gt in Hle.
      rewrite take_ge, drop_ge by lia. simpl.
      assert (index = length (operators cfg)) as -> by lia.
      rewrite delete_middle. by rewrite app_nil_r.
Qed.

End BlockEditing.

(** ** The query-string parser and the evaluator *)

Section StringFacts.

Lemma trimStart_fixed c s : isSpace c = false -> trimStart (c :: s) = c :: s.
Proof. intros Hc. simpl. by rewrite Hc. Qed.

Lemma trimStart_idem s : trimStart (trimStart s) = trimStart s.
Proof.
  induction s as [|c s IH]; [done|]. simpl.
  destruct (isSpace c) eqn:Hc; [done|]. by apply trimStart_fixed.
Qed.

Lemma trimStart_snoc l c :
  isSpace c = false -> trimStart (l ++ [c]) = trimStart l ++ [c].
Proof.
  intros Hc. induction l as [|d l IH]; simpl.
  - by rewrite Hc.
  - by destruct (isSpace d).
Qed.

Lemma trimEnd_cons c s :
  isSpace c = false -> trimEnd (c :: s) = c :: trimEnd s.
Proof.
  intros Hc. unfold trimEnd. simpl.
  rewrite trimStart_snoc by done. by rewrite rev_app_distr.
Qed.

Lemma trimEnd_idem s : trimEnd (trimEnd s) = trimEnd s.
Proof. unfold trimEnd. by rewrite rev_involutive, trimStart_idem. Qed.

Lemma trim_idem s : trim (trim s) = trim s.
Proof.
  unfold trim. destruct (trimStart s) as [|c s'] eqn:Hs; [done|].
  apply trimStart_head in Hs.
  rewrite trimEnd_cons by done.
  rewrite trimStart_fixed by done.
  rewrite <- trimEnd_cons by done. apply trimEnd_idem.
Qed.

Lemma trim_head c s :
  isSpace c = false -> exists s', trim (c :: s) = c :: s'.
Proof.
  intros Hc. unfold trim. rewrite trimStart_fixed by done.
  rewrite trimEnd_cons by done. eauto.
Qed.

Lemma trim_head_nonspace s c s' : trim s = c :: s' -> isSpace c = false.
Proof.
  unfold trim. destruct (trimStart s) as [|d r] eqn:Hs; [done|].
  apply trimStart_head in Hs. rewrite trimEnd_cons by done.
  by intros [= <- _].
Qed.

Lemma trimStart_spaces_app pre x :
  Forall (fun c => isSpace c = true) pre ->
  trimStart (pre ++ x) = trimStart x.
Proof. induction 1 as [|c pre Hc _ IH]; [done|]. simpl. by rewrite Hc. Qed.

Lemma trimEnd_app_spaces x post :
  Forall (fun c => isSpace c = true) post ->
  trimEnd (x ++ post) = trimEnd x.
Proof.
  intros Hpost. unfold trimEnd. rewrite rev_app_distr. f_equal.
  apply trimStart_spaces_app. apply Forall_forall. intros c Hc.
  rewrite Forall_forall in Hpost. apply Hpost.
  apply list_elem_of_In. apply list_elem_of_In, in_rev in Hc. done.
Qed.

Lemma trim_padded s pre post :
  Forall (fun c => isSpace c = true) pre ->
  Forall (fun c => isSpace c = true) post ->
  trim (pre ++ trim s ++ post) = trim s.
Proof.
  intros Hpre Hpost. pose proof (trim_idem s) as Hi.
  destruct (trim s) as [|c r] eqn:Ht.
  - cbn [app]. unfold trim. rewrite trimStart_spaces_app by done.
    by rewrite (proj2 (trimStart_nil post) Hpost).
  - pose proof (trim_head_nonspace _ _ _ Ht) as Hc.
    unfold trim in Hi |- *. rewrite trimStart_fixed in Hi by done.
    rewrite trimStart_spaces_app by done.
    change ((c :: r) ++ post) with (c :: (r ++ post)).
    rewrite trimStart_fixed by done.
    change (c :: (r ++ post)) with ((c :: r) ++ post).
    by rewrite trimEnd_app_spaces.
Qed.

Lemma readNat_digitsFuel fuel n acc :
  n < fuel ->
  fold_left (fun a c => 10 * a + N.to_nat (c - 48)) (digitsFuel fuel n acc) 0
  = fold_left (fun a c => 10 * a + N.to_nat (c - 48)) acc n.
Proof.
  revert n acc. induction fuel as [|fuel IH]; intros n acc Hn; [lia|].
  cbn [digitsFuel].
  assert (Hd : N.to_nat (48 + N.of_nat (n mod 10) - 48) = n mod 10) by lia.
  destruct (n / 10 =? 0) eqn:Hq.
  - apply Nat.eqb_eq in Hq. cbn [fold_left]. rewrite Hd. f_equal.
    pose proof (Nat.div_mod_eq n 10). lia.
  - apply Nat.eqb_neq in Hq.
    rewrite IH.
    + cbn [fold_left]. rewrite Hd. f_equal.
      pose proof (Nat.div_mod_eq n 10). lia.
    + pose proof (Nat.div_mod_eq n 10). lia.
Qed.

Lemma readNat_showNat n : readNat (showNat n) = n.
Proof. unfold readNat, showNat. by rewrite readNat_digitsFuel by lia. Qed.

Lemma showNat_inj n m : showNat n = showNat m -> n = m.
Proof.
  intros Heq. by rewrite <- (readNat_showNat n), Heq, readNat_showNat.
Qed.

End StringFacts.

Section ParsedQueryFacts.
Variable uid : nat -> jsstring.

Lemma parseGroup_snd n gi g :
  snd (parseGroup uid n gi g) = if gi <? n - 1 then [AND] else [].
Proof. unfold parseGroup. by destruct (matchNot (trim g)). Qed.

Lemma parseGroup_fst n gi g :
  let b := fst (parseGroup uid n gi g) in
  id b = uid gi /\ name b = js "Group " ++ showNat (gi + 1)
  /\ isRegex b = false
  /\ forall t, t ∈ terms b -> t <> [] /\ trim t = t.
Proof.
  unfold parseGroup. destruct (matchNot (trim g)); cbn [fst id name isRegex terms];
    (split; [done|]; split; [done|]; split; [done|]);
    intros t Ht; apply list_elem_of_In, filter_In in Ht as [Ht Hne];
    apply in_map_iff in Ht as (x & <- & _);
    (split; [intros Heq; by rewrite Heq in Hne|apply trim_idem]).
Qed.

Lemma operators_imap n (groups : list jsstring) k :
  concat (map snd (imap (fun i => parseGroup uid n (k + i)) groups))
  = replicate (length groups `min` (n - 1 - k)) AND.
Proof.
  revert k. induction groups as [|g groups IH]; intros k; [done|].
  cbn [imap map concat]. rewrite parseGroup_snd.
  rewrite (imap_ext _ (fun i => parseGroup uid n (S k + i))).
  2:{ intros i x _. simpl. f_equal. lia. }
  rewrite IH. replace (k + 0) with k by lia.
  destruct (k <? n - 1) eqn:Hk.
  - apply Nat.ltb_lt in Hk. cbn [length].
    replace (S (length groups) `min` (n - 1 - k))
      with (S (length groups `min` (n - 1 - S k))) by lia.
    done.
  - apply Nat.ltb_ge in Hk. cbn [length app].
    by replace (n - 1 - S k) with 0 by lia; replace (n - 1 - k) with 0 by lia;
       rewrite !Nat.min_0_r.
Qed.

End ParsedQueryFacts.

Lemma parseBooleanQuery_Some (uid : nat -> jsstring) (input : jsstring)
    (pq : ParsedQuery) :
  parseBooleanQuery uid input = Some pq ->
  exists groups,
    pq = {| pq_blocks := map fst (imap (parseGroup uid (length groups)) groups);
            pq_operators :=
              concat (map snd (imap (parseGroup uid (length groups)) groups)) |}.
Proof.
  unfold parseBooleanQuery. destruct input as [|c input]; [discriminate|].
  generalize (splitOn (js "AND") (trim (collapseSpaces (c :: input)))).
  intros groups Hpq. apply (inj Some) in Hpq. subst pq. by exists groups.
Qed.

Lemma parsed_block_at (uid : nat -> jsstring) (groups : list jsstring) n i b :
  map fst (imap (parseGroup uid n) groups) !! i = Some b ->
  exists g, b = fst (parseGroup uid n i g).
Proof.
  intros Hl. rewrite list_lookup_fmap in Hl.
  destruct (imap _ groups !! i) as [p|] eqn:Hp; [|done].
  injection Hl as <-. rewrite list_lookup_imap in Hp.
  destruct (groups !! i) as [g|]; [|done]. injection Hp as <-. eauto.
Qed.

Lemma parsed_operators (uid : nat -> jsstring) (groups : list jsstring) :
  concat (map snd (imap (parseGroup uid (length groups)) groups))
  = replicate (length groups - 1) AND.
Proof.
  transitivity (concat (map snd (imap (fun i => parseGroup uid (length groups)
                                                   (0 + i)) groups)));
    [done|].
  rewrite operators_imap. f_equal. lia.
Qed.

Lemma parsed_names_NoDup (uid : nat -> jsstring) (groups : list jsstring) n :
  NoDup (map name (map fst (imap (parseGroup uid n) groups))).
Proof.
  apply NoDup_alt. intros i j x Hi Hj.
  rewrite list_lookup_fmap in Hi, Hj.
  destruct (map fst _ !! i) as [bi|] eqn:Hbi; [|done].
  destruct (map fst _ !! j) as [bj|] eqn:Hbj; [|done].
  destruct (parsed_block_at _ _ _ _ _ Hbi) as [gi ->].
  destruct (parsed_block_at _ _ _ _ _ Hbj) as [gj ->].
  injection Hi as Hi. injection Hj as Hj.
  destruct (parseGroup_fst uid n i gi) as (_ & Hni & _).
  destruct (parseGroup_fst uid n j gj) as (_ & Hnj & _).
  rewrite Hni in Hi. rewrite Hnj in Hj. subst x.
  apply app_inv_head, showNat_inj in Hj. lia.
Qed.

(** X5. The block model that the query-string parser returns: the
    operators are all AND, one fewer than the blocks; block [i] carries
    the token drawn for it, the name [Group i+1] and no regex flag; every
    term is trimmed and not empty; and the names differ from one
    another. *)
Theorem parsed_query_well_formed (uid : nat -> jsstring) (input : jsstring)
    (pq : ParsedQuery) :
  parseBooleanQuery uid input = Some pq ->
  pq_operators pq = replicate (length (pq_blocks pq) - 1) AND
  /\ (forall i b,
        pq_blocks pq !! i = Some b ->
        id b = uid i /\ name b = js "Group " ++ showNat (i + 1)
        /\ isRegex b = false
        /\ forall t, t ∈ terms b -> t <> [] /\ trim t = t)
  /\ NoDup (map name (pq_blocks pq)).
Proof.
  intros Hpq. apply parseBooleanQuery_Some in Hpq as [groups ->].
  cbn [pq_blocks pq_operators]. split; [|split].
  - rewrite length_map, length_imap. apply parsed_operators.
  - intros i b Hl. apply parsed_block_at in Hl as [g ->].
    apply parseGroup_fst.
  - apply parsed_names_NoDup.
Qed.


Section PastedQuery.
Context `{RegExpEngine}.

Lemma cname_sublist (f : nat -> Block -> option Compiled)
    (g : nat -> Block -> jsstring) bs :
  (forall i b c, f i b = Some c -> cname c = g i b) ->
  map cname (omap (fun x => x) (imap f bs)) `sublist_of` imap g bs.
Proof.
  revert f g. induction bs as [|b bs IH]; intros f g Hfg; [done|].
  cbn [imap].
  change (omap (fun x => x) (f 0 b :: imap (f ∘ S) bs))
    with (match f 0 b with
          | Some y => y :: omap (fun x => x) (imap (f ∘ S) bs)
          | None => omap (fun x => x) (imap (f ∘ S) bs)
          end).
  destruct (f 0 b) as [c|] eqn:Hf.
  - cbn [map]. rewrite (Hfg 0 b c Hf). apply sublist_skip, IH.
    intros i b' c'. apply Hfg.
  - apply sublist_cons, IH. intros i b' c'. apply Hfg.
Qed.

Lemma compileBlock_cname flags i b c :
  compileBlock flags i b = Some c -> cname c = blockName b i.
Proof.
  unfold compileBlock. destruct (length _ =? 0); [done|]. by intros [= <-].
Qed.

Lemma imap_blockName bs :
  (forall b, b ∈ bs -> name b <> []) ->
  imap (fun i b => blockName b i) bs = map name bs.
Proof.
  intros Hn. apply list_eq. intros i.
  rewrite list_lookup_imap, list_lookup_fmap.
  destruct (bs !! i) as [b|] eqn:Hb; [|done]. simpl. f_equal.
  unfold blockName. destruct (name b) eqn:Hnb; [|done].
  exfalso. apply (Hn b); [|done]. apply list_elem_of_lookup. eauto.
Qed.

(** X4. A pasted query expression that is not empty always yields a
    configuration that meets what the evaluator relies on: an operator for
    every adjacent pair and different names for the usable blocks.  Its
    value is the conjunction of the contributions of the usable groups,
    and the matched names are the names of the groups that are not
    excluded and fired, in order. *)
Theorem pasted_query_is_conjunction (uid : nat -> jsstring)
    (cfg : QueryConfig) (input : jsstring) (fs : Fields) (sel : SearchFields) :
  input <> [] ->
  let cfg' := applyPastedQuery uid cfg input in
  let texts := selectedTexts fs sel in
  let res := evaluateQueryOnText cfg' fs sel in
  length (blocks cfg') <= S (length (operators cfg'))
  /\ NoDup (map cname (compileBlocks cfg'))
  /\ val res = forallb (contribution texts) (compileBlocks cfg')
  /\ matchedBlocks res
     = map cname (List.filter (recorded texts) (compileBlocks cfg')).
Proof.
  intros Hne cfg' texts res.
  destruct (parseBooleanQuery uid input) as [pq|] eqn:Hpq.
  2:{ destruct input; [done|]. discriminate Hpq. }
  assert (Hcfg : blocks cfg' = pq_blocks pq /\ operators cfg' = pq_operators pq).
  { subst cfg'. unfold applyPastedQuery. by rewrite Hpq. }
  destruct Hcfg as [Hbs Hops].
  pose proof Hpq as Hshape. apply parseBooleanQuery_Some in Hshape as [groups Hg].
  assert (Hand : pq_operators pq = replicate (length (pq_blocks pq) - 1) AND).
  { rewrite Hg. cbn [pq_blocks pq_operators].
    rewrite length_map, length_imap. apply parsed_operators. }
  assert (Hblocks : forall i b, pq_blocks pq !! i = Some b ->
                                name b = js "Group " ++ showNat (i + 1)).
  { intros i b Hl. rewrite Hg in Hl. cbn [pq_blocks] in Hl.
    apply parsed_block_at in Hl as [g ->].
    by destruct (parseGroup_fst uid (length groups) i g) as (_ & Hn & _). }
  assert (Hnd : NoDup (map name (pq_blocks pq))).
  { rewrite Hg. apply parsed_names_NoDup. }
  assert (Hlen : length (blocks cfg') <= S (length (operators cfg'))).
  { rewrite Hbs, Hops, Hand, length_replicate. lia. }
  pose proof (length_compileBlocks cfg') as Hlc.
  destruct (evaluate_results cfg' fs sel) as [Hval Hrec].
  fold texts in Hval, Hrec. fold res in Hval, Hrec.
  split; [done|]. split; [|split].
  - assert (Hsub : map cname (compileBlocks cfg')
                   `sublist_of` imap (fun i b => blockName b i) (blocks cfg')).
    { apply cname_sublist. intros i b c. apply compileBlock_cname. }
    assert (Hnd' : NoDup (imap (fun i b => blockName b i) (blocks cfg'))).
    { rewrite imap_blockName, Hbs; [done|].
      intros b Hb. rewrite Hbs in Hb.
      apply list_elem_of_lookup in Hb as [i Hb].
      rewrite (Hblocks i b Hb). done. }
    exact (sublist_NoDup _ _ Hnd' Hsub).
  - rewrite Hval.
    destruct (compileBlocks cfg') as [|c0 cs]; [done|].
    rewrite fold_all_and.
    + simpl in Hlc. rewrite take_ge by lia. done.
    + rewrite Hops, Hand. apply Forall_replicate. done.
  - replace (matchedBlocks res) with (fst (matchedBlocks res, detailed res))
      by done.
    rewrite Hrec, visited_all by lia. by rewrite fold_recordBlock_fst.
Qed.

End PastedQuery.

(** ** Patterns of padded terms; the missing blocks of a row *)

(** X6. White space around a term does not change its pattern: the
    pattern of the trimmed term, and of the trimmed term with white space
    put around it, is the pattern of the term. *)
Theorem pattern_ignores_outer_space (term : jsstring) (isRegex : bool) :
  toSmartWordPattern (trim term) isRegex = toSmartWordPattern term isRegex
  /\ (forall pre post,
        Forall (fun c => isSpace c = true) pre ->
        Forall (fun c => isSpace c = true) post ->
        toSmartWordPattern (pre ++ trim term ++ post) isRegex
        = toSmartWordPattern term isRegex).
Proof.
  split.
  - unfold toSmartWordPattern. by rewrite trim_idem.
  - intros pre post Hpre Hpost. unfold toSmartWordPattern.
    by rewrite trim_padded.
Qed.

Section MissingBlocks.
Context `{RegExpEngine}.

Lemma detailed_is_Some cfg fs sel n :
  length (blocks cfg) <= S (length (operators cfg)) ->
  is_Some (detailed (evaluateQueryOnText cfg fs sel) !! n)
  <-> exists c, c ∈ compileBlocks cfg /\ cname c = n
                /\ recorded (selectedTexts fs sel) c = true.
Proof.
  intros Hlen. split.
  - intros [h Hh]. apply detailed_origin in Hh as (c & Hc & Hn & Hr & _).
    eauto.
  - intros (c & Hc & <- & Hr).
    destruct (evaluate_results cfg fs sel) as [_ Hrec].
    replace (detailed _)
      with (snd (matchedBlocks (evaluateQueryOnText cfg fs sel),
                 detailed (evaluateQueryOnText cfg fs sel))) by done.
    rewrite Hrec, visited_all.
    + by apply fold_recordBlock_is_Some.
    + pose proof (length_compileBlocks cfg). lia.
Qed.


End MissingBlocks.

(** ** The entries of the parser *)

Section ParsedEntryFacts.
Import JsRegExp JsRegExpFacts.

Lemma toLowerCase_idem s : toLowerCase (toLowerCase s) = toLowerCase s.
Proof.
  unfold toLowerCase. rewrite map_map. apply map_ext. intros c.
  unfold inRange.
  destruct ((65 <=? c)%N && (c <=? 90)%N) eqn:Hc; [|by rewrite Hc].
  apply andb_true_iff in Hc as [H1 H2].
  apply N.leb_le in H1, H2.
  assert (Hh : (c + 32 <=? 90)%N = false) by (apply N.leb_gt; lia).
  by rewrite Hh, andb_false_r.
Qed.

Lemma fieldsLoop_keys fuel chunk lastIndex fields fs :
  fieldsLoop fuel chunk lastIndex fields = Some fs ->
  (forall k, is_Some (fields !! k) -> toLowerCase k = k) ->
  forall k, is_Some (fs !! k) -> toLowerCase k = k.
Proof.
  revert lastIndex fields.
  induction fuel as [|fuel IH]; intros lastIndex fields; cbn [fieldsLoop];
    [done|].
  destruct (length chunk <? lastIndex); [by intros [= <-]|].
  destruct (search flags_gis fieldRe chunk lastIndex) as [[i fm]|];
    [|by intros [= <-]].
  intros Hl Hk. eapply IH; [exact Hl|].
  intros k [v Hv].
  match type of Hv with
  | <[?key := _]> _ !! _ = _ => destruct (decide (key = k)) as [<-|Hne]
  end.
  - apply toLowerCase_idem.
  - rewrite lookup_insert_ne in Hv by done. apply Hk. eauto.
Qed.

Lemma indexOfFrom_lookup c s p i a :
  indexOfFrom c s p i = Some a -> exists k, a = p + k /\ s !! k = Some c.
Proof.
  revert p. induction s as [|d s IH]; intros p; simpl; [done|].
  destruct ((i <=? p) && (d =? c)%N) eqn:Hc.
  - intros [= <-]. apply andb_true_iff in Hc as [_ Hd].
    apply N.eqb_eq in Hd as ->. exists 0. split; [lia|done].
  - intros Hi. apply IH in Hi as (k & -> & Hk). exists (S k).
    split; [lia|done].
Qed.

Lemma trimStart_suffix s : exists a, s = a ++ trimStart s.
Proof.
  induction s as [|c s [a IH]]; [by exists []|]. simpl.
  destruct (isSpace c).
  - exists (c :: a). simpl. by rewrite <- IH.
  - by exists [].
Qed.

Lemma trim_infix s : exists a b, s = a ++ trim s ++ b.
Proof.
  unfold trim, trimEnd.
  destruct (trimStart_suffix s) as [a Ha].
  destruct (trimStart_suffix (rev (trimStart s))) as [b Hb].
  exists a, (rev b). rewrite Ha at 1. f_equal.
  rewrite <- rev_app_distr, <- Hb. by rewrite rev_involutive.
Qed.

Lemma countAt_drop_le s i j :
  i <= j -> countAt (drop j s) <= countAt (drop i s).
Proof.
  intros Hij. replace j with (i + (j - i)) by lia.
  rewrite <- drop_drop. generalize (drop i s) (j - i). clear.
  intros l n. revert l. induction n as [|n IH]; intros l.
  - by rewrite drop_0.
  - destruct l as [|c l]; [done|]. simpl. etransitivity; [apply IH|].
    unfold countAt. cbn [List.filter].
    destruct (N.eqb (ch "@") c); cbn [length]; lia.
Qed.

Lemma countAt_drop_at s a :
  s !! a = Some (ch "@") -> countAt (drop a s) = S (countAt (drop (S a) s)).
Proof.
  intros Ha. rewrite (drop_S _ _ _ Ha). unfold countAt. cbn [List.filter].
  by rewrite N.eqb_refl.
Qed.

Lemma parseLoop_count fuel src i entries res :
  parseLoop fuel src i entries = Some res ->
  length res <= length entries + countAt (drop i src).
Proof.
  revert i entries.
  induction fuel as [|fuel IH]; intros i entries; cbn [parseLoop]; [done|].
  destruct (i <? length src); [|intros [= <-]; lia].
  destruct (indexOfFrom (ch "@") src 0 i) as [at_|] eqn:Hat;
    [|intros [= <-]; lia].
  pose proof (indexOfFrom_ge _ _ _ _ _ Hat) as Hge.
  apply indexOfFrom_lookup in Hat as (k & -> & Hk). cbn [Nat.add] in *.
  pose proof (countAt_drop_at src k Hk) as Hc.
  pose proof (countAt_drop_le src i k Hge) as Hle.
  destruct (search noFlags headerRe (drop k src) 0) as [[mi m]|] eqn:Hm.
  - apply search_progress in Hm as [_ Hprog].
    rewrite minLen_headerRe in Hprog.
    set (j0 := k + (pos m - mi)).
    pose proof (scanChunk_ge (drop j0 src)
                  (if j0 =? 0 then None else src !! (j0 - 1)) j0 1 false) as Hj.
    set (j := scanChunk _ _ j0 1 false) in *.
    assert (Hkj : S k <= j) by (subst j0; lia).
    pose proof (countAt_drop_le src (S k) j Hkj) as Hle'.
    destruct (search flags_s citeKeyRe _ 0) as [[ki km]|].
    + destruct (fieldsLoop _ _ 0 ∅) as [fs|]; [|done].
      intros Hl. apply IH in Hl. rewrite length_app in Hl. simpl in Hl. lia.
    + intros Hl. apply IH in Hl. lia.
  - intros Hl. apply IH in Hl. replace (k + 1) with (S k) in Hl by lia. lia.
Qed.

Lemma parseLoop_wellFormed fuel src i entries res :
  parseLoop fuel src i entries = Some res ->
  Forall (wellFormedEntry src) entries -> Forall (wellFormedEntry src) res.
Proof.
  revert i entries.
  induction fuel as [|fuel IH]; intros i entries; cbn [parseLoop]; [done|].
  destruct (i <? length src); [|by intros [= <-]].
  destruct (indexOfFrom (ch "@") src 0 i) as [at_|] eqn:Hat;
    [|by intros [= <-]].
  apply indexOfFrom_lookup in Hat as (k & -> & Hk). cbn [Nat.add] in *.
  destruct (search noFlags headerRe (drop k src) 0) as [[mi m]|] eqn:Hm;
    [|apply IH].
  apply search_progress in Hm as [_ Hprog].
  rewrite minLen_headerRe in Hprog.
  set (j0 := k + (pos m - mi)).
  pose proof (scanChunk_ge (drop j0 src)
                (if j0 =? 0 then None else src !! (j0 - 1)) j0 1 false) as Hj.
  set (j := scanChunk _ _ j0 1 false) in *.
  assert (Hkj : S k <= j) by (subst j0; lia).
  set (chunk := trim (take (j - k) (drop k src))).
  destruct (search flags_s citeKeyRe chunk 0) as [[ki km]|]; [|apply IH].
  destruct (fieldsLoop _ chunk 0 ∅) as [fs|] eqn:Hfs; [|done].
  intros Hl Hall. eapply IH; [exact Hl|].
  apply Forall_app. split; [done|]. apply Forall_singleton.
  split; [|split; [|split]].
  - exists chunk.
    destruct (trim_infix (take (j - k) (drop k src))) as (a & b & Hab).
    fold chunk in Hab.
    exists (take k src ++ a), (b ++ drop (j - k) (drop k src)).
    split; [by rewrite lookup_insert_eq|]. split; [|split].
    + subst chunk. rewrite (drop_S _ _ _ Hk).
      destruct (j - k) as [|n] eqn:Hn; [lia|]. cbn [take].
      destruct (trim_head (ch "@") (take n (drop (S k) src))) as [s' ->];
        done.
    + apply trim_idem.
    + rewrite <- (take_drop k src) at 1. rewrite <- !app_assoc. f_equal.
      rewrite <- (take_drop (j - k) (drop k src)) at 1.
      rewrite Hab at 1. by rewrite <- !app_assoc.
  - rewrite lookup_insert_ne by done. apply lookup_union_is_Some. right.
    rewrite lookup_insert_ne by done. rewrite lookup_insert_eq. eauto.
  - rewrite lookup_insert_ne by done. apply lookup_union_is_Some. right.
    rewrite lookup_insert_eq. eauto.
  - intros key [v Hv].
    destruct (decide (js "__raw" = key)) as [<-|Hraw]; [done|].
    rewrite lookup_insert_ne in Hv by done.
    apply lookup_union_Some_raw in Hv as [Hv|[_ Hv]].
    + eapply (fieldsLoop_keys _ _ _ _ _ Hfs); [|eauto].
      intros k' [v' Hv']. by rewrite lookup_empty in Hv'.
    + destruct (decide (js "citekey" = key)) as [<-|Hck]; [done|].
      rewrite lookup_insert_ne in Hv by done.
      destruct (decide (js "entry_type" = key)) as [<-|Het]; [done|].
      rewrite lookup_insert_ne in Hv by done. by rewrite lookup_empty in Hv.
Qed.

End ParsedEntryFacts.

(** X8. Every entry that the entry parser returns carries its chunk
    under [__raw], an [entry_type] and a [citekey]; the chunk starts with
    [@], is trimmed and is a contiguous piece of the text; and every key
    of the entry is in lower case. *)
Theorem parsed_entries_well_formed (text : jsstring) (es : list Entry) :
  parseBibtexEntries text = Returns es ->
  Forall (wellFormedEntry text) es.
Proof.
  unfold parseBibtexEntries.
  destruct (parseLoop (S (length text)) text 0 []) as [entries|] eqn:Hl;
    [|done].
  destruct (_ && _); [done|]. intros [= <-].
  by apply (parseLoop_wellFormed _ _ _ _ _ Hl).
Qed.

(** X9. The entry parser never returns more entries than the text has
    [@] characters; from a text without [@] it returns no entry. *)
Theorem parsed_entries_bounded (text : jsstring) (es : list Entry) :
  parseBibtexEntries text = Returns es ->
  length es <= countAt text
  /\ (countAt text = 0 -> es = []).
Proof.
  unfold parseBibtexEntries.
  destruct (parseLoop (S (length text)) text 0 []) as [entries|] eqn:Hl;
    [|done].
  destruct (_ && _); [done|]. intros [= <-].
  apply parseLoop_count in Hl. rewrite drop_0 in Hl. simpl in Hl.
  split; [done|]. intros Hz. destruct entries; [done|]. simpl in Hl. lia.
Qed.

(** ** Runs of degenerate queries *)

Lemma parseBibtexEntries_cases text :
  parseBibtexEntries text
  = if (length (extracted text) =? 0) && (0 <? length (trim text))
    then Throws else Returns (extracted text).
Proof.
  unfold parseBibtexEntries, extracted.
  destruct (parseLoop_total (S (length text)) text 0 []) as [es Hes];
    [lia|lia|].
  by rewrite Hes.
Qed.

Section MoreRun.
Context `{RegExpEngine}.

(** X10. A run of a query without a usable block matches every eligible
    record: the matched rows are the rows of the records with a selected
    field that is not empty, in order, with no matched block name and an
    empty hit map; the partial and unmatched lists are empty. *)
Theorem run_without_usable_block (cfg : QueryConfig) (entries : list Entry) :
  compileBlocks cfg = [] ->
  let out := runEntries cfg entries in
  out_matched out
  = map (rowOf cfg)
        (List.filter (fun e => hasAny (searchFields cfg) (entryFields e))
                     entries)
  /\ out_partial out = [] /\ out_unmatched out = []
  /\ matched (report out) = eligible (report out)
  /\ (forall r, r ∈ out_matched out ->
                MatchedBlocks r = [] /\ MatchedTermsMap r = ∅).
Proof.
  intros Hcs out. subst out. unfold runEntries.
  destruct (fold_runStep cfg entries
              {| rs_eligible := 0; matchedRows := []; partialRows := [];
                 unmatchedRows := [] |}) as (He & Hm & Hp & Hu).
  cbn [rs_eligible matchedRows partialRows unmatchedRows app Nat.add]
    in He, Hm, Hp, Hu.
  cbn [out_matched out_partial out_unmatched report eligible matched].
  rewrite He, Hm, Hp, Hu.
  assert (Hres : forall fs sel,
             evaluateQueryOnText cfg fs sel
             = {| val := true; matchedBlocks := []; detailed := ∅ |}).
  { intros fs sel. unfold evaluateQueryOnText. by rewrite Hcs. }
  assert (HM : forall e, inBucket cfg Matched e
                         = hasAny (searchFields cfg) (entryFields e)).
  { intros e. unfold inBucket, classify. rewrite Hres. cbn [val].
    destruct (hasAny _ _);
      [by apply bool_decide_eq_true_2|by apply bool_decide_eq_false_2]. }
  assert (HP : forall e, inBucket cfg Partial e = false).
  { intros e. unfold inBucket, classify. rewrite Hres. cbn [val].
    apply bool_decide_eq_false_2. by destruct (hasAny _ _). }
  assert (HU : forall e, inBucket cfg Unmatched e = false).
  { intros e. unfold inBucket, classify. rewrite Hres. cbn [val].
    apply bool_decide_eq_false_2. by destruct (hasAny _ _). }
  rewrite (filter_ext _ _ HM).
  rewrite (proj2 (filter_nil_iff (inBucket cfg Partial) entries))
    by (intros; apply HP).
  rewrite (proj2 (filter_nil_iff (inBucket cfg Unmatched) entries))
    by (intros; apply HU).
  split; [done|]. split; [done|]. split; [done|].
  split; [by rewrite length_map|].
  intros r Hr. apply list_elem_of_fmap in Hr as (e & -> & _).
  unfold rowOf. rewrite Hres. done.
Qed.

(** X11. A run with no field selected finds nothing: no record is
    eligible, the three lists are empty, and the report counts only the
    total. *)
Theorem run_without_selected_field (cfg : QueryConfig)
    (entries : list Entry) :
  searchFields cfg
  = {| sf_title := false; sf_abstract := false; sf_keywords := false |} ->
  let out := runEntries cfg entries in
  out_matched out = [] /\ out_partial out = [] /\ out_unmatched out = []
  /\ report out
     = {| total := length entries; eligible := 0; matched := 0;
          partial := 0; unmatched := 0 |}.
Proof.
  intros Hsf out. subst out. unfold runEntries.
  destruct (fold_runStep cfg entries
              {| rs_eligible := 0; matchedRows := []; partialRows := [];
                 unmatchedRows := [] |}) as (He & Hm & Hp & Hu).
  cbn [rs_eligible matchedRows partialRows unmatchedRows app Nat.add]
    in He, Hm, Hp, Hu.
  cbn [out_matched out_partial out_unmatched report].
  rewrite He, Hm, Hp, Hu.
  assert (Hany : forall e, hasAny (searchFields cfg) (entryFields e) = false).
  { intros e. by rewrite Hsf. }
  assert (Hb : forall o e, inBucket cfg o e = false).
  { intros o e. unfold inBucket, classify. rewrite Hany.
    by apply bool_decide_eq_false_2. }
  rewrite !(proj2 (filter_nil_iff _ entries)); [done|auto..].
Qed.


End MoreRun.

(** ** The breakdown per block *)

Section PerBlockFacts.
Variables n t : jsstring.

Local Abbreviation vStat := (statIn n t).
Local Abbreviation vSeen := (seenIn n t).
Local Abbreviation hitEntry := (hitsEntry n t).
Local Abbreviation countEntry := (countInEntry n t).

Lemma statOf_default pb :
  default zeroStat (default ∅ (pb !! n) !! t) = statOf pb n t.
Proof. unfold statOf. destruct (pb !! n); simpl; [done|]. by rewrite lookup_empty. Qed.

Lemma statOf_insert_inner pb b term blk :
  statOf (<[b := <[term := blk]> (default ∅ (pb !! b))]> pb) n t
  = if decide (b = n /\ term = t) then blk else statOf pb n t.
Proof.
  unfold statOf. destruct (decide (b = n)) as [->|Hb].
  - rewrite lookup_insert_eq. simpl.
    destruct (decide (term = t)) as [->|Ht].
    + rewrite lookup_insert_eq. simpl. by rewrite decide_True.
    + rewrite lookup_insert_ne by done. rewrite decide_False by tauto.
      destruct (pb !! n); simpl; [done|]. by rewrite lookup_empty.
  - rewrite lookup_insert_ne by done. by rewrite decide_False by tauto.
Qed.

Lemma statOf_init pb b :
  statOf (match pb !! b with Some _ => pb | None => <[b := ∅]> pb end) n t
  = statOf pb n t.
Proof.
  destruct (pb !! b) eqn:Hb; [done|]. unfold statOf.
  destruct (decide (b = n)) as [->|Hne].
  - rewrite lookup_insert_eq, Hb. simpl. by rewrite lookup_empty.
  - by rewrite lookup_insert_ne.
Qed.

Lemma statsTerm_vStat b f st term :
  vStat (statsTerm b f st term)
  = if decide (b = n /\ term = t)
    then {| docCount := docCount (vStat st) + (if vSeen st then 0 else 1);
            fields := bumpField f (fields (vStat st)) |}
    else vStat st.
Proof.
  unfold statIn, statsTerm. cbn [perBlock].
  rewrite statOf_insert_inner. case_decide as Hd; [|done].
  destruct Hd as [-> ->]. rewrite statOf_default. unfold seenIn.
  destruct (bool_decide (t ∈ _)); simpl; f_equal; lia.
Qed.

Lemma statsTerm_vSeen b f st term :
  vSeen (statsTerm b f st term)
  = vSeen st || bool_decide (b = n /\ term = t).
Proof.
  unfold seenIn, statsTerm. cbn [seenInBlock].
  destruct (bool_decide (term ∈ default ∅ (seenInBlock st !! b))) eqn:Hs;
    cbn [negb].
  - destruct (decide (b = n /\ term = t)) as [[-> ->]|Hne].
    + rewrite Hs. done.
    + rewrite (bool_decide_eq_false_2 _ Hne). by rewrite orb_false_r.
  - destruct (decide (b = n)) as [->|Hb].
    + rewrite lookup_insert_eq. simpl.
      destruct (decide (term = t)) as [->|Ht].
      * rewrite (bool_decide_eq_true_2 (n = n /\ t = t)) by done.
        rewrite orb_true_r. apply bool_decide_eq_true_2. set_solver.
      * rewrite (bool_decide_eq_false_2 (n = n /\ term = t)) by tauto.
        rewrite orb_false_r. apply bool_decide_ext. set_solver.
    + rewrite lookup_insert_ne by done.
      rewrite (bool_decide_eq_false_2 (b = n /\ term = t)) by tauto.
      by rewrite orb_false_r.
Qed.

Lemma fieldCount_bumpField g f c :
  fieldCount g (bumpField f c)
  = fieldCount g c + (if decide (g = f) then 1 else 0).
Proof. destruct g, f; simpl; lia. Qed.

Lemma fold_statsTerm_view b f l st :
  let st' := fold_left (statsTerm b f) l st in
  docCount (vStat st')
  = docCount (vStat st)
    + (if vSeen st then 0 else if bool_decide (b = n /\ t ∈ l) then 1 else 0)
  /\ (forall g,
        fieldCount g (fields (vStat st'))
        = fieldCount g (fields (vStat st))
          + (if decide (b = n /\ g = f) then countIn t l else 0))
  /\ vSeen st' = vSeen st || bool_decide (b = n /\ t ∈ l).
Proof.
  revert st. induction l as [|term l IH]; intros st; cbn [fold_left].
  - rewrite (bool_decide_eq_false_2 (b = n /\ t ∈ [])).
    2:{ intros [_ Hin]. by apply elem_of_nil in Hin. }
    rewrite orb_false_r. split; [destruct (vSeen st); lia|]. split; [|done].
    intros g. unfold countIn. simpl. case_decide; lia.
  - destruct (IH (statsTerm b f st term)) as (Hd & Hf & Hs).
    rewrite Hd, Hs. clear Hd Hs.
    rewrite statsTerm_vSeen, statsTerm_vStat.
    split; [|split].
    + destruct (decide (b = n /\ term = t)) as [[-> ->]|Hne].
      * rewrite (bool_decide_eq_true_2 (n = n /\ t = t)) by done.
        rewrite (bool_decide_eq_true_2 (n = n /\ t ∈ t :: l))
          by (split; [done|left]).
        rewrite orb_true_r. cbn [docCount]. destruct (vSeen st); lia.
      * rewrite (bool_decide_eq_false_2 (b = n /\ term = t)) by done.
        rewrite orb_false_r.
        rewrite (bool_decide_ext (b = n /\ t ∈ term :: l) (b = n /\ t ∈ l)).
        2:{ rewrite elem_of_cons. split; [|tauto].
            intros [-> [->|?]]; [tauto|done]. }
        done.
    + intros g. rewrite Hf. clear Hf. rewrite statsTerm_vStat.
      destruct (decide (b = n /\ term = t)) as [[-> ->]|Hne].
      * cbn [fields]. rewrite fieldCount_bumpField.
        unfold countIn. cbn [List.filter]. unfold eqs at 2.
        rewrite bool_decide_eq_true_2 by done. cbn [length].
        repeat case_decide; try lia; exfalso; tauto.
      * destruct (decide (b = n /\ g = f)) as [[-> ->]|Hg]; [|done].
        unfold countIn. cbn [List.filter]. unfold eqs at 2.
        rewrite bool_decide_eq_false_2; [done|]. intros ->. tauto.
    + rewrite <- orb_assoc. f_equal.
      destruct (decide (b = n)) as [->|Hb].
      * destruct (decide (term = t)) as [->|Ht].
        -- rewrite (bool_decide_eq_true_2 (n = n /\ t = t)) by done.
           rewrite (bool_decide_eq_true_2 (n = n /\ t ∈ t :: l))
             by (split; [done|left]).
           done.
        -- rewrite (bool_decide_eq_false_2 (n = n /\ term = t)) by tauto.
           apply bool_decide_ext. rewrite elem_of_cons.
           split; [tauto|]. intros [_ [->|?]]; [done|tauto].
      * rewrite !bool_decide_eq_false_2; tauto.
Qed.

Lemma seen_init (sb : gmap jsstring (gset jsstring)) b :
  default ∅ (match sb !! b with Some _ => sb | None => <[b := ∅]> sb end !! n)
  = default ∅ (sb !! n).
Proof.
  destruct (sb !! b) eqn:Hb; [done|].
  destruct (decide (b = n)) as [->|Hne].
  - by rewrite lookup_insert_eq, Hb.
  - by rewrite lookup_insert_ne.
Qed.

Lemma statsBlock_view st e :
  let st' := statsBlock st e in
  docCount (vStat st')
  = docCount (vStat st)
    + (if vSeen st then 0 else if hitEntry e then 1 else 0)
  /\ (forall g,
        fieldCount g (fields (vStat st'))
        = fieldCount g (fields (vStat st)) + countEntry g e)
  /\ vSeen st' = vSeen st || hitEntry e.
Proof.
  destruct e as [b fh]. unfold statsBlock, hitsEntry, countInEntry.
  cbn [fold_left fst snd].
  set (st0 := {| overallDocCounts := overallDocCounts st;
                 overallFieldCounts := overallFieldCounts st;
                 perBlock := _; seenOverall := seenOverall st;
                 seenInBlock := _ |}).
  assert (H0 : vStat st0 = vStat st) by apply statOf_init.
  assert (S0 : vSeen st0 = vSeen st).
  { unfold seenIn. subst st0. cbn [seenInBlock]. by rewrite seen_init. }
  destruct (fold_statsTerm_view b Title (fieldHitsOf Title fh) st0)
    as (D1 & F1 & S1).
  set (st1 := fold_left (statsTerm b Title) (fieldHitsOf Title fh) st0) in *.
  destruct (fold_statsTerm_view b Abstract (fieldHitsOf Abstract fh) st1)
    as (D2 & F2 & S2).
  set (st2 := fold_left (statsTerm b Abstract) (fieldHitsOf Abstract fh) st1)
    in *.
  destruct (fold_statsTerm_view b Keywords (fieldHitsOf Keywords fh) st2)
    as (D3 & F3 & S3).
  set (st3 := fold_left (statsTerm b Keywords) (fieldHitsOf Keywords fh) st2)
    in *.
  cbv zeta in D1, D2, D3, F1, F2, F3, S1, S2, S3.
  rewrite H0 in D1, F1. rewrite S0 in D1, S1.
  assert (Hin : bool_decide (b = n /\ t ∈ entryTerms fh)
                = bool_decide (b = n /\ t ∈ fieldHitsOf Title fh)
                  || bool_decide (b = n /\ t ∈ fieldHitsOf Abstract fh)
                  || bool_decide (b = n /\ t ∈ fieldHitsOf Keywords fh)).
  { unfold entryTerms.
    rewrite <- !bool_decide_or. apply bool_decide_ext.
    rewrite !elem_of_app. tauto. }
  rewrite Hin. clear Hin.
  split; [|split].
  - rewrite D3, S2, S1, D2, S1, D1.
    destruct (vSeen st), (bool_decide (b = n /\ t ∈ fieldHitsOf Title fh)),
      (bool_decide (b = n /\ t ∈ fieldHitsOf Abstract fh)),
      (bool_decide (b = n /\ t ∈ fieldHitsOf Keywords fh)); simpl; lia.
  - intros g. rewrite F3, F2, F1.
    destruct g; repeat case_decide; try lia;
      try (exfalso; intuition congruence).
  - rewrite S3, S2, S1. by rewrite !orb_assoc.
Qed.

Lemma fold_statsBlock_view l st :
  let st' := fold_left statsBlock l st in
  docCount (vStat st')
  = docCount (vStat st)
    + (if vSeen st then 0 else if existsb hitEntry l then 1 else 0)
  /\ (forall g,
        fieldCount g (fields (vStat st'))
        = fieldCount g (fields (vStat st)) + sum_list_with (countEntry g) l)
  /\ vSeen st' = vSeen st || existsb hitEntry l.
Proof.
  revert st. induction l as [|e l IH]; intros st; cbn [fold_left].
  - simpl. rewrite orb_false_r.
    split; [destruct (vSeen st); lia|]. split; [intros g; lia|done].
  - destruct (IH (statsBlock st e)) as (D & F & S).
    destruct (statsBlock_view st e) as (D1 & F1 & S1).
    cbv zeta in D, F, S, D1, F1, S1.
    split; [|split].
    + rewrite D, S1, D1. cbn [existsb].
      destruct (vSeen st), (hitEntry e), (existsb hitEntry l); simpl; lia.
    + intros g. rewrite F, F1. simpl. lia.
    + rewrite S, S1. cbn [existsb]. by rewrite orb_assoc.
Qed.

Lemma existsb_hitEntry (l : list (jsstring * FieldHits)) :
  NoDup (map fst l) ->
  (forall fh, (n, fh) ∈ l ->
              existsb hitEntry l = bool_decide (t ∈ entryTerms fh))
  /\ (n ∉ map fst l -> existsb hitEntry l = false).
Proof.
  induction l as [|[k v] l IH]; intros Hnd.
  - split; [intros fh Hin; by apply elem_of_nil in Hin|done].
  - cbn [map fst] in Hnd. apply NoDup_cons in Hnd as [Hk Hnd].
    destruct (IH Hnd) as [IHa IHb]. cbn [existsb]. unfold hitsEntry at 1 3.
    cbn [fst snd]. split.
    + intros fh Hin. apply elem_of_cons in Hin as [[= <- <-]|Hin].
      * rewrite IHb by done. rewrite orb_false_r.
        apply bool_decide_ext. tauto.
      * rewrite (IHa fh Hin).
        rewrite bool_decide_eq_false_2; [done|]. intros [-> _].
        apply Hk. apply list_elem_of_fmap. by exists (n, fh).
    + intros Hn. cbn [map fst] in Hn. apply not_elem_of_cons in Hn as [Hne Hn].
      rewrite IHb by done. rewrite orb_false_r.
      apply bool_decide_eq_false_2. intros [-> _]. done.
Qed.

Lemma sum_countEntry g (l : list (jsstring * FieldHits)) :
  NoDup (map fst l) ->
  (forall fh, (n, fh) ∈ l ->
              sum_list_with (countEntry g) l = countIn t (fieldHitsOf g fh))
  /\ (n ∉ map fst l -> sum_list_with (countEntry g) l = 0).
Proof.
  induction l as [|[k v] l IH]; intros Hnd.
  - split; [intros fh Hin; by apply elem_of_nil in Hin|done].
  - cbn [map fst] in Hnd. apply NoDup_cons in Hnd as [Hk Hnd].
    destruct (IH Hnd) as [IHa IHb]. cbn [sum_list_with].
    unfold countInEntry at 1 3. cbn [fst snd]. split.
    + intros fh Hin. apply elem_of_cons in Hin as [[= <- <-]|Hin].
      * rewrite IHb by done. rewrite decide_True by done. lia.
      * rewrite (IHa fh Hin). rewrite decide_False; [done|]. intros ->.
        apply Hk. apply list_elem_of_fmap. by exists (n, fh).
    + intros Hn. cbn [map fst] in Hn. apply not_elem_of_cons in Hn as [Hne Hn].
      rewrite IHb by done. by rewrite decide_False.
Qed.

Lemma statsRow_view st r :
  docCount (vStat (statsRow st r))
  = docCount (vStat st)
    + (if bool_decide (t ∈ entryTerms (blockEntry n r)) then 1 else 0)
  /\ (forall g,
        fieldCount g (fields (vStat (statsRow st r)))
        = fieldCount g (fields (vStat st))
          + countIn t (fieldHitsOf g (blockEntry n r))).
Proof.
  unfold statsRow.
  set (st0 := {| overallDocCounts := overallDocCounts st;
                 overallFieldCounts := overallFieldCounts st;
                 perBlock := perBlock st; seenOverall := ∅;
                 seenInBlock := ∅ |}).
  destruct (fold_statsBlock_view (map_to_list (MatchedTermsMap r)) st0)
    as (D & F & _).
  cbv zeta in D, F.
  change (vStat st0) with (vStat st) in D, F.
  assert (S0 : vSeen st0 = false).
  { unfold seenIn. subst st0. cbn [seenInBlock]. rewrite lookup_empty.
    by apply bool_decide_eq_false_2. }
  rewrite S0 in D.
  pose proof (NoDup_fst_map_to_list (MatchedTermsMap r)) as Hnd.
  destruct (existsb_hitEntry _ Hnd) as [Ea Eb].
  unfold blockEntry.
  destruct (MatchedTermsMap r !! n) as [fh|] eqn:Hl.
  - apply elem_of_map_to_list in Hl. cbn [default].
    split.
    + by rewrite D, (Ea fh Hl).
    + intros g. destruct (sum_countEntry g _ Hnd) as [Sa _].
      by rewrite F, (Sa fh Hl).
  - assert (Hn : n ∉ map fst (map_to_list (MatchedTermsMap r))).
    { intros Hin. apply list_elem_of_fmap in Hin as ([k v] & Hk & Hin).
      apply elem_of_map_to_list in Hin. simpl in Hk. subst k. congruence. }
    cbn [default]. split.
    + rewrite D, (Eb Hn).
      rewrite bool_decide_eq_false_2; [done|].
      unfold entryTerms. simpl. by intros Hin%elem_of_nil.
    + intros g. destruct (sum_countEntry g _ Hnd) as [_ Sb].
      rewrite F, (Sb Hn). by destruct g.
Qed.

Lemma fold_statsRow_view rows st :
  docCount (vStat (fold_left statsRow rows st))
  = docCount (vStat st)
    + length (List.filter
                (fun r => bool_decide (t ∈ entryTerms (blockEntry n r))) rows)
  /\ (forall g,
        fieldCount g (fields (vStat (fold_left statsRow rows st)))
        = fieldCount g (fields (vStat st))
          + sum_list_with
              (fun r => countIn t (fieldHitsOf g (blockEntry n r))) rows).
Proof.
  revert st. induction rows as [|r rows IH]; intros st; cbn [fold_left].
  - simpl. split; [lia|intros g; lia].
  - destruct (IH (statsRow st r)) as [D F].
    destruct (statsRow_view st r) as [D1 F1].
    split.
    + rewrite D, D1. cbn [List.filter].
      destruct (bool_decide _); simpl; lia.
    + intros g. rewrite F, F1. simpl. lia.
Qed.

Lemma statOf_hasStat pb st : hasStat pb n t st -> statOf pb n t = st.
Proof. intros (m & Hm & Ht). unfold statOf. by rewrite Hm; simpl; rewrite Ht. Qed.

Lemma statOf_cases pb :
  hasStat pb n t (statOf pb n t)
  \/ ((forall st, ~ hasStat pb n t st) /\ statOf pb n t = zeroStat).
Proof.
  unfold statOf, hasStat. destruct (pb !! n) as [m|] eqn:Hm; simpl.
  - destruct (m !! t) as [s|] eqn:Ht; simpl.
    + left. eauto.
    + right. split; [|done]. intros st (m' & [= <-] & Ht'). congruence.
  - right. split; [|done]. by intros st (m' & ? & _).
Qed.

Lemma statOf_declare l pb :
  statOf (fold_left declareBlock l pb) n t = statOf pb n t.
Proof.
  destruct (statOf_cases pb) as [Hs|[Hno Hz]].
  - by apply statOf_hasStat, fold_declareBlock_keeps.
  - rewrite Hz.
    destruct (statOf_cases (fold_left declareBlock l pb)) as [Hs|[_ Hz']];
      [|done].
    apply fold_declareBlock_origin in Hs as [Hs|Hs]; [|done].
    by apply Hno in Hs.
Qed.

End PerBlockFacts.

Section OverallFieldFacts.
Variable t : jsstring.

Local Abbreviation occIn := (occurrences t).

Lemma countIn_app l1 l2 : countIn t (l1 ++ l2) = countIn t l1 + countIn t l2.
Proof. unfold countIn. by rewrite List.filter_app, length_app. Qed.

Lemma countIn_pos l : t ∈ l -> 1 <= countIn t l.
Proof.
  induction l as [|x l IH]; intros Hin; [by apply elem_of_nil in Hin|].
  unfold countIn in *. cbn [List.filter]. unfold eqs at 1.
  case_bool_decide as Hx; simpl; [lia|].
  apply elem_of_cons in Hin as [->|Hin]; [done|]. by apply IH.
Qed.

Lemma statsTerm_occ b f st term g :
  occIn g (statsTerm b f st term)
  = occIn g st + (if decide (g = f /\ term = t) then 1 else 0).
Proof.
  unfold occurrences, statsTerm. cbn [overallFieldCounts]. unfold bumpFieldMap.
  destruct (decide (term = t)) as [->|Ht].
  - destruct g, f; cbn [fieldMap m_title m_abstract m_keywords];
      rewrite ?lookup_insert_eq; simpl; repeat case_decide; try lia;
      exfalso; intuition congruence.
  - destruct g, f; cbn [fieldMap m_title m_abstract m_keywords];
      rewrite ?lookup_insert_ne by done; repeat case_decide; try lia;
      exfalso; intuition congruence.
Qed.

Lemma fold_statsTerm_occ b f l st g :
  occIn g (fold_left (statsTerm b f) l st)
  = occIn g st + (if decide (g = f) then countIn t l else 0).
Proof.
  revert st. induction l as [|term l IH]; intros st; cbn [fold_left].
  - unfold countIn. simpl. case_decide; lia.
  - rewrite IH, statsTerm_occ. unfold countIn. cbn [List.filter].
    unfold eqs at 2.
    destruct (decide (g = f)) as [->|Hg].
    + case_bool_decide as Hx.
      * subst term. rewrite decide_True by done. simpl. lia.
      * rewrite decide_False; [lia|]. intros [_ ->]. done.
    + rewrite decide_False by tauto. lia.
Qed.

Lemma statsBlock_occ st e g :
  occIn g (statsBlock st e) = occIn g st + countIn t (fieldHitsOf g (snd e)).
Proof.
  destruct e as [b fh]. unfold statsBlock. cbn [fold_left snd].
  rewrite !fold_statsTerm_occ.
  change (occIn g {| overallDocCounts := overallDocCounts st;
                     overallFieldCounts := overallFieldCounts st;
                     perBlock := _; seenOverall := seenOverall st;
                     seenInBlock := _ |})
    with (occIn g st).
  destruct g; repeat case_decide; try lia; exfalso; congruence.
Qed.

Lemma statsRow_occ st r g :
  occIn g (statsRow st r)
  = occIn g st
    + sum_list_with (fun e => countIn t (fieldHitsOf g (snd e)))
                    (map_to_list (MatchedTermsMap r)).
Proof.
  unfold statsRow.
  change (occIn g st)
    with (occIn g {| overallDocCounts := overallDocCounts st;
                     overallFieldCounts := overallFieldCounts st;
                     perBlock := perBlock st; seenOverall := ∅;
                     seenInBlock := ∅ |}).
  generalize ({| overallDocCounts := overallDocCounts st;
                 overallFieldCounts := overallFieldCounts st;
                 perBlock := perBlock st; seenOverall := ∅;
                 seenInBlock := ∅ |}).
  induction (map_to_list (MatchedTermsMap r)) as [|e l IH]; intros s;
    cbn [fold_left sum_list_with]; [lia|].
  rewrite IH, statsBlock_occ. lia.
Qed.

Lemma fold_statsRow_occ rows st g :
  occIn g (fold_left statsRow rows st)
  = occIn g st
    + sum_list_with
        (fun r => sum_list_with (fun e => countIn t (fieldHitsOf g (snd e)))
                                (map_to_list (MatchedTermsMap r))) rows.
Proof.
  revert st. induction rows as [|r rows IH]; intros st;
    cbn [fold_left sum_list_with]; [lia|].
  rewrite IH, statsRow_occ. lia.
Qed.

End OverallFieldFacts.

Lemma length_filter_impl {A} (f g : A -> bool) (l : list A) :
  (forall x, x ∈ l -> f x = true -> g x = true) ->
  length (List.filter f l) <= length (List.filter g l).
Proof.
  induction l as [|a l IH]; intros Himp; [done|]. simpl.
  assert (IH' : length (List.filter f l) <= length (List.filter g l)).
  { apply IH. intros x Hx. apply Himp. by right. }
  destruct (f a) eqn:Hf.
  - rewrite (Himp a) by (done || left). simpl. lia.
  - destruct (g a); simpl; lia.
Qed.

Lemma length_filter_le_sum {A} (f : A -> bool) (h : A -> nat) (l : list A) :
  (forall x, f x = true -> 1 <= h x) ->
  length (List.filter f l) <= sum_list_with h l.
Proof.
  intros Hh. induction l as [|a l IH]; [done|]. simpl.
  destruct (f a) eqn:Hf; simpl; [pose proof (Hh a Hf)|]; lia.
Qed.



(** ** Escaping and the export *)

Section EscapeFacts.

Lemma escapeChar_cases c :
  (htmlSpecial c = false /\ escapeChar c = [c])
  \/ (c = ch "&" /\ escapeChar c = js "&amp;")
  \/ (c = ch "<" /\ escapeChar c = js "&lt;")
  \/ (c = ch ">" /\ escapeChar c = js "&gt;")
  \/ (c = dquote /\ escapeChar c = js "&quot;")
  \/ (c = ch "'" /\ escapeChar c = js "&#39;").
Proof.
  unfold escapeChar, htmlSpecial.
  destruct (N.eqb_spec c (ch "&")) as [->|H1]; [by right; left|].
  destruct (N.eqb_spec c (ch "<")) as [->|H2]; [by right; right; left|].
  destruct (N.eqb_spec c (ch ">")) as [->|H3];
    [by right; right; right; left|].
  destruct (N.eqb_spec c dquote) as [->|H4];
    [by right; right; right; right; left|].
  destruct (N.eqb_spec c (ch "'")) as [->|H5];
    [by right; right; right; right; right|].
  by left.
Qed.

Lemma escapeHTML_app s1 s2 :
  escapeHTML (s1 ++ s2) = escapeHTML s1 ++ escapeHTML s2.
Proof. unfold escapeHTML. apply flat_map_app. Qed.

Lemma escapeHTML_markup_free s c :
  c ∈ escapeHTML s ->
  c <> ch "<" /\ c <> ch ">" /\ c <> dquote /\ c <> ch "'".
Proof.
  unfold escapeHTML. rewrite list_elem_of_In, in_flat_map.
  intros (x & _ & Hc). apply list_elem_of_In in Hc.
  destruct (escapeChar_cases x)
    as [[Hs He]|[[_ He]|[[_ He]|[[_ He]|[[_ He]|[_ He]]]]]];
    rewrite He in Hc.
  - apply list_elem_of_singleton in Hc as ->. unfold htmlSpecial in Hs.
    repeat (apply orb_false_iff in Hs as [Hs ?]).
    repeat match goal with
           | H : (_ =? _)%N = false |- _ => apply N.eqb_neq in H
           end.
    done.
  - revert c Hc. apply Forall_forall. by repeat constructor.
  - revert c Hc. apply Forall_forall. by repeat constructor.
  - revert c Hc. apply Forall_forall. by repeat constructor.
  - revert c Hc. apply Forall_forall. by repeat constructor.
  - revert c Hc. apply Forall_forall. by repeat constructor.
Qed.

Lemma unescape_escape s : unescapeHTML (escapeHTML s) = s.
Proof.
  induction s as [|x s IH]; [done|].
  change (escapeHTML (x :: s)) with (escapeChar x ++ escapeHTML s).
  destruct (escapeChar_cases x)
    as [[Hs He]|[[-> He]|[[-> He]|[[-> He]|[[-> He]|[-> He]]]]]];
    rewrite He.
  - cbn [app unescapeHTML].
    assert (Hx : (x =? ch "&")%N = false).
    { unfold htmlSpecial in Hs. by repeat (apply orb_false_iff in Hs as [Hs ?]). }
    rewrite Hx. by rewrite IH.
  - change (js "&amp;" ++ escapeHTML s)
      with (ch "&" :: ch "a" :: ch "m" :: ch "p" :: ch ";" :: escapeHTML s).
    cbn [unescapeHTML]. by rewrite IH.
  - change (js "&lt;" ++ escapeHTML s)
      with (ch "&" :: ch "l" :: ch "t" :: ch ";" :: escapeHTML s).
    cbn [unescapeHTML]. by rewrite IH.
  - change (js "&gt;" ++ escapeHTML s)
      with (ch "&" :: ch "g" :: ch "t" :: ch ";" :: escapeHTML s).
    cbn [unescapeHTML]. by rewrite IH.
  - change (js "&quot;" ++ escapeHTML s)
      with (ch "&" :: ch "q" :: ch "u" :: ch "o" :: ch "t" :: ch ";"
                   :: escapeHTML s).
    cbn [unescapeHTML]. by rewrite IH.
  - change (js "&#39;" ++ escapeHTML s)
      with (ch "&" :: ch "#" :: ch "3" :: ch "9" :: ch ";" :: escapeHTML s).
    cbn [unescapeHTML]. by rewrite IH.
Qed.

End EscapeFacts.

(** X18. The escaped text holds none of the characters [<], [>], the
    double quote and the apostrophe; reading the five entities back gives
    the text, so escaping loses nothing and different texts stay
    different; a text with none of the five special characters is left as
    it is. *)
Theorem escapeHTML_safe_and_reversible (s : jsstring) :
  (forall c, c ∈ escapeHTML s ->
             c <> ch "<" /\ c <> ch ">" /\ c <> dquote /\ c <> ch "'")
  /\ unescapeHTML (escapeHTML s) = s
  /\ (forall s', escapeHTML s = escapeHTML s' -> s = s')
  /\ (existsb htmlSpecial s = false -> escapeHTML s = s).
Proof.
  split; [apply escapeHTML_markup_free|]. split; [apply unescape_escape|].
  split.
  - intros s' Heq. by rewrite <- (unescape_escape s), Heq, unescape_escape.
  - induction s as [|x s IH]; [done|]. cbn [existsb].
    intros [Hx Hs]%orb_false_iff.
    change (escapeHTML (x :: s)) with (escapeChar x ++ escapeHTML s).
    rewrite IH by done.
    destruct (escapeChar_cases x) as [[_ He]|Hc]; [by rewrite He|].
    exfalso. destruct Hc as [[-> _]|[[-> _]|[[-> _]|[[-> _]|[-> _]]]]]; done.
Qed.

Section CsvFacts.

Lemma doubleQuotes_plain v : needsQuoting v = false -> doubleQuotes v = v.
Proof.
  induction v as [|c v IH]; [done|]. cbn [needsQuoting existsb].
  intros [Hc Hv]%orb_false_iff.
  change (doubleQuotes (c :: v))
    with ((if (c =? dquote)%N then [dquote; dquote] else [c]) ++ doubleQuotes v).
  apply orb_false_iff in Hc as [Hc _]. apply orb_false_iff in Hc as [Hc _].
  rewrite Hc. simpl. f_equal. by apply IH.
Qed.

Lemma scan_plain v rest cur row recs :
  needsQuoting v = false ->
  csvScan (v ++ rest) cur false row recs
  = csvScan rest (cur ++ v) false row recs.
Proof.
  revert cur. induction v as [|c v IH]; intros cur.
  - by rewrite app_nil_r.
  - cbn [needsQuoting existsb]. intros [Hc Hv]%orb_false_iff.
    apply orb_false_iff in Hc as [Hc H10].
    apply orb_false_iff in Hc as [Hq Hcomma].
    cbn [app csvScan]. rewrite Hq, Hcomma, H10.
    rewrite IH by done. by rewrite <- app_assoc.
Qed.

Lemma scan_quoted v rest cur row recs :
  head rest <> Some dquote ->
  csvScan (doubleQuotes v ++ dquote :: rest) cur true row recs
  = csvScan rest (cur ++ v) false row recs.
Proof.
  intros Hrest. revert cur. induction v as [|c v IH]; intros cur.
  - rewrite app_nil_r. cbn [doubleQuotes flat_map app csvScan].
    rewrite N.eqb_refl. destruct rest as [|d rest]; [done|].
    destruct (N.eqb_spec d dquote) as [->|_]; [done|done].
  - change (doubleQuotes (c :: v))
      with ((if (c =? dquote)%N then [dquote; dquote] else [c])
              ++ doubleQuotes v).
    destruct (N.eqb_spec c dquote) as [->|Hc].
    + cbn [app csvScan]. rewrite N.eqb_refl.
      rewrite IH. by rewrite <- app_assoc.
    + cbn [app csvScan]. apply N.eqb_neq in Hc. rewrite Hc.
      rewrite IH. by rewrite <- app_assoc.
Qed.

Lemma scan_cell v rest row recs :
  head rest <> Some dquote ->
  csvScan (csvEscape v ++ rest) [] false row recs
  = csvScan rest (default [] v) false row recs.
Proof.
  intros Hrest. destruct v as [s|]; [|done]. cbn [csvEscape default].
  destruct (needsQuoting s) eqn:Hn.
  - rewrite <- !app_assoc. cbn [app csvScan]. rewrite N.eqb_refl.
    by rewrite scan_quoted.
  - rewrite doubleQuotes_plain by done. by rewrite scan_plain.
Qed.

Lemma scan_cells cells rest row recs :
  cells <> [] -> head rest <> Some dquote ->
  csvScan (join (js ",") (map csvEscape cells) ++ rest) [] false row recs
  = csvScan rest (default [] (List.last cells None)) false
            (row ++ map (default []) (removelast cells)) recs.
Proof.
  intros Hne Hrest. revert row.
  induction cells as [|x cells IH]; intros row; [done|].
  destruct cells as [|y cells].
  - cbn [map join List.last removelast]. rewrite app_nil_r. by apply scan_cell.
  - change (join (js ",") (map csvEscape (x :: y :: cells)))
      with (csvEscape x ++ js "," ++ join (js ",") (map csvEscape (y :: cells))).
    rewrite <- !app_assoc. rewrite scan_cell by done.
    change (js "," ++ ?r) with (ch "," :: r).
    cbn [csvScan]. change (ch "," =? dquote)%N with false.
    change (ch "," =? ch ",")%N with true. cbv iota.
    rewrite IH by done.
    change (List.last (x :: y :: cells) None) with (List.last (y :: cells) None).
    change (removelast (x :: y :: cells)) with (x :: removelast (y :: cells)).
    cbn [map]. by rewrite <- app_assoc.
Qed.

Lemma cells_last (cells : list (option jsstring)) :
  cells <> [] ->
  map (default []) (removelast cells) ++ [default [] (List.last cells None)]
  = map (default []) cells.
Proof.
  intros Hne. rewrite (app_removelast_last None Hne) at 3.
  by rewrite map_app.
Qed.

Lemma scan_lines (rows : list (list (option jsstring))) recs :
  rows <> [] -> Forall (fun cells => cells <> []) rows ->
  csvScan (join [10%N] (map (fun cells => join (js ",") (map csvEscape cells))
                            rows)) [] false [] recs
  = recs ++ map (map (default [])) rows.
Proof.
  intros Hne Hall. revert recs.
  induction rows as [|r rows IH]; intros recs; [done|].
  apply Forall_cons in Hall as [Hr Hall].
  destruct rows as [|r' rows].
  - cbn [map join].
    rewrite <- (app_nil_r (join (js ",") (map csvEscape r))).
    rewrite scan_cells by done. cbn [csvScan app].
    by rewrite cells_last.
  - change (join [10%N] (map ?f (r :: r' :: rows)))
      with (f r ++ [10%N] ++ join [10%N] (map f (r' :: rows))).
    cbv beta. rewrite scan_cells by done.
    cbn [app csvScan]. change (10 =? dquote)%N with false.
    change (10 =? ch ",")%N with false. change (10 =? 10)%N with true.
    cbv iota. rewrite IH by done.
    rewrite cells_last by done. by rewrite <- app_assoc.
Qed.

End CsvFacts.

(** X22. The export reads back: for one row or more, a reader of
    comma-separated values gets from the text of [toCSV] the header line
    and then, row after row, the eight cells as they were (an absent cell
    as the empty text), whatever commas, quotes and line feeds the cells
    hold. *)
Theorem csv_export_reads_back (rows : list CsvRow) :
  rows <> [] ->
  readCSV (toCSV rows)
  = csvHeaders :: map (fun r => map (default []) (csvCells r)) rows.
Proof.
  intros Hne. unfold readCSV, toCSV.
  replace (join (js ",") csvHeaders)
    with (join (js ",") (map csvEscape (map Some csvHeaders)))
    by (vm_compute; reflexivity).
  rewrite scan_cells; [|done|done].
  cbn [app csvScan]. change (10 =? dquote)%N with false.
  change (10 =? ch ",")%N with false. change (10 =? 10)%N with true.
  cbv iota.
  rewrite cells_last by done.
  rewrite <- (map_map csvCells
                (fun cells => join (js ",") (map csvEscape cells))).
  rewrite scan_lines.
  - rewrite map_map. cbn [app]. f_equal.
    rewrite map_map. apply map_ext. intros c. done.
  - by destruct rows.
  - apply Forall_forall. intros cells Hin.
    apply list_elem_of_fmap in Hin as (r & -> & _). done.
Qed.

(** X23. A cell without comma, double quote and line feed is written as
    it is; any other cell is written between double quotes with its double
    quotes doubled; an absent cell is written as the empty text; and the
    written cell reads back as the cell. *)
Theorem csvEscape_reads_back (s : jsstring) :
  csvEscape None = []
  /\ (needsQuoting s = false -> csvEscape (Some s) = s)
  /\ (needsQuoting s = true ->
      csvEscape (Some s) = [dquote] ++ doubleQuotes s ++ [dquote])
  /\ readCSV (csvEscape (Some s)) = [[s]].
Proof.
  split; [done|]. split; [|split].
  - intros Hn. cbn [csvEscape]. rewrite Hn. by apply doubleQuotes_plain.
  - intros Hn. cbn [csvEscape]. by rewrite Hn.
  - unfold readCSV.
    rewrite <- (app_nil_r (csvEscape (Some s))).
    by rewrite scan_cell.
Qed.

(** ** The highlighter *)

Section RenderFacts.

Lemma renders_nil : renders [] [].
Proof. by intros r. Qed.

Lemma renders_app a b va vb :
  renders a va -> renders b vb -> renders (a ++ b) (va ++ vb).
Proof.
  intros Ha Hb r. by rewrite <- !app_assoc, Ha, Hb.
Qed.

Lemma renders_plain x : ch "<" ∉ x -> renders x x.
Proof.
  intros Hx r. induction x as [|c x IH]; [done|].
  apply not_elem_of_cons in Hx as [Hc Hx].
  cbn [app stripTags]. apply N.eqb_neq in Hc. rewrite N.eqb_sym in Hc.
  rewrite Hc. by rewrite IH.
Qed.

Lemma renders_escaped x : renders (escapeHTML x) (escapeHTML x).
Proof.
  apply renders_plain. intros Hin.
  by apply escapeHTML_markup_free in Hin as [? _].
Qed.

Lemma stripTags_inTag body r :
  ch ">" ∉ body ->
  stripTags (body ++ ch ">" :: r) true = stripTags r false.
Proof.
  intros Hb. induction body as [|c body IH].
  - cbn [app stripTags]. by rewrite N.eqb_refl.
  - apply not_elem_of_cons in Hb as [Hc Hb].
    cbn [app stripTags]. apply N.eqb_neq in Hc. rewrite N.eqb_sym in Hc.
    rewrite Hc. by apply IH.
Qed.

Lemma renders_tag body :
  ch ">" ∉ body -> renders (ch "<" :: body ++ [ch ">"]) [].
Proof.
  intros Hb r. cbn [app stripTags]. rewrite N.eqb_refl.
  rewrite <- app_assoc. by apply stripTags_inTag.
Qed.

Lemma no_gt_closed (s : jsstring) :
  existsb (N.eqb (ch ">")) s = false -> ch ">" ∉ s.
Proof.
  intros He Hin. apply list_elem_of_In in Hin.
  assert (Ht : existsb (N.eqb (ch ">")) s = true).
  { apply existsb_exists. exists (ch ">"). split; [done|apply N.eqb_refl]. }
  congruence.
Qed.

Lemma color_no_gt nm cfg :
  (ch ">" ∉ bg (colorForBlockName nm cfg))
  /\ (ch ">" ∉ border (colorForBlockName nm cfg)).
Proof.
  unfold colorForBlockName. cbv zeta.
  destruct (palette !! _) as [c|] eqn:Hc; cbn [default bg border].
  - apply list_elem_of_lookup_2 in Hc. revert c Hc. apply Forall_forall.
    unfold palette.
    repeat (apply List.Forall_cons;
            [split; apply no_gt_closed; vm_compute; reflexivity|]).
    apply List.Forall_nil.
  - split; by intros ?%elem_of_nil.
Qed.

Lemma renders_markOpen blk c :
  ch ">" ∉ bg c -> ch ">" ∉ border c -> renders (markOpen blk c) [].
Proof.
  intros Hbg Hbd.
  set (body := js "mark class=" ++ [dquote] ++ js "hl" ++ [dquote]
               ++ js " data-block=" ++ [dquote] ++ escapeHTML blk ++ [dquote]
               ++ js " style=" ++ [dquote] ++ js "background:" ++ bg c
               ++ js ";border:1px solid " ++ border c
               ++ js ";border-radius:0.25rem;padding:0 0.15em;" ++ [dquote]).
  replace (markOpen blk c) with (ch "<" :: body ++ [ch ">"]).
  2:{ unfold markOpen. subst body. cbn [js]. rewrite <- ?app_assoc.
      reflexivity. }
  apply renders_tag. subst body.
  rewrite !not_elem_of_app.
  repeat split; try done;
    try (apply no_gt_closed; vm_compute; reflexivity).
  intros Hin. by apply escapeHTML_markup_free in Hin as (_ & ? & _).
Qed.

Lemma renders_markClose : renders markClose [].
Proof.
  change markClose with (ch "<" :: js "/mark" ++ [ch ">"]).
  apply renders_tag. apply no_gt_closed. vm_compute. reflexivity.
Qed.

Lemma sliceZ_app txt a b c :
  (0 <= a <= b)%Z -> (b <= c)%Z ->
  sliceZ txt a b ++ sliceZ txt b c = sliceZ txt a c.
Proof.
  intros Hab Hbc. unfold sliceZ.
  replace (drop (Z.to_nat b) txt)
    with (drop (Z.to_nat b - Z.to_nat a) (drop (Z.to_nat a) txt)).
  2:{ rewrite drop_drop. f_equal. lia. }
  rewrite take_take_drop. f_equal. lia.
Qed.

Lemma sliceZ_drop txt p :
  (0 <= p)%Z -> sliceZ txt 0 p ++ drop (Z.to_nat p) txt = txt.
Proof.
  intros Hp. unfold sliceZ. rewrite drop_0.
  replace (Z.to_nat p - Z.to_nat 0) with (Z.to_nat p) by lia.
  apply take_drop.
Qed.

Lemma paintLoop_renders cfg txt spans out pos v :
  (0 <= pos)%Z -> renders out v ->
  Forall (wellSpan txt) spans ->
  StronglySorted spanBefore spans ->
  Forall (fun s => (pos <= start s)%Z) spans ->
  (pos <= snd (paintLoop cfg txt spans out pos))%Z
  /\ renders (fst (paintLoop cfg txt spans out pos))
             (v ++ escapeHTML (sliceZ txt pos
                                 (snd (paintLoop cfg txt spans out pos)))).
Proof.
  revert out pos v.
  induction spans as [|s spans IH]; intros out pos v Hpos Hout Hw Hs Hle.
  - cbn [paintLoop fst snd]. split; [lia|].
    unfold sliceZ. rewrite Nat.sub_diag, take_0. cbn [escapeHTML flat_map].
    by rewrite app_nil_r.
  - cbn [paintLoop].
    apply Forall_cons in Hw as [[Hb Ht] Hw].
    apply StronglySorted_inv in Hs as [Hs Hbefore].
    apply Forall_cons in Hle as [Hps Hle].
    destruct (color_no_gt (sblock s) cfg) as [Hbg Hbd].
    set (out' := (out ++ escapeHTML (sliceZ txt pos (start s)))
                 ++ markOpen (sblock s) (colorForBlockName (sblock s) cfg)
                 ++ escapeHTML (text s) ++ markClose).
    assert (Hout' : renders out' (v ++ escapeHTML (sliceZ txt pos (end_ s)))).
    { assert (Hr : renders out'
                     ((v ++ escapeHTML (sliceZ txt pos (start s)))
                      ++ [] ++ escapeHTML (text s) ++ [])).
      { subst out'.
        apply renders_app; [apply renders_app; [done|apply renders_escaped]|].
        apply renders_app; [by apply renders_markOpen|].
        apply renders_app; [apply renders_escaped|apply renders_markClose]. }
      cbn [app] in Hr. rewrite app_nil_r, <- app_assoc in Hr.
      rewrite Ht, <- escapeHTML_app in Hr.
      by rewrite sliceZ_app in Hr by lia. }
    destruct (IH out' (end_ s) _ ltac:(lia) Hout' Hw Hs) as [Hle' Hr].
    { eapply Forall_impl; [exact Hbefore|]. intros k [_ Hk]. exact Hk. }
    split; [lia|].
    rewrite <- app_assoc, <- escapeHTML_app in Hr.
    rewrite sliceZ_app in Hr by lia. exact Hr.
Qed.

End RenderFacts.

Section HighlighterFacts.
Context `{RegExpEngine}.

Lemma execLoop_wellSpan fuel rx blk txt lastIndex spans out :
  execLoop fuel rx blk txt lastIndex spans = Some out ->
  Forall (wellSpan txt) spans -> Forall (wellSpan txt) out.
Proof.
  revert lastIndex spans.
  induction fuel as [|fuel IH]; intros lastIndex spans; cbn [execLoop];
    [done|].
  destruct (length txt <? lastIndex); [by intros [= <-]|].
  destruct (regexp_exec rx txt lastIndex) as [[idx len]|];
    [|by intros [= <-]].
  intros Hl Hall. eapply IH; [exact Hl|].
  apply Forall_app. split; [done|]. apply Forall_singleton.
  unfold wellSpan, sliceZ. cbn [start end_ text]. split; [lia|].
  rewrite Nat2Z.id. f_equal. lia.
Qed.

Lemma gatherSpans_wellSpan txt arr spans out :
  gatherSpans txt arr spans = Some out ->
  Forall (wellSpan txt) spans -> Forall (wellSpan txt) out.
Proof.
  revert spans. induction arr as [|[blk re] arr IH]; intros spans;
    cbn [gatherSpans].
  - by intros [= <-].
  - destruct (execLoop _ re blk txt 0 spans) as [spans'|] eqn:He; [|done].
    intros Hg Hall. eapply IH; [exact Hg|].
    by eapply execLoop_wellSpan.
Qed.

Lemma collectSpans_chain txt arr :
  exists out,
    collectSpans txt arr = Some out
    /\ Forall (wellSpan txt) out /\ StronglySorted spanBefore out.
Proof.
  destruct (gatherSpans_total txt arr []) as (spans & Hg & _).
  exists (pickSpans (sortSpans spans) (-1) []).
  split; [unfold collectSpans; by rewrite Hg|]. split.
  - apply Forall_forall. intros s Hs.
    apply pickSpans_elem_of in Hs. rewrite sortSpans_Permutation in Hs.
    revert s Hs. apply Forall_forall.
    by apply (gatherSpans_wellSpan txt arr []).
  - apply pickSpans_chain.
    eapply StronglySorted_weaken; [apply spanLe_start|apply sortSpans_sorted].
Qed.

Lemma perBlockLoop_cases cfg field entries acc :
  match perBlockLoop cfg field entries acc with
  | Value _ => True
  | Exception =>
      exists blk fh b,
        (blk, fh) ∈ entries
        /\ List.find (fun b => eqs (name b) blk) (blocks cfg) = Some b
        /\ fieldHitsOf field fh <> []
        /\ regexp_new (blockFieldSource (isRegex b) (fieldHitsOf field fh))
                      (caseInsensitive cfg) = None
  | NoFuel => False
  end.
Proof.
  revert acc. induction entries as [|[blk fh] entries IH]; intros acc;
    cbn [perBlockLoop]; [done|].
  unfold compileRegexForBlockField.
  destruct (List.find _ (blocks cfg)) as [b|] eqn:Hb.
  - destruct (fieldHitsOf field fh) as [|h hits] eqn:Hh.
    + specialize (IH acc). destruct (perBlockLoop cfg field entries acc);
        [done| |done].
      destruct IH as (blk' & fh' & b' & Hin & Hrest).
      exists blk', fh', b'. split; [by right|done].
    + destruct (regexp_new _ _) as [re|] eqn:Hre.
      * specialize (IH (acc ++ [(blk, re)])).
        destruct (perBlockLoop cfg field entries _); [done| |done].
        destruct IH as (blk' & fh' & b' & Hin & Hrest).
        exists blk', fh', b'. split; [by right|done].
      * exists blk, fh, b. split; [left|]. rewrite Hh. done.
  - specialize (IH acc). destruct (perBlockLoop cfg field entries acc);
      [done| |done].
    destruct IH as (blk' & fh' & b' & Hin & Hrest).
    exists blk', fh', b'. split; [by right|done].
Qed.

Lemma perBlockLoop_skips cfg field entries acc :
  (forall blk fh, (blk, fh) ∈ entries ->
      List.find (fun b => eqs (name b) blk) (blocks cfg) = None
      \/ fieldHitsOf field fh = []) ->
  perBlockLoop cfg field entries acc = Value acc.
Proof.
  induction entries as [|[blk fh] entries IH]; intros Hall;
    cbn [perBlockLoop]; [done|].
  assert (IH' : perBlockLoop cfg field entries acc = Value acc).
  { apply IH. intros blk' fh' Hin. apply Hall. by right. }
  unfold compileRegexForBlockField.
  destruct (Hall blk fh) as [->| ->]; [left|done|].
  by destruct (List.find _ _).
Qed.

Lemma visible_escaped txt : visibleText (escapeHTML txt) = escapeHTML txt.
Proof.
  unfold visibleText.
  rewrite <- (app_nil_r (escapeHTML txt)) at 1.
  rewrite renders_escaped. by rewrite app_nil_r.
Qed.

(** X19. Highlighting only adds marks: when [highlightByBlocks] returns,
    the text of its markup (the markup without its tags) is the escaped
    text, and reading the entities back gives the text itself; nothing is
    lost, doubled or moved.  The function ends on every input; it raises
    only when the pattern source built for the hits of some block of the
    configuration is refused by the engine. *)
Theorem highlight_preserves_text (txt : jsstring)
    (entries : list (jsstring * FieldHits)) (cfg : QueryConfig)
    (field : FieldName) :
  match highlightByBlocks txt entries cfg field with
  | Value out =>
      visibleText out = escapeHTML txt
      /\ unescapeHTML (visibleText out) = txt
  | Exception =>
      exists blk fh b,
        (blk, fh) ∈ entries
        /\ List.find (fun b => eqs (name b) blk) (blocks cfg) = Some b
        /\ fieldHitsOf field fh <> []
        /\ regexp_new (blockFieldSource (isRegex b) (fieldHitsOf field fh))
                      (caseInsensitive cfg) = None
  | NoFuel => False
  end.
Proof.
  assert (Hplain : visibleText (escapeHTML txt) = escapeHTML txt
                   /\ unescapeHTML (visibleText (escapeHTML txt)) = txt).
  { rewrite visible_escaped. split; [done|apply unescape_escape]. }
  unfold highlightByBlocks. destruct txt as [|c0 txt0] eqn:Htxt; [done|].
  rewrite <- Htxt in *. clear Htxt c0 txt0.
  pose proof (perBlockLoop_cases cfg field entries []) as Hcases.
  destruct (perBlockLoop cfg field entries []) as [perBlock| |];
    [|done|done].
  destruct perBlock as [|p perBlock]; [done|].
  destruct (collectSpans_chain txt (p :: perBlock))
    as (spans & -> & Hwell & Hchain).
  destruct spans as [|s spans]; [done|].
  destruct (paintLoop_renders cfg txt (s :: spans) [] 0 []) as [Hpos Hr];
    [lia|apply renders_nil|done|done| |].
  { eapply Forall_impl; [exact Hwell|]. intros k [Hk _]. lia. }
  destruct (paintLoop cfg txt (s :: spans) [] 0) as [out pos].
  cbn [fst snd app] in Hpos, Hr.
  assert (Hv : visibleText (out ++ escapeHTML (drop (Z.to_nat pos) txt))
               = escapeHTML txt).
  { unfold visibleText.
    rewrite <- (app_nil_r (out ++ _)), <- app_assoc.
    rewrite Hr, renders_escaped. cbn [stripTags].
    rewrite app_nil_r, <- escapeHTML_app. by rewrite sliceZ_drop. }
  rewrite Hv. split; [done|apply unescape_escape].
Qed.

(** X20. Hits are marked only for entries whose key is the name of a
    block: when every entry of the hit map either has no hit in the field
    or has a key that is the name of no block, the result is the escaped
    text without a mark.  The hits of a block without a name, which the
    evaluator lists under [Block i], are such entries. *)
Theorem highlight_skips_unknown_blocks (txt : jsstring)
    (entries : list (jsstring * FieldHits)) (cfg : QueryConfig)
    (field : FieldName) :
  Forall (fun e => Forall (fun b => name b <> fst e) (blocks cfg)
                   \/ fieldHitsOf field (snd e) = []) entries ->
  highlightByBlocks txt entries cfg field = Value (escapeHTML txt).
Proof.
  intros Hall. unfold highlightByBlocks. destruct txt as [|c txt]; [done|].
  rewrite perBlockLoop_skips; [done|].
  intros blk fh Hin. rewrite Forall_forall in Hall.
  destruct (Hall (blk, fh) Hin) as [Hno|Hh]; [left|by right].
  destruct (List.find _ (blocks cfg)) as [b|] eqn:Hb; [|done].
  apply find_some in Hb as [Hb Hn]. apply list_elem_of_In in Hb.
  unfold eqs in Hn. apply bool_decide_eq_true in Hn.
  rewrite Forall_forall in Hno. by apply Hno in Hb.
Qed.

End HighlighterFacts.

Section SortFacts.

Lemma insertByLength_Permutation h l : insertByLength h l ≡ₚ h :: l.
Proof.
  induction l as [|t l IH]; simpl; [done|].
  destruct (_ <=? 0)%Z; [done|]. rewrite IH. apply Permutation_swap.
Qed.

Lemma insertByLength_sorted h l :
  StronglySorted (fun a b => length b <= length a) l ->
  StronglySorted (fun a b => length b <= length a) (insertByLength h l).
Proof.
  induction l as [|t l IH]; intros Hs; simpl.
  - repeat constructor.
  - apply StronglySorted_inv in Hs as [Hs Hall].
    destruct (_ <=? 0)%Z eqn:Hc.
    + apply Z.leb_le in Hc. constructor; [by constructor|].
      constructor; [lia|].
      eapply Forall_impl; [exact Hall|]. intros x Hx. simpl in Hx. lia.
    + apply Z.leb_gt in Hc. constructor; [by apply IH|].
      rewrite insertByLength_Permutation. constructor; [lia|done].
Qed.

Lemma insertByLength_stable k h l :
  List.filter (fun x => length x =? k) (insertByLength h l)
  = List.filter (fun x => length x =? k) (h :: l).
Proof.
  induction l as [|t l IH]; [done|]. cbn [insertByLength].
  destruct (_ <=? 0)%Z eqn:Hc; [done|]. apply Z.leb_gt in Hc.
  cbn [List.filter] in *. rewrite IH.
  destruct (Nat.eqb_spec (length h) k), (Nat.eqb_spec (length t) k);
    try done; lia.
Qed.

End SortFacts.

(** X21. The pattern source for the hits of a block is the
    non-capturing group of the patterns of the hits, joined by [|], with
    the hits in a stable order of descending length: the same hits, the
    longer in front, and hits of one length in their former order. *)
Theorem highlight_pattern_longest_first (rx : bool) (hits : list jsstring) :
  blockFieldSource rx hits
  = js "(?:"
    ++ join (js "|")
            (map (fun h => toSmartWordPattern h rx) (sortByLength hits))
    ++ js ")"
  /\ sortByLength hits ≡ₚ hits
  /\ StronglySorted (fun a b => length b <= length a) (sortByLength hits)
  /\ (forall k, List.filter (fun x => length x =? k) (sortByLength hits)
                = List.filter (fun x => length x =? k) hits).
Proof.
  split; [done|]. split; [|split].
  - induction hits as [|h hits IH]; [done|]. simpl.
    by rewrite insertByLength_Permutation, IH.
  - induction hits as [|h hits IH]; [constructor|]. simpl.
    by apply insertByLength_sorted.
  - intros k. induction hits as [|h hits IH]; [done|].
    cbn [sortByLength]. rewrite insertByLength_stable.
    cbn [List.filter]. by rewrite IH.
Qed.

(** ** Sample runs of the further properties *)

(** The sample query [VR AND NOT Survey] on a title about VR. *)
Lemma evaluate_all_and_all_or_witness :
  val (evaluateQueryOnText notConfig (titled "A VR study") allFields)
  = forallb (contribution (selectedTexts (titled "A VR study") allFields))
            (compileBlocks notConfig).
Proof.
  refine (proj1 (evaluate_all_and_all_or
                   notConfig (titled "A VR study") allFields _) _).
  - simpl. lia.
  - repeat constructor.
Defined.

(** The entry of the block [VR] in the hit map of the sample query. *)
Lemma hit_lists_well_formed_witness :
  exists c, c ∈ compileBlocks notConfig /\ cname c = js "VR"
            /\ exclude (block c) = false.
Proof.
  destruct (hit_lists_well_formed
              notConfig (titled "A VR study") allFields (js "VR")
              {| hits_title := Some [js "vr"]; hits_abstract := None;
                 hits_keywords := None |})
    as (c & Hc & Hn & Hex & _).
  - vm_compute. reflexivity.
  - exists c. split; [exact Hc|]. split; [exact Hn|exact Hex].
Defined.

(** A pasted expression of two groups. *)
Lemma pasted_query_is_conjunction_witness :
  NoDup (map cname (compileBlocks
                      (applyPastedQuery (fun _ => []) abcConfig
                                        (js "vr AND (survey OR review)")))).
Proof.
  apply (pasted_query_is_conjunction (fun _ => []) abcConfig
           (js "vr AND (survey OR review)") (titled "A VR study") allFields).
  discriminate.
Defined.

(** The block model of a pasted expression of two groups. *)
Lemma parsed_query_well_formed_witness :
  exists pq,
    parseBooleanQuery (fun _ => []) (js "vr AND (survey OR review)") = Some pq
    /\ pq_operators pq = replicate (length (pq_blocks pq) - 1) AND.
Proof.
  destruct (parseBooleanQuery (fun _ => []) (js "vr AND (survey OR review)"))
    as [pq|] eqn:Hpq; [|vm_compute in Hpq; discriminate].
  exists pq. split; [reflexivity|].
  exact (proj1 (parsed_query_well_formed _ _ pq Hpq)).
Defined.

(** The entries of the sample bibliography. *)
Lemma parsed_entries_well_formed_witness :
  exists es, parseBibtexEntries sampleBib = Returns es
             /\ Forall (wellFormedEntry sampleBib) es.
Proof.
  destruct (parseBibtexEntries sampleBib) as [es| |] eqn:Hp;
    [|vm_compute in Hp; discriminate..].
  exists es. split; [reflexivity|].
  exact (parsed_entries_well_formed sampleBib es Hp).
Defined.

(** The sample bibliography has four [@] and four entries. *)
Lemma parsed_entries_bounded_witness :
  exists es, parseBibtexEntries sampleBib = Returns es
             /\ length es <= countAt sampleBib.
Proof.
  destruct (parseBibtexEntries sampleBib) as [es| |] eqn:Hp;
    [|vm_compute in Hp; discriminate..].
  exists es. split; [reflexivity|].
  exact (proj1 (parsed_entries_bounded sampleBib es Hp)).
Defined.

(** The query with blank terms only, run over the sample bibliography. *)
Lemma run_without_usable_block_witness :
  matched (report (runEntries blankConfig (extracted sampleBib)))
  = eligible (report (runEntries blankConfig (extracted sampleBib))).
Proof.
  apply (run_without_usable_block blankConfig (extracted sampleBib)).
  vm_compute. reflexivity.
Defined.

(** The sample query with no field selected. *)
Lemma run_without_selected_field_witness :
  out_matched (runEntries noFieldConfig (extracted sampleBib)) = [].
Proof.
  apply (run_without_selected_field noFieldConfig (extracted sampleBib)).
  reflexivity.
Defined.


(** A fourth, empty block behind the three of the sample query. *)
Lemma addBlockAt_end_keeps_results_witness :
  evaluateQueryOnText (addBlockAt (js "b4") (length (blocks editConfig))
                                  editConfig)
                      (titled "Alpha and gamma") allFields
  = evaluateQueryOnText editConfig (titled "Alpha and gamma") allFields.
Proof.
  apply (addBlockAt_end_keeps_results (js "b4") editConfig).
  simpl. lia.
Defined.

(** Removing the middle block of [A OR B AND C] leaves [A AND C]. *)
Lemma removeBlock_drops_block_and_operator_witness :
  operators (removeBlock (js "b2") 1 editConfig) = [AND].
Proof.
  refine (proj1 (proj2 (removeBlock_drops_block_and_operator
                          (js "b2") 1 editConfig _ _ _ _))).
  - apply (bool_decide_unpack _). vm_compute. exact I.
  - reflexivity.
  - reflexivity.
Defined.

(** Adding a block behind [A] and removing it turns [A OR B AND C] into
    [A AND B AND C]. *)
Lemma addBlockAt_then_removeBlock_witness :
  operators (removeBlock (js "b4") 1 (addBlockAt (js "b4") 1 editConfig))
  = [AND; AND].
Proof.
  refine (proj2 (addBlockAt_then_removeBlock (js "b4") 1 editConfig _ _ _)).
  - apply (bool_decide_unpack _). vm_compute. exact I.
  - simpl. lia.
  - reflexivity.
Defined.

(** The hit of a block without a name is not marked. *)
Lemma highlight_skips_unknown_blocks_witness :
  highlightByBlocks (js "A VR <study>")
    [(js "Block 1", {| hits_title := Some [js "vr"]; hits_abstract := None;
                       hits_keywords := None |})]
    unnamedConfig Title
  = Value (js "A VR &lt;study&gt;").
Proof.
  apply (highlight_skips_unknown_blocks (js "A VR <study>")).
  apply (bool_decide_unpack _). vm_compute. exact I.
Defined.

(** A row whose title holds a comma and a quoted word. *)
Lemma csv_export_reads_back_witness :
  readCSV (toCSV [sampleCsvRow])
  = [csvHeaders; map (default []) (csvCells sampleCsvRow)].
Proof.
  apply (csv_export_reads_back [sampleCsvRow]). discriminate.
Defined.

(** The hits of a named block are marked, and the text around and inside
    the marks is escaped. *)
Example highlight_sample :
  (visibleText <$>
     match highlightByBlocks (js "A VR <study>")
             [(js "VR", {| hits_title := Some [js "vr"]; hits_abstract := None;
                           hits_keywords := None |})]
             notConfig Title with
     | Value out => Some out
     | _ => None
     end)
  = Some (js "A VR &lt;study&gt;")
  /\ highlightByBlocks (js "A VR")
       [(js "VR", {| hits_title := Some [js "vr"]; hits_abstract := None;
                     hits_keywords := None |})]
       notConfig Title
     = Value (js "A " ++ markOpen (js "VR") {| bg := js "#F1F5FF";
                                               border := js "#3B82F6" |}
              ++ js "VR" ++ markClose).
Proof. vm_compute. split; reflexivity. Qed.

(** A regex-flagged term that is no valid pattern is searched as literal
    text by the evaluator, and makes the highlighter raise. *)
Example highlight_raises_on_broken_pattern :
  detailed (evaluateQueryOnText brokenRegexConfig (titled "f(a(b))") allFields)
  !! js "R"
  = Some {| hits_title := Some [js "a("]; hits_abstract := None;
            hits_keywords := None |}
  /\ highlightByBlocks (js "f(a(b))")
       [(js "R", {| hits_title := Some [js "a("]; hits_abstract := None;
                    hits_keywords := None |})]
       brokenRegexConfig Title
     = Exception.
Proof. vm_compute. split; reflexivity. Qed.

(** Adding an empty block in front of a query shifts the operators. *)
Example addBlockAt_front_shifts_operators :
  val (evaluateQueryOnText editConfig (titled "Gamma only") allFields) = false
  /\ val (evaluateQueryOnText (addBlockAt (js "b4") 0 editConfig)
                              (titled "Gamma only") allFields) = true.
Proof. vm_compute. split; reflexivity. Qed.
